(** * CollabKit: a shallow embedding of the CRDT engine, the room layer and
      the session gates, with the properties of the specification checked
      against it.

    Conventions of the embedding.
    - Python [float] timestamps are exact rationals ([Q]); [==], [!=], [<]
      and [>] on them are [Qeq], its negation, and [Qlt].
    - Python [str] is [string] (a byte string holding the UTF-8 encoding;
      byte-wise lexicographic order agrees with code-point order).
    - A Python [dict] whose iteration order is observable is an association
      list in insertion order ([od_get], [od_set]); a dict that is only looked
      up by key is a [gmap].
    - [time.time()] and [uuid.uuid4()] are inputs: a function that calls them
      receives the value read as an argument.
    - A raised exception is [Raise e]; the run of a method stops there. *)

From Stdlib Require Import List String Ascii ZArith QArith Qminmax Lia Lqa Bool.
From Stdlib Require OrderedTypeEx.
From stdpp Require Import gmap strings.
Import ListNotations.
Local Open Scope string_scope.

(* ===================================================================== *)
(** * Part I: the embedding *)
(* ===================================================================== *)

(** ** Exceptions *)

Inductive PyExc : Type :=
| TypeError
| ValueError
| KeyError
| AttributeError
| ZeroDivisionError
| IllTyped.
(* [IllTyped] is not a Python exception: it marks an input that the declared
   field types of the source exclude (the Python code performs no check and
   would carry the ill-typed value along). *)

Inductive Result (A : Type) : Type :=
| Ok (a : A)
| Raise (e : PyExc).
Arguments Ok {A} a.
Arguments Raise {A} e.

Definition rbind {A B : Type} (r : Result A) (k : A -> Result B) : Result B :=
  match r with
  | Ok a => k a
  | Raise e => Raise e
  end.

Notation "'do' x <- r ; k" := (rbind r (fun x => k))
  (at level 10, x name, r at level 100, k at level 200).
Notation "'do' ' p <- r ; k" := (rbind r (fun p => k))
  (at level 10, p pattern, r at level 100, k at level 200).

(** ** Insertion-ordered dictionaries *)

Section OrderedDict.
Context {K V : Type} `{EqDecision K}.

(** [d.get(k)] *)
Fixpoint od_get (k : K) (d : list (K * V)) : option V :=
  match d with
  | [] => None
  | (k', v) :: rest => if decide (k = k') then Some v else od_get k rest
  end.

(** [d[k] = v]: an existing key keeps its position, a new key goes last. *)
Fixpoint od_set (k : K) (v : V) (d : list (K * V)) : list (K * V) :=
  match d with
  | [] => [(k, v)]
  | (k', v') :: rest =>
      if decide (k = k') then (k, v) :: rest else (k', v') :: od_set k v rest
  end.

(** [k in d] *)
Definition od_mem (k : K) (d : list (K * V)) : bool :=
  match od_get k d with Some _ => true | None => false end.
End OrderedDict.

(** ** Dynamic (JSON-shaped) values *)

#[local] Set Warnings "-register-all".

Inductive PyVal : Type :=
| VNone
| VBool (b : bool)
| VInt (z : Z)
| VFloat (q : Q)
| VStr (s : string)
| VList (l : list PyVal)
| VDict (d : list (string * PyVal)).

Fixpoint PyVal_eq_dec (a b : PyVal) {struct a} : {a = b} + {a <> b}.
Proof.
  decide equality.
  - apply bool_dec.
  - apply Z.eq_dec.
  - decide equality; [apply Pos.eq_dec | apply Z.eq_dec].
  - apply string_dec.
  - apply (List.list_eq_dec PyVal_eq_dec).
  - apply List.list_eq_dec. decide equality. apply string_dec.
Defined.

#[global] Instance PyVal_eq_decision : EqDecision PyVal := PyVal_eq_dec.

(** [isinstance(v, dict)] *)
Definition is_dict (v : PyVal) : bool :=
  match v with VDict _ => true | _ => false end.

(** Python's [hash(v)] is defined for scalars and raises [TypeError] for
    lists and dicts. *)
Definition hashable (v : PyVal) : bool :=
  match v with VList _ | VDict _ => false | _ => true end.

(** ** Comparisons on floats and strings *)

Definition float_gt (a b : Q) : bool :=
  match Qcompare a b with Gt => true | _ => false end.
Definition float_lt (a b : Q) : bool := float_gt b a.
Definition float_ne (a b : Q) : bool := negb (Qeq_bool a b).
Definition float_ge (a b : Q) : bool := negb (float_lt a b).

(** [s1 > s2] on [str] *)
Definition str_gt (s1 s2 : string) : bool := String.ltb s2 s1.

(** [sep.join(parts)] and [s.split(sep)] for a one-character [sep]. *)
Definition str_join (sep : string) (parts : list string) : string :=
  String.concat sep parts.

Fixpoint str_split (sep : ascii) (s : string) : list string :=
  match s with
  | EmptyString => [EmptyString]
  | String a rest =>
      if Ascii.eqb a sep then EmptyString :: str_split sep rest
      else match str_split sep rest with
           | seg :: segs => String a seg :: segs
           | [] => [String a EmptyString]
           end
  end.

(** The characters of a [str], as [tuple(s)] and [for c in s] give them: one
    string per code point. In the UTF-8 encoding a byte of the form
    [10xxxxxx] continues the code point begun before it; every other byte
    begins one. *)
Definition is_continuation_byte (c : ascii) : bool :=
  match c with
  | Ascii _ _ _ _ _ _ b6 b7 => b7 && negb b6
  end.

Fixpoint str_chars_from (s : string) : string * list string :=
  match s with
  | EmptyString => (EmptyString, [])
  | String c rest =>
      let '(continuation, chars) := str_chars_from rest in
      if is_continuation_byte c then (String c continuation, chars)
      else (EmptyString, String c continuation :: chars)
  end.

Definition str_chars (s : string) : list string :=
  let '(continuation, chars) := str_chars_from s in
  match continuation with
  | EmptyString => chars
  | _ => continuation :: chars
  end.

(* ===================================================================== *)
(** ** crdt/base.py *)
(* ===================================================================== *)

(** [class Operation] (a frozen dataclass). *)
Record Operation : Type := mkOperation {
  op_id : string;
  op_timestamp : Q;
  op_node_id : string;
  op_path : list string;
  op_type : string;
  op_value : PyVal
}.

(** Reading a dictionary field at its declared type. *)
Definition dict_item (key : string) (data : PyVal) : Result PyVal :=
  match data with
  | VDict d => match od_get key d with
               | Some v => Ok v
               | None => Raise KeyError
               end
  | _ => Raise TypeError
  end.

Definition as_str (v : PyVal) : Result string :=
  match v with VStr s => Ok s | _ => Raise IllTyped end.

Definition as_float (v : PyVal) : Result Q :=
  match v with
  | VFloat q => Ok q
  | VInt z => Ok (inject_Z z)
  | _ => Raise IllTyped
  end.

Fixpoint as_str_list (l : list PyVal) : Result (list string) :=
  match l with
  | [] => Ok []
  | v :: rest =>
      do s <- as_str v;
      do ss <- as_str_list rest;
      Ok (s :: ss)
  end.

(** [tuple(x)] at type [tuple[str, ...]]: a list gives its items, a string
    its characters, a dict its keys. *)
Definition as_path (v : PyVal) : Result (list string) :=
  match v with
  | VList l => as_str_list l
  | VStr s => Ok (str_chars s)
  | VDict d => Ok (map fst d)
  | _ => Raise TypeError
  end.

(** [Operation.create]: [uid] is [str(uuid.uuid4())], [now] is [time.time()]. *)
Definition Operation_create (uid : string) (now : Q)
    (node_id : string) (path : list string) (op_type : string) (value : PyVal)
  : Operation :=
  {| op_id := uid; op_timestamp := now; op_node_id := node_id;
     op_path := path; op_type := op_type; op_value := value |}.

(** [Operation.to_dict] *)
Definition Operation_to_dict (op : Operation) : PyVal :=
  VDict [ ("id", VStr (op_id op));
          ("timestamp", VFloat (op_timestamp op));
          ("node_id", VStr (op_node_id op));
          ("path", VList (map VStr (op_path op)));
          ("op_type", VStr (op_type op));
          ("value", op_value op) ].

(** [Operation.from_dict(data, use_server_timestamp)]; [now] is the value
    [time.time()] returns when it is called. The keyword arguments are
    evaluated in the order of the source. *)
Definition Operation_from_dict (data : PyVal) (use_server_timestamp : bool)
    (now : Q) : Result Operation :=
  do id_v <- dict_item "id" data;
  do id_ <- as_str id_v;
  do ts <- (if use_server_timestamp then Ok now
            else do t <- dict_item "timestamp" data; as_float t);
  do node_v <- dict_item "node_id" data;
  do node <- as_str node_v;
  do path_v <- dict_item "path" data;
  do path <- as_path path_v;
  do ty_v <- dict_item "op_type" data;
  do ty <- as_str ty_v;
  do val <- (match data with
             | VDict d => Ok (match od_get "value" d with
                              | Some v => v
                              | None => VNone
                              end)
             | _ => Raise AttributeError
             end);
  Ok {| op_id := id_; op_timestamp := ts; op_node_id := node;
        op_path := path; op_type := ty; op_value := val |}.

(** [class VersionVector] *)
Definition VersionVector := list (string * Q).

Definition VersionVector_get (vv : VersionVector) (node_id : string) : Q :=
  match od_get node_id vv with Some t => t | None => 0%Q end.

(** [max(current, timestamp)]: Python returns the first of two equal items. *)
Definition float_max (a b : Q) : Q := if float_gt b a then b else a.

Definition VersionVector_update (vv : VersionVector) (node_id : string)
    (timestamp : Q) : VersionVector :=
  let current := VersionVector_get vv node_id in
  od_set node_id (float_max current timestamp) vv.

(** [class CRDT]: the attributes every CRDT instance carries. *)
Record CRDT : Type := mkCRDT {
  node_id : string;
  _operations : list Operation;
  _version_vector : VersionVector
}.

Definition CRDT_init (node : string) : CRDT :=
  {| node_id := node; _operations := []; _version_vector := [] |}.

Definition operations_since (c : CRDT) (timestamp : Q) : list Operation :=
  List.filter (fun op => float_gt (op_timestamp op) timestamp) (_operations c).

Definition all_operations (c : CRDT) : list Operation := _operations c.

Definition _record_operation (c : CRDT) (op : Operation) : CRDT :=
  {| node_id := node_id c;
     _operations := (_operations c ++ [op])%list;
     _version_vector :=
       VersionVector_update (_version_vector c) (op_node_id op) (op_timestamp op) |}.

Definition _has_seen (c : CRDT) (op : Operation) : bool :=
  existsb (fun existing => String.eqb (op_id existing) (op_id op)) (_operations c).

(** [[Operation.from_dict(op) for op in ops]]: the k-th element is decoded
    with the k-th reading of the clock. *)
Fixpoint from_dict_all (ops : list PyVal) (clock : nat -> Q) (k : nat)
  : Result (list Operation) :=
  match ops with
  | [] => Ok []
  | d :: rest =>
      do op <- Operation_from_dict d true (clock k);
      do ops' <- from_dict_all rest clock (S k);
      Ok (op :: ops')
  end.

(* ===================================================================== *)
(** ** crdt/register.py *)
(* ===================================================================== *)

(** [class TimestampedValue] *)
Record TimestampedValue : Type := mkTimestampedValue {
  tv_value : PyVal;
  tv_timestamp : Q;
  tv_node_id : string
}.

(** [TimestampedValue.__gt__] *)
Definition TimestampedValue_gt (self other : TimestampedValue) : bool :=
  if float_ne (tv_timestamp self) (tv_timestamp other)
  then float_gt (tv_timestamp self) (tv_timestamp other)
  else str_gt (tv_node_id self) (tv_node_id other).

(** [class LWWRegister] *)
Record LWWRegister : Type := mkLWWRegister {
  reg_base : CRDT;
  _current : TimestampedValue
}.

Definition LWWRegister_init (node : string) (initial_value : PyVal) : LWWRegister :=
  {| reg_base := CRDT_init node;
     _current := {| tv_value := initial_value; tv_timestamp := 0%Q;
                    tv_node_id := node |} |}.

(** [LWWRegister.apply] *)
Definition LWWRegister_apply (self : LWWRegister) (op : Operation)
  : Result (LWWRegister * bool) :=
  if _has_seen (reg_base self) op then Ok (self, false)
  else if negb (String.eqb (op_type op) "set") then Raise ValueError
  else
    let new_value := {| tv_value := op_value op;
                        tv_timestamp := op_timestamp op;
                        tv_node_id := op_node_id op |} in
    let current' := if TimestampedValue_gt new_value (_current self)
                    then new_value else _current self in
    Ok ({| reg_base := _record_operation (reg_base self) op;
           _current := current' |}, true).

Definition LWWRegister_value (self : LWWRegister) : PyVal :=
  tv_value (_current self).

(* ===================================================================== *)
(** ** crdt/map.py *)
(* ===================================================================== *)

Abbreviation Path := (list string) (only parsing).
Abbreviation Entry := (PyVal * Q * string)%type (only parsing).
Abbreviation Tombstone := (Q * string)%type (only parsing).

(** [class LWWMap] *)
Record LWWMap : Type := mkLWWMap {
  map_base : CRDT;
  _entries : list (Path * Entry);
  _tombstones : list (Path * Tombstone)
}.

(** [LWWMap._is_newer] *)
Definition _is_newer (ts1 : Q) (node1 : string) (ts2 : Q) (node2 : string) : bool :=
  if float_ne ts1 ts2 then float_gt ts1 ts2 else str_gt node1 node2.

(** The guarded store shared by [_apply_set] and [_flatten_set]. *)
Definition store_if_newer (entries : list (Path * Entry)) (path : Path)
    (value : PyVal) (timestamp : Q) (node : string) : list (Path * Entry) :=
  match od_get path entries with
  | None => od_set path (value, timestamp, node) entries
  | Some (_, ets, enode) =>
      if _is_newer timestamp node ets enode
      then od_set path (value, timestamp, node) entries
      else entries
  end.

(** [LWWMap._apply_set]; the inner loop is the body of [_flatten_set], whose
    recursive call on a nested dict is [_apply_set] on that dict. *)
Fixpoint _apply_set (entries : list (Path * Entry)) (path : Path)
    (value : PyVal) (timestamp : Q) (node : string) {struct value}
  : list (Path * Entry) :=
  match value with
  | VDict items =>
      (fix flatten (items : list (string * PyVal)) (entries : list (Path * Entry))
         : list (Path * Entry) :=
         match items with
         | [] => entries
         | (key, val) :: rest =>
             flatten rest (_apply_set entries (path ++ [key])%list val timestamp node)
         end) items entries
  | _ => store_if_newer entries path value timestamp node
  end.

(** [LWWMap._flatten_set] *)
Definition _flatten_set (entries : list (Path * Entry)) (path : Path)
    (value : list (string * PyVal)) (timestamp : Q) (node : string)
  : list (Path * Entry) :=
  fold_left (fun es kv => _apply_set es (path ++ [fst kv])%list (snd kv) timestamp node)
            value entries.

(** [LWWMap._init_from_value] *)
Fixpoint _init_from_value (entries : list (Path * Entry)) (node : string)
    (value : PyVal) (path : Path) {struct value} : list (Path * Entry) :=
  match value with
  | VDict items =>
      (fix each (items : list (string * PyVal)) (entries : list (Path * Entry))
         : list (Path * Entry) :=
         match items with
         | [] => entries
         | (key, val) :: rest =>
             each rest
               (match val with
                | VDict _ => _init_from_value entries node val (path ++ [key])%list
                | _ => od_set (path ++ [key])%list (val, 0%Q, node) entries
                end)
         end) items entries
  | _ => entries
  end.

(** Python truthiness of an argument of the declared type [dict | None]:
    [None] and the empty dict are false. A value of another type is outside
    the declared type (on a truthy one the code goes on to call [.items()]
    and raises [AttributeError]); it is read here as no initial value. *)
Definition truthy_dict (v : option PyVal) : option PyVal :=
  match v with
  | Some (VDict (_ :: _) as d) => Some d
  | _ => None
  end.

(** [LWWMap.__init__] *)
Definition LWWMap_init (node : string) (initial_value : option PyVal) : LWWMap :=
  {| map_base := CRDT_init node;
     _entries := match truthy_dict initial_value with
                 | Some d => _init_from_value [] node d []
                 | None => []
                 end;
     _tombstones := [] |}.

(** [LWWMap._apply_delete] *)
Definition _apply_delete (tombstones : list (Path * Tombstone)) (path : Path)
    (timestamp : Q) (node : string) : list (Path * Tombstone) :=
  match od_get path tombstones with
  | None => od_set path (timestamp, node) tombstones
  | Some (ets, enode) =>
      if _is_newer timestamp node ets enode
      then od_set path (timestamp, node) tombstones
      else tombstones
  end.

(** [LWWMap.apply] *)
Definition LWWMap_apply (self : LWWMap) (op : Operation) : Result (LWWMap * bool) :=
  if _has_seen (map_base self) op then Ok (self, false)
  else
    let path := op_path op in
    do self' <-
      (if String.eqb (op_type op) "set" then
         Ok {| map_base := map_base self;
               _entries := _apply_set (_entries self) path (op_value op)
                             (op_timestamp op) (op_node_id op);
               _tombstones := _tombstones self |}
       else if String.eqb (op_type op) "delete" then
         Ok {| map_base := map_base self;
               _entries := _entries self;
               _tombstones := _apply_delete (_tombstones self) path
                                (op_timestamp op) (op_node_id op) |}
       else Raise ValueError);
    Ok ({| map_base := _record_operation (map_base self') op;
           _entries := _entries self';
           _tombstones := _tombstones self' |}, true).

(** [LWWMap.set]: [uid] and [now] are what [Operation.create] draws. *)
Definition LWWMap_set (self : LWWMap) (uid : string) (now : Q)
    (path : Path) (value : PyVal) : Result (LWWMap * Operation) :=
  let op := Operation_create uid now (node_id (map_base self)) path "set" value in
  do '(self', _) <- LWWMap_apply self op;
  Ok (self', op).

(** [LWWMap.delete] *)
Definition LWWMap_delete (self : LWWMap) (uid : string) (now : Q)
    (path : Path) : Result (LWWMap * Operation) :=
  let op := Operation_create uid now (node_id (map_base self)) path "delete" VNone in
  do '(self', _) <- LWWMap_apply self op;
  Ok (self', op).

(** The inner loop of [LWWMap.value]: walk [path[:-1]] through [current],
    making (or replacing a non-dict by) an empty dict at each key, then
    assign the leaf. The dicts are updated in place in the source; here the
    updated child is put back at its key, which keeps the key's position. *)
Fixpoint set_nested (current : list (string * PyVal)) (path : Path)
    (value : PyVal) {struct path} : list (string * PyVal) :=
  match path with
  | [] => current
  | [leaf] => od_set leaf value current
  | key :: rest =>
      let child := match od_get key current with
                   | Some (VDict c) => c
                   | _ => []
                   end in
      od_set key (VDict (set_nested child rest value)) current
  end.

(** The tombstone test of [LWWMap.value]: [tombstone and tombstone[0] > ts]
    (a tuple of two items is always true as a condition). *)
Definition tombstoned (tombstones : list (Path * Tombstone)) (path : Path)
    (ts : Q) : bool :=
  match od_get path tombstones with
  | Some (tts, _) => float_gt tts ts
  | None => false
  end.

(** [LWWMap.value] *)
Definition LWWMap_value (self : LWWMap) : PyVal :=
  VDict
    (fold_left
       (fun result (item : Path * Entry) =>
          let '(path, (value, ts, _)) := item in
          if tombstoned (_tombstones self) path ts then result
          else set_nested result path value)
       (_entries self) []).

(** The state dictionary of [LWWMap.state]. *)
Record LWWMapState : Type := mkLWWMapState {
  st_entries : list (string * Entry);
  st_tombstones : list (string * Tombstone);
  st_operations : list PyVal
}.

(** A dict comprehension [{key(k): v for k, v in d.items()}]. *)
Definition dict_comprehension {K V : Type} (key : K -> string) (d : list (K * V))
  : list (string * V) :=
  fold_left (fun acc kv => od_set (key (fst kv)) (snd kv) acc) d [].

(** [LWWMap.state] *)
Definition LWWMap_state (self : LWWMap) : LWWMapState :=
  {| st_entries := dict_comprehension (str_join ".") (_entries self);
     st_tombstones := dict_comprehension (str_join ".") (_tombstones self);
     st_operations := map Operation_to_dict (_operations (map_base self)) |}.

(** [tuple(path_str.split(".")) if path_str else ()] *)
Definition path_of_str (path_str : string) : Path :=
  match path_str with
  | EmptyString => []
  | _ => str_split "." path_str
  end.

(** [LWWMap.from_state]; [clock k] is the k-th value [time.time()] returns
    during the call. *)
Definition LWWMap_from_state (node : string) (state : LWWMapState)
    (clock : nat -> Q) : Result LWWMap :=
  let entries :=
    fold_left (fun acc kv => od_set (path_of_str (fst kv)) (snd kv) acc)
              (st_entries state) [] in
  let tombstones :=
    fold_left (fun acc kv => od_set (path_of_str (fst kv)) (snd kv) acc)
              (st_tombstones state) [] in
  do ops <- from_dict_all (st_operations state) clock 0;
  Ok {| map_base := {| node_id := node; _operations := ops;
                       _version_vector := [] |};
        _entries := entries;
        _tombstones := tombstones |}.

(* ===================================================================== *)
(** ** crdt/set.py *)
(* ===================================================================== *)

(** A Python [set] is a duplicate-free list; the order of iteration of a
    real set is unspecified, and no result below depends on it. *)
Fixpoint pyset_mem {A : Type} `{EqDecision A} (x : A) (s : list A) : bool :=
  match s with
  | [] => false
  | y :: rest => if decide (x = y) then true else pyset_mem x rest
  end.

Definition pyset_add {A : Type} `{EqDecision A} (x : A) (s : list A) : list A :=
  if pyset_mem x s then s else (s ++ [x])%list.

(** Iterating a value with [for x in v]. *)
Definition iter_items (v : PyVal) : Result (list PyVal) :=
  match v with
  | VList l => Ok l
  | VStr s => Ok (map VStr (str_chars s))
  | VDict d => Ok (map (fun kv => VStr (fst kv)) d)
  | _ => Raise TypeError
  end.

(** [class ORSet] *)
Record ORSet : Type := mkORSet {
  set_base : CRDT;
  _elements : list (string * list (string * PyVal));
  _removed_tags : list PyVal
}.

Definition ORSet_init (node : string) : ORSet :=
  {| set_base := CRDT_init node; _elements := []; _removed_tags := [] |}.

Section ORSetOps.
(** [_hash_value]: the first 16 hex digits of the SHA-256 of the sorted-key
    JSON text of the value. The digest is not modelled; it is a parameter. *)
Variable _hash_value : PyVal -> string.

(** [ORSet._apply_add]: putting [(tag, value)] in a set hashes [value]. *)
Definition ORSet_apply_add (self : ORSet) (op : Operation) : Result ORSet :=
  let value := op_value op in
  let value_hash := _hash_value value in
  let tag := op_id op in
  let group := match od_get value_hash (_elements self) with
               | Some g => g
               | None => []
               end in
  if hashable value then
    Ok {| set_base := set_base self;
          _elements := od_set value_hash (pyset_add (tag, value) group)
                              (_elements self);
          _removed_tags := _removed_tags self |}
  else Raise TypeError.

(** The loop of [ORSet._apply_remove]. *)
Fixpoint add_tags (tags : list PyVal) (removed : list PyVal) : Result (list PyVal) :=
  match tags with
  | [] => Ok removed
  | tag :: rest =>
      if hashable tag then add_tags rest (pyset_add tag removed)
      else Raise TypeError
  end.

(** [op.value.get("tags", [])] *)
Definition remove_tags_of (value : PyVal) : Result PyVal :=
  match value with
  | VDict d => Ok (match od_get "tags" d with
                   | Some t => t
                   | None => VList []
                   end)
  | _ => Raise AttributeError
  end.

(** [ORSet._apply_remove] *)
Definition ORSet_apply_remove (self : ORSet) (op : Operation) : Result ORSet :=
  do tags_v <- remove_tags_of (op_value op);
  do tags <- iter_items tags_v;
  do removed <- add_tags tags (_removed_tags self);
  Ok {| set_base := set_base self;
        _elements := _elements self;
        _removed_tags := removed |}.

(** [ORSet.apply] *)
Definition ORSet_apply (self : ORSet) (op : Operation) : Result (ORSet * bool) :=
  if _has_seen (set_base self) op then Ok (self, false)
  else
    do self' <-
      (if String.eqb (op_type op) "add" then ORSet_apply_add self op
       else if String.eqb (op_type op) "remove" then ORSet_apply_remove self op
       else Raise ValueError);
    Ok ({| set_base := _record_operation (set_base self') op;
           _elements := _elements self';
           _removed_tags := _removed_tags self' |}, true).

(** [ORSet.add] *)
Definition ORSet_add (self : ORSet) (uid : string) (now : Q) (value : PyVal)
  : Result (ORSet * Operation) :=
  let op := Operation_create uid now (node_id (set_base self)) [] "add" value in
  do '(self', _) <- ORSet_apply self op;
  Ok (self', op).

(** The tags [ORSet.remove] observes for a value. *)
Definition observed_tags (self : ORSet) (value : PyVal) : list string :=
  match od_get (_hash_value value) (_elements self) with
  | Some group =>
      map fst (List.filter (fun tv => negb (pyset_mem (VStr (fst tv)) (_removed_tags self)))
                      group)
  | None => []
  end.

(** [ORSet.remove] *)
Definition ORSet_remove (self : ORSet) (uid : string) (now : Q) (value : PyVal)
  : Result (ORSet * Operation) :=
  let payload := VDict [("element", value);
                        ("tags", VList (map VStr (observed_tags self value)))] in
  let op := Operation_create uid now (node_id (set_base self)) [] "remove" payload in
  do '(self', _) <- ORSet_apply self op;
  Ok (self', op).

(** The inner loop of [ORSet.value]: the first pair whose tag is not
    removed, at which the loop breaks. *)
Definition first_surviving (removed : list PyVal) (group : list (string * PyVal))
  : option PyVal :=
  match find (fun tv => negb (pyset_mem (VStr (fst tv)) removed)) group with
  | Some (_, val) => Some val
  | None => None
  end.

(** One group of [ORSet.value]: [result.add(val)], and in the handler of
    its [TypeError] a second [result.add(val)] unless [val] is found in the
    result by [==]. *)
Definition value_step (removed : list PyVal) (result : list PyVal)
    (group : list (string * PyVal)) : Result (list PyVal) :=
  match first_surviving removed group with
  | None => Ok result
  | Some val =>
      if hashable val then Ok (pyset_add val result)
      else if pyset_mem val result then Ok result
      else Raise TypeError
  end.

Fixpoint value_loop (removed : list PyVal) (result : list PyVal)
    (groups : list (string * list (string * PyVal))) : Result (list PyVal) :=
  match groups with
  | [] => Ok result
  | (_, group) :: rest =>
      do result' <- value_step removed result group;
      value_loop removed result' rest
  end.

(** [ORSet.value] *)
Definition ORSet_value (self : ORSet) : Result (list PyVal) :=
  value_loop (_removed_tags self) [] (_elements self).

(** [ORSet.contains] *)
Definition ORSet_contains (self : ORSet) (value : PyVal) : bool :=
  match od_get (_hash_value value) (_elements self) with
  | None => false
  | Some group =>
      existsb (fun tv => negb (pyset_mem (VStr (fst tv)) (_removed_tags self))) group
  end.

(** Applying a list of operations in order, stopping at the first
    exception. *)
Fixpoint ORSet_apply_all (self : ORSet) (ops : list Operation) : Result ORSet :=
  match ops with
  | [] => Ok self
  | op :: rest =>
      do '(self', _) <- ORSet_apply self op;
      ORSet_apply_all self' rest
  end.
End ORSetOps.

(** Applying a list of operations to a map or a register, in order. *)
Fixpoint LWWMap_apply_all (self : LWWMap) (ops : list Operation) : Result LWWMap :=
  match ops with
  | [] => Ok self
  | op :: rest =>
      do '(self', _) <- LWWMap_apply self op;
      LWWMap_apply_all self' rest
  end.

(* ===================================================================== *)
(** ** server.py: the two rate limiters *)
(* ===================================================================== *)

Definition MAX_MESSAGE_SIZE : Z := 1024 * 1024.
Definition DEFAULT_RATE_LIMIT : Q := 100.
Definition DEFAULT_RATE_WINDOW : Q := 1.
Definition MAX_CONNECTIONS_PER_USER : Z := 10.
Definition MAX_AUTH_ATTEMPTS : Z := 5.
Definition AUTH_LOCKOUT_SECONDS : Q := 300.

(** [min(a, b)]: Python returns the first of two equal items. *)
Definition float_min (a b : Q) : Q := if float_lt b a then b else a.

(** [class RateLimiter] *)
Record RateLimiter : Type := mkRateLimiter {
  rate : Q;
  window : Q;
  _tokens : gmap Z Q;
  _last_update : gmap Z Q
}.

Definition RateLimiter_init (rate window : Q) : RateLimiter :=
  {| rate := rate; window := window; _tokens := ∅; _last_update := ∅ |}.

(** [RateLimiter.is_allowed]. [now] is the value of [time.time()] on the
    first line; [now_default] is what the default factory of [_last_update]
    (again [time.time]) returns when the channel has no entry yet. *)
Definition RateLimiter_is_allowed (self : RateLimiter) (ws_id : Z)
    (now now_default : Q) : Result (RateLimiter * bool) :=
  let last := match _last_update self !! ws_id with
              | Some t => t
              | None => now_default
              end in
  let elapsed := (now - last)%Q in
  let last_update' := <[ws_id := now]> (_last_update self) in
  let tokens := match _tokens self !! ws_id with
                | Some t => t
                | None => rate self
                end in
  if Qeq_bool (window self) 0 then Raise ZeroDivisionError
  else
    let refilled :=
      float_min (rate self) (tokens + elapsed * (rate self / window self))%Q in
    if float_ge refilled 1 then
      Ok ({| rate := rate self; window := window self;
             _tokens := <[ws_id := (refilled - 1)%Q]> (_tokens self);
             _last_update := last_update' |}, true)
    else
      Ok ({| rate := rate self; window := window self;
             _tokens := <[ws_id := refilled]> (_tokens self);
             _last_update := last_update' |}, false).

(** [RateLimiter.cleanup] *)
Definition RateLimiter_cleanup (self : RateLimiter) (ws_id : Z) : RateLimiter :=
  {| rate := rate self; window := window self;
     _tokens := delete ws_id (_tokens self);
     _last_update := delete ws_id (_last_update self) |}.

(** [class AuthRateLimiter] *)
Record AuthRateLimiter : Type := mkAuthRateLimiter {
  _max_attempts : Z;
  _lockout_seconds : Q;
  _attempts : gmap Z Z;
  _lockout_until : gmap Z Q
}.

Definition AuthRateLimiter_init (max_attempts : Z) (lockout_seconds : Q)
  : AuthRateLimiter :=
  {| _max_attempts := max_attempts; _lockout_seconds := lockout_seconds;
     _attempts := ∅; _lockout_until := ∅ |}.

(** Reading [self._attempts[ws_id]] from the [defaultdict(int)]. *)
Definition attempts_of (attempts : gmap Z Z) (ws_id : Z) : Z :=
  match attempts !! ws_id with Some n => n | None => 0%Z end.

(** [AuthRateLimiter.is_allowed]; reading a missing key of the defaultdict
    stores the default. *)
Definition AuthRateLimiter_is_allowed (self : AuthRateLimiter) (ws_id : Z)
    (now : Q) : AuthRateLimiter * bool :=
  match _lockout_until self !! ws_id with
  | Some until =>
      if float_lt now until then (self, false)
      else
        ({| _max_attempts := _max_attempts self;
            _lockout_seconds := _lockout_seconds self;
            _attempts := <[ws_id := 0%Z]> (_attempts self);
            _lockout_until := delete ws_id (_lockout_until self) |},
         (0 <? _max_attempts self)%Z)
  | None =>
      let n := attempts_of (_attempts self) ws_id in
      ({| _max_attempts := _max_attempts self;
          _lockout_seconds := _lockout_seconds self;
          _attempts := <[ws_id := n]> (_attempts self);
          _lockout_until := _lockout_until self |},
       (n <? _max_attempts self)%Z)
  end.

(** [AuthRateLimiter.record_failure]; [now] is read only when the lockout
    starts. *)
Definition AuthRateLimiter_record_failure (self : AuthRateLimiter) (ws_id : Z)
    (now : Q) : AuthRateLimiter :=
  let n := (attempts_of (_attempts self) ws_id + 1)%Z in
  {| _max_attempts := _max_attempts self;
     _lockout_seconds := _lockout_seconds self;
     _attempts := <[ws_id := n]> (_attempts self);
     _lockout_until :=
       if (_max_attempts self <=? n)%Z
       then <[ws_id := (now + _lockout_seconds self)%Q]> (_lockout_until self)
       else _lockout_until self |}.

(** [AuthRateLimiter.record_success] *)
Definition AuthRateLimiter_record_success (self : AuthRateLimiter) (ws_id : Z)
  : AuthRateLimiter :=
  {| _max_attempts := _max_attempts self;
     _lockout_seconds := _lockout_seconds self;
     _attempts := delete ws_id (_attempts self);
     _lockout_until := delete ws_id (_lockout_until self) |}.

(** [AuthRateLimiter.cleanup] *)
Definition AuthRateLimiter_cleanup (self : AuthRateLimiter) (ws_id : Z)
  : AuthRateLimiter :=
  AuthRateLimiter_record_success self ws_id.

(* ===================================================================== *)
(** ** protocol.py: the messages the handlers below use *)
(* ===================================================================== *)

Inductive ErrorCode : Type :=
| AUTHENTICATION_FAILED
| PERMISSION_DENIED
| ROOM_NOT_FOUND
| INVALID_MESSAGE
| INVALID_OPERATION
| FUNCTION_NOT_FOUND
| FUNCTION_ERROR
| INTERNAL_ERROR
| RATE_LIMITED.

Inductive Permission : Type := READ | WRITE | DELETE | ADMIN | CALL | PRESENCE.

(** [protocol.User] and [auth.AuthUser]: [authenticated] tells the two
    classes apart ([isinstance(user, AuthUser)]). *)
Record User : Type := mkUser {
  user_id : string;
  user_name : string;
  authenticated : bool
}.

Inductive ServerMessage : Type :=
| ErrorMessage (code : ErrorCode) (message : string)
| OperationBroadcast (room_id user_id : string) (operation : PyVal)
| AuthenticatedMessage (user_id : string).

Record OperationMessage : Type := mkOperationMessage {
  om_room_id : string;
  om_operation : PyVal
}.

Record StateUpdateMessage : Type := mkStateUpdateMessage {
  su_room_id : string;
  su_path : option string;
  su_value : PyVal
}.

Record AuthMessage : Type := mkAuthMessage { am_token : string }.

(** What a handler does to the outside: frames sent, calls of the
    authentication provider, snapshots written, callbacks awaited. *)
Inductive Effect : Type :=
| Send (ws : Z) (m : ServerMessage)
| ValidateToken (token : string)
| StorageSave (key : string) (state : PyVal) (operations : list PyVal)
| RoomCreatedCallback (callback : nat) (room_id : string).

(* ===================================================================== *)
(** ** room.py *)
(* ===================================================================== *)

(** [class RegisteredFunction]; the handler itself is opaque. *)
Record RegisteredFunction : Type := mkRegisteredFunction {
  rf_name : string;
  rf_func : nat;
  rf_requires_auth : bool;
  rf_required_permissions : list string
}.

(** [class Room] *)
Record Room : Type := mkRoom {
  room_id : string;
  room_node_id : string;
  _state : LWWMap;
  _connections : list (string * (User * Z));
  _functions : list (string * RegisteredFunction);
  _created_at : Q;
  _metadata : list (string * PyVal)
}.

(** [Room.__init__] with [node_id=None]. *)
Definition Room_init (room_id : string) (initial_state : option PyVal) : Room :=
  let node := "server-" ++ room_id in
  {| room_id := room_id; room_node_id := node;
     _state := LWWMap_init node initial_state;
     _connections := []; _functions := [];
     _created_at := 0%Q; _metadata := [] |}.

Definition Room_with_state (r : Room) (st : LWWMap) : Room :=
  {| room_id := room_id r; room_node_id := room_node_id r; _state := st;
     _connections := _connections r; _functions := _functions r;
     _created_at := _created_at r; _metadata := _metadata r |}.

(** [Room.value] *)
Definition Room_value (r : Room) : PyVal := LWWMap_value (_state r).

(** [Room.is_empty] *)
Definition Room_is_empty (r : Room) : bool :=
  match _connections r with [] => true | _ => false end.

(** [Room.set_metadata] *)
Definition Room_set_metadata (r : Room) (key : string) (value : PyVal) : Room :=
  {| room_id := room_id r; room_node_id := room_node_id r; _state := _state r;
     _connections := _connections r; _functions := _functions r;
     _created_at := _created_at r;
     _metadata := od_set key value (_metadata r) |}.

(** [Room.register_function] *)
Definition Room_register_function (r : Room) (f : RegisteredFunction) : Room :=
  {| room_id := room_id r; room_node_id := room_node_id r; _state := _state r;
     _connections := _connections r;
     _functions := od_set (rf_name f) f (_functions r);
     _created_at := _created_at r; _metadata := _metadata r |}.

(** [Room.apply_operation] *)
Definition Room_apply_operation (r : Room) (op : Operation) : Result (Room * bool) :=
  do '(st, applied) <- LWWMap_apply (_state r) op;
  Ok (Room_with_state r st, applied).

(** [Room.get_all_operations] *)
Definition Room_get_all_operations (r : Room) : list Operation :=
  all_operations (map_base (_state r)).

(** [Room.broadcast]. [alive ws] tells whether [send_json] on that socket
    returns; a member whose send raised is removed after the fan-out. *)
Definition Room_broadcast (r : Room) (alive : Z -> bool) (message : ServerMessage)
    (exclude_user : option string) (exclude_ws : option Z) : Room * list Effect :=
  let targets :=
    List.filter (fun c : string * (User * Z) =>
              negb (match exclude_user with
                    | Some u => String.eqb (fst c) u
                    | None => false
                    end)
              && negb (match exclude_ws with
                       | Some w => Z.eqb (snd (snd c)) w
                       | None => false
                       end))
           (_connections r) in
  let failed := List.filter (fun c : string * (User * Z) => negb (alive (snd (snd c)))) targets in
  let sent := map (fun c : string * (User * Z) => Send (snd (snd c)) message)
                  (List.filter (fun c : string * (User * Z) => alive (snd (snd c))) targets) in
  ({| room_id := room_id r; room_node_id := room_node_id r; _state := _state r;
      _connections :=
        List.filter (fun c : string * (User * Z) =>
                  negb (existsb (fun f : string * (User * Z) => String.eqb (fst f) (fst c)) failed))
               (_connections r);
      _functions := _functions r;
      _created_at := _created_at r; _metadata := _metadata r |},
   sent).

(** [class RoomManager] *)
Record RoomManager : Type := mkRoomManager {
  _rooms : gmap string Room;
  _global_functions : list (string * RegisteredFunction);
  _on_room_created : list nat;
  _on_room_deleted : list nat
}.

Definition RoomManager_init : RoomManager :=
  {| _rooms := ∅; _global_functions := [];
     _on_room_created := []; _on_room_deleted := [] |}.

Definition RoomManager_with_rooms (m : RoomManager) (rooms : gmap string Room)
  : RoomManager :=
  {| _rooms := rooms; _global_functions := _global_functions m;
     _on_room_created := _on_room_created m;
     _on_room_deleted := _on_room_deleted m |}.

(** [room_id or str(uuid.uuid4())]: [None] and the empty string both take
    the generated id. *)
Definition room_id_or_uuid (room_id : option string) (uid : string) : string :=
  match room_id with
  | Some EmptyString => uid
  | Some s => s
  | None => uid
  end.

(** [if metadata: for key, value in metadata.items(): room.set_metadata] *)
Definition apply_metadata (r : Room) (metadata : option (list (string * PyVal)))
  : Room :=
  match metadata with
  | Some items => fold_left (fun r kv => Room_set_metadata r (fst kv) (snd kv)) items r
  | None => r
  end.

(** [RoomManager.create_room]; [uid] is the UUID drawn when no id is given.
    The result is the manager, the room returned and the callbacks awaited. *)
Definition RoomManager_create_room (self : RoomManager) (uid : string)
    (room_id : option string) (initial_state : option PyVal)
    (metadata : option (list (string * PyVal)))
  : RoomManager * Room * list Effect :=
  let rid := room_id_or_uuid room_id uid in
  match _rooms self !! rid with
  | Some existing => (self, existing, [])
  | None =>
      let room0 := Room_init rid initial_state in
      let room1 := fold_left (fun r nf => Room_register_function r (snd nf))
                             (_global_functions self) room0 in
      let room := apply_metadata room1 metadata in
      (RoomManager_with_rooms self (<[rid := room]> (_rooms self)),
       room,
       map (fun cb => RoomCreatedCallback cb rid) (_on_room_created self))
  end.

(** [RoomManager.get_room] *)
Definition RoomManager_get_room (self : RoomManager) (room_id : string)
  : option Room :=
  _rooms self !! room_id.

(** [RoomManager.delete_room] (the deletion callbacks are left out of the
    result). *)
Definition RoomManager_delete_room (self : RoomManager) (room_id : string)
  : RoomManager * bool :=
  match _rooms self !! room_id with
  | None => (self, false)
  | Some _ => (RoomManager_with_rooms self (delete room_id (_rooms self)), true)
  end.

(** [RoomManager.register_function] *)
Definition RoomManager_register_function (self : RoomManager)
    (f : RegisteredFunction) : RoomManager :=
  {| _rooms := (fun r => Room_register_function r f) <$> _rooms self;
     _global_functions := od_set (rf_name f) f (_global_functions self);
     _on_room_created := _on_room_created self;
     _on_room_deleted := _on_room_deleted self |}.

(** [RoomManager.cleanup_empty_rooms] *)
Definition RoomManager_cleanup_empty_rooms (self : RoomManager) : RoomManager :=
  RoomManager_with_rooms self
    (filter (fun kv : string * Room => negb (Room_is_empty (snd kv)))
            (_rooms self)).

(** [RoomManager.on_room_created] *)
Definition RoomManager_on_room_created (self : RoomManager) (callback : nat)
  : RoomManager :=
  {| _rooms := _rooms self; _global_functions := _global_functions self;
     _on_room_created := (_on_room_created self ++ [callback])%list;
     _on_room_deleted := _on_room_deleted self |}.

(** [RoomManager.broadcast_operation] *)
Definition RoomManager_broadcast_operation (self : RoomManager) (alive : Z -> bool)
    (room_id : string) (operation : Operation) (sender_id : string)
    (exclude_sender : bool) : RoomManager * list Effect :=
  match _rooms self !! room_id with
  | None => (self, [])
  | Some room =>
      let message := OperationBroadcast room_id sender_id (Operation_to_dict operation) in
      let '(room', effects) :=
        Room_broadcast room alive message
          (if exclude_sender then Some sender_id else None) None in
      (RoomManager_with_rooms self (<[room_id := room']> (_rooms self)), effects)
  end.

(* ===================================================================== *)
(** ** server.py: the handlers *)
(* ===================================================================== *)

(** [class CollabkitServer]: the attributes the handlers below read or
    write. The authentication provider and the permission manager are
    functions; the storage backend is only told apart from [None]. *)
Record CollabkitServer : Type := mkCollabkitServer {
  _auth : option (string -> option User);
  _permissions : option (string -> string -> Permission -> bool);
  _storage : bool;
  srv_rooms : RoomManager;
  _save_on_operation : bool;
  _max_connections_per_user : Z;
  _auth_rate_limiter : AuthRateLimiter;
  _ws_users : gmap Z User;
  _user_connections : gmap string (list Z)
}.

Definition server_with_rooms (s : CollabkitServer) (rooms : RoomManager)
  : CollabkitServer :=
  {| _auth := _auth s; _permissions := _permissions s; _storage := _storage s;
     srv_rooms := rooms; _save_on_operation := _save_on_operation s;
     _max_connections_per_user := _max_connections_per_user s;
     _auth_rate_limiter := _auth_rate_limiter s;
     _ws_users := _ws_users s; _user_connections := _user_connections s |}.

Definition server_with_limiter (s : CollabkitServer) (l : AuthRateLimiter)
  : CollabkitServer :=
  {| _auth := _auth s; _permissions := _permissions s; _storage := _storage s;
     srv_rooms := srv_rooms s; _save_on_operation := _save_on_operation s;
     _max_connections_per_user := _max_connections_per_user s;
     _auth_rate_limiter := l;
     _ws_users := _ws_users s; _user_connections := _user_connections s |}.

(** [self._permissions and not self._permissions.check_permission(...)] *)
Definition permission_denied (s : CollabkitServer) (user room : string)
    (p : Permission) : bool :=
  match _permissions s with
  | Some check => negb (check user room p)
  | None => false
  end.

(** The snapshot written by [self._storage.save("room:" + id, ...)]. *)
Definition save_room (room_id : string) (room : Room) : Effect :=
  StorageSave ("room:" ++ room_id) (Room_value room)
              (map Operation_to_dict (Room_get_all_operations room)).

(** The body of the [try] of [_handle_operation]. *)
Definition handle_operation_try (s : CollabkitServer) (alive : Z -> bool)
    (room : Room) (user : string) (message : OperationMessage) (now : Q)
  : Result (CollabkitServer * list Effect) :=
  let room_id := om_room_id message in
  do operation <- Operation_from_dict (om_operation message) true now;
  do '(room', applied) <- Room_apply_operation room operation;
  let rooms1 := RoomManager_with_rooms (srv_rooms s)
                  (<[room_id := room']> (_rooms (srv_rooms s))) in
  if applied then
    let '(rooms2, sent) :=
      RoomManager_broadcast_operation rooms1 alive room_id operation user true in
    let saved :=
      if _save_on_operation s && _storage s then
        match _rooms rooms2 !! room_id with
        | Some r => [save_room room_id r]
        | None => []
        end
      else [] in
    Ok (server_with_rooms s rooms2, (sent ++ saved)%list)
  else Ok (server_with_rooms s rooms1, []).

(** [CollabkitServer._handle_operation]; [now] is the clock value read by
    [Operation.from_dict]. The decoder reads the fields at their declared
    types: a message whose operation is not [operation_well_typed] (a number
    as [id], say) is carried along by the code unchecked and is outside the
    embedding; here it ends as a decoding error. *)
Definition _handle_operation (s : CollabkitServer) (alive : Z -> bool) (ws : Z)
    (message : OperationMessage) (now : Q) : CollabkitServer * list Effect :=
  let room_id := om_room_id message in
  match _ws_users s !! ws with
  | None => (s, [Send ws (ErrorMessage AUTHENTICATION_FAILED "Not authenticated.")])
  | Some user =>
      if permission_denied s (user_id user) room_id WRITE then
        (s, [Send ws (ErrorMessage PERMISSION_DENIED "Permission denied to write.")])
      else
        match RoomManager_get_room (srv_rooms s) room_id with
        | None =>
            (s, [Send ws (ErrorMessage ROOM_NOT_FOUND
                            ("Room '" ++ room_id ++ "' not found."))])
        | Some room =>
            match handle_operation_try s alive room (user_id user) message now with
            | Ok r => r
            | Raise _ =>
                (s, [Send ws (ErrorMessage INVALID_OPERATION "Invalid operation.")])
            end
        end
  end.

(** Binding the positional arguments of a call to the parameters of the
    method (after [self]): too many or too few raise [TypeError]. *)
Definition bind_positional (params : list string) (args : list PyVal)
  : Result (list (string * PyVal)) :=
  if (length params <? length args)%nat then Raise TypeError
  else if (length args <? length params)%nat then Raise TypeError
  else Ok (combine params args).

(** The parameters of [def set(self, path, value)]. *)
Definition LWWMap_set_params : list string := ["path"; "value"].

(** A call of [LWWMap.set] with the positional arguments [args]. *)
Definition call_LWWMap_set (self : LWWMap) (uid : string) (now : Q)
    (args : list PyVal) : Result (LWWMap * Operation) :=
  do bound <- bind_positional LWWMap_set_params args;
  match bound with
  | [(_, path_v); (_, value)] =>
      do path <- as_path path_v;
      LWWMap_set self uid now path value
  | _ => Raise TypeError
  end.

(** [message.path.split(".") if message.path else []] *)
Definition state_update_path (path : option string) : list string :=
  match path with
  | None => []
  | Some EmptyString => []
  | Some p => str_split "." p
  end.

(** [CollabkitServer._handle_state_update]; an exception leaves the handler
    (the caller [_handle_connection] answers it with [INTERNAL_ERROR] and
    closes the connection). *)
Definition _handle_state_update (s : CollabkitServer) (alive : Z -> bool) (ws : Z)
    (message : StateUpdateMessage) (uid : string) (now : Q)
  : Result (CollabkitServer * list Effect) :=
  let room_id := su_room_id message in
  match _ws_users s !! ws with
  | None =>
      Ok (s, [Send ws (ErrorMessage AUTHENTICATION_FAILED "Not authenticated.")])
  | Some user =>
      if permission_denied s (user_id user) room_id WRITE then
        Ok (s, [Send ws (ErrorMessage PERMISSION_DENIED "Permission denied to write.")])
      else
        match RoomManager_get_room (srv_rooms s) room_id with
        | None =>
            Ok (s, [Send ws (ErrorMessage ROOM_NOT_FOUND
                               ("Room '" ++ room_id ++ "' not found."))])
        | Some room =>
            let path := state_update_path (su_path message) in
            do '(st, operation) <-
              call_LWWMap_set (_state room) uid now
                [VList (map VStr path); su_value message; VStr (user_id user)];
            let room1 := Room_with_state room st in
            let broadcast :=
              OperationBroadcast room_id (user_id user) (Operation_to_dict operation) in
            let '(room2, sent) := Room_broadcast room1 alive broadcast None (Some ws) in
            let saved := if _storage s then [save_room room_id room2] else [] in
            Ok (server_with_rooms s
                  (RoomManager_with_rooms (srv_rooms s)
                     (<[room_id := room2]> (_rooms (srv_rooms s)))),
                (sent ++ saved)%list)
        end
  end.

(** [self._user_connections[user_id]] on the [defaultdict(set)]; the read
    stores the empty set under a missing key. *)
Definition connections_of (s : CollabkitServer) (user : string) : list Z :=
  match _user_connections s !! user with Some l => l | None => [] end.

(** [CollabkitServer._handle_auth]. [now_check] is the clock value read by
    [is_allowed], [now_fail] the one read by [record_failure]. *)
Definition _handle_auth (s : CollabkitServer) (ws : Z) (message : AuthMessage)
    (now_check now_fail : Q) : CollabkitServer * list Effect :=
  match _auth s with
  | None =>
      (s, [Send ws (ErrorMessage AUTHENTICATION_FAILED "Authentication not configured.")])
  | Some validate_token =>
      let '(limiter, allowed) :=
        AuthRateLimiter_is_allowed (_auth_rate_limiter s) ws now_check in
      if negb allowed then
        (server_with_limiter s limiter,
         [Send ws (ErrorMessage RATE_LIMITED "Too many auth attempts. Try again later.")])
      else
        match validate_token (am_token message) with
        | Some user =>
            let limiter' := AuthRateLimiter_record_success limiter ws in
            let s1 := server_with_limiter s limiter' in
            let uid := user_id user in
            if (_max_connections_per_user s <=? Z.of_nat (length (connections_of s uid)))%Z
            then
              ({| _auth := _auth s1; _permissions := _permissions s1;
                  _storage := _storage s1; srv_rooms := srv_rooms s1;
                  _save_on_operation := _save_on_operation s1;
                  _max_connections_per_user := _max_connections_per_user s1;
                  _auth_rate_limiter := _auth_rate_limiter s1;
                  _ws_users := _ws_users s1;
                  _user_connections :=
                    <[uid := connections_of s uid]> (_user_connections s1) |},
               [ValidateToken (am_token message);
                Send ws (ErrorMessage RATE_LIMITED "Too many connections.")])
            else
              ({| _auth := _auth s1; _permissions := _permissions s1;
                  _storage := _storage s1; srv_rooms := srv_rooms s1;
                  _save_on_operation := _save_on_operation s1;
                  _max_connections_per_user := _max_connections_per_user s1;
                  _auth_rate_limiter := _auth_rate_limiter s1;
                  _ws_users := <[ws := user]> (_ws_users s1);
                  _user_connections :=
                    <[uid := pyset_add ws (connections_of s uid)]>
                      (_user_connections s1) |},
               [ValidateToken (am_token message);
                Send ws (AuthenticatedMessage uid)])
        | None =>
            (server_with_limiter s (AuthRateLimiter_record_failure limiter ws now_fail),
             [ValidateToken (am_token message);
              Send ws (ErrorMessage AUTHENTICATION_FAILED "Invalid authentication token.")])
        end
  end.

(* ===================================================================== *)
(** ** The statements of the specification, in its own words *)
(* ===================================================================== *)

(** "[(ts1, origin1) > (ts2, origin2)] iff [ts1 > ts2], else
    [origin1 > origin2] as strings". *)
Definition lex_greater (ts1 : Q) (origin1 : string) (ts2 : Q) (origin2 : string)
  : Prop :=
  (ts2 < ts1)%Q \/ ((ts1 == ts2)%Q /\ String.compare origin1 origin2 = Gt).

(** "[(ts, origin)] of the tombstone is >= the entry's". *)
Definition lex_greater_eq (ts1 : Q) (origin1 : string) (ts2 : Q) (origin2 : string)
  : Prop :=
  lex_greater ts1 origin1 ts2 origin2 \/ ((ts1 == ts2)%Q /\ origin1 = origin2).

(** [p] equals or is a prefix of [q]. *)
Definition path_prefix (p q : Path) : Prop := exists rest, q = (p ++ rest)%list.

(** The hiding rule as the specification words it: some tombstone whose path
    equals or is a prefix of the entry's path is at least as new as the
    entry. *)
Definition spec_hidden (tombstones : list (Path * Tombstone)) (path : Path)
    (ts : Q) (origin : string) : Prop :=
  exists tpath tts torigin,
    od_get tpath tombstones = Some (tts, torigin) /\
    path_prefix tpath path /\
    lex_greater_eq tts torigin ts origin.

(** Reading a nested dictionary along a path. *)
Fixpoint value_at (v : PyVal) (path : Path) : option PyVal :=
  match path with
  | [] => Some v
  | key :: rest =>
      match v with
      | VDict d => match od_get key d with
                   | Some child => value_at child rest
                   | None => None
                   end
      | _ => None
      end
  end.

(** The entries [LWWMap.value] does not skip. *)
Definition live_entries (self : LWWMap) : list (Path * Entry) :=
  List.filter (fun item : Path * Entry =>
                 negb (tombstoned (_tombstones self) (fst item) (snd (fst (snd item)))))
              (_entries self).

(** States of a map reached from a fresh one by applying operations. *)
Inductive map_reachable : LWWMap -> Prop :=
| map_reach_init node initial : map_reachable (LWWMap_init node initial)
| map_reach_apply m op m' b :
    map_reachable m -> LWWMap_apply m op = Ok (m', b) -> map_reachable m'.

(** Managers reached from a fresh one by the public methods; a generated
    room id is the 36-character text of a UUID. *)
Inductive manager_reachable : RoomManager -> Prop :=
| mgr_init : manager_reachable RoomManager_init
| mgr_create m uid rid initial metadata :
    manager_reachable m -> String.length uid = 36%nat ->
    manager_reachable (fst (fst (RoomManager_create_room m uid rid initial metadata)))
| mgr_delete m rid :
    manager_reachable m -> manager_reachable (fst (RoomManager_delete_room m rid))
| mgr_register m f :
    manager_reachable m -> manager_reachable (RoomManager_register_function m f)
| mgr_cleanup m :
    manager_reachable m -> manager_reachable (RoomManager_cleanup_empty_rooms m)
| mgr_on_created m cb :
    manager_reachable m -> manager_reachable (RoomManager_on_room_created m cb)
| mgr_room_update m rid r r' :
    manager_reachable m -> _rooms m !! rid = Some r ->
    manager_reachable (RoomManager_with_rooms m (<[rid := r']> (_rooms m))).

(** One authentication attempt on a channel: the token and the two clock
    readings of the handler. *)
Record AuthAttempt : Type := mkAuthAttempt {
  at_token : string;
  at_now_check : Q;
  at_now_fail : Q
}.


(** The calls of the provider among the effects. *)
Definition provider_calls (effects : list Effect) : nat :=
  length (List.filter (fun e => match e with ValidateToken _ => true | _ => false end)
                      effects).

(** A run of [RateLimiter.is_allowed] on one channel at the given clock
    readings (each with the reading of the default factory); the result is
    the limiter and the number of frames accepted. *)
Fixpoint run_limiter (l : RateLimiter) (ws : Z) (times : list (Q * Q))
  : Result (RateLimiter * nat) :=
  match times with
  | [] => Ok (l, 0%nat)
  | (now, now_default) :: rest =>
      do '(l1, ok) <- RateLimiter_is_allowed l ws now now_default;
      do '(l2, n) <- run_limiter l1 ws rest;
      Ok (l2, ((if ok then 1 else 0) + n)%nat)
  end.

(* ===================================================================== *)
(** ** Sample runs *)
(* ===================================================================== *)

Definition sample_map : LWWMap := LWWMap_init "n" None.

(** [set ["a","b"] := 1] at time 1, then [delete ["a"]] at time 2. *)
Definition ops_delete_parent : list Operation :=
  [ mkOperation "op-1" 1 "n" ["a"; "b"] "set" (VInt 1);
    mkOperation "op-2" 2 "n" ["a"] "delete" VNone ].

(** [set ["a"] := 1] and [delete ["a"]], both at time 1 and by one origin. *)
Definition ops_delete_same_stamp : list Operation :=
  [ mkOperation "op-1" 1 "n" ["a"] "set" (VInt 1);
    mkOperation "op-2" 1 "n" ["a"] "delete" VNone ].

(** [set ["a","b"] := 1], then [set ["a"] := 2]. *)
Definition ops_child_then_scalar : list Operation :=
  [ mkOperation "op-1" 1 "n" ["a"; "b"] "set" (VInt 1);
    mkOperation "op-2" 2 "n" ["a"] "set" (VInt 2) ].

(** The same two operations in the other order. *)
Definition ops_scalar_then_child : list Operation :=
  [ mkOperation "op-2" 2 "n" ["a"] "set" (VInt 2);
    mkOperation "op-1" 1 "n" ["a"; "b"] "set" (VInt 1) ].

(** A register and a map that hold a value written at time 1 by "a", and a
    set operation stamped with the same time by "b". *)
Definition sample_register : LWWRegister :=
  {| reg_base := CRDT_init "a";
     _current := {| tv_value := VInt 1; tv_timestamp := 1; tv_node_id := "a" |} |}.

Definition sample_map_x : LWWMap :=
  {| map_base := CRDT_init "a";
     _entries := [(["x"], (VInt 1, 1%Q, "a"))];
     _tombstones := [] |}.

Definition sample_set_op : Operation :=
  mkOperation "op-b" 1 "b" ["x"] "set" (VInt 2).

(** The operation log of a room of the server (empty for an unknown room). *)
Definition room_ops (s : CollabkitServer) (room_id : string) : list Operation :=
  match _rooms (srv_rooms s) !! room_id with
  | Some r => _operations (map_base (_state r))
  | None => []
  end.

(** A map that has logged one set operation stamped 5. *)
Definition sample_logged_op : Operation :=
  mkOperation "op-1" 5 "n" ["k"] "set" (VInt 1).

Definition sample_logged_map : LWWMap :=
  {| map_base := _record_operation (CRDT_init "n") sample_logged_op;
     _entries := [(["k"], (VInt 1, 5%Q, "n"))];
     _tombstones := [] |}.

(** A map with one entry whose key contains a dot. *)
Definition sample_dotted_map : LWWMap :=
  {| map_base := CRDT_init "n";
     _entries := [(["a.b"], (VInt 1, 5%Q, "n"))];
     _tombstones := [] |}.

(** A server with one room "r" and the user "u" bound to channel 7. *)
Definition sample_user : User :=
  {| user_id := "u"; user_name := "U"; authenticated := true |}.

Definition sample_server : CollabkitServer :=
  {| _auth := None; _permissions := None; _storage := false;
     srv_rooms := RoomManager_with_rooms RoomManager_init
                    (<["r" := Room_init "r" None]> ∅);
     _save_on_operation := false;
     _max_connections_per_user := MAX_CONNECTIONS_PER_USER;
     _auth_rate_limiter := AuthRateLimiter_init MAX_AUTH_ATTEMPTS AUTH_LOCKOUT_SECONDS;
     _ws_users := <[7%Z := sample_user]> ∅;
     _user_connections := <["u" := [7%Z]]> ∅ |}.

Definition sample_state_update : StateUpdateMessage :=
  {| su_room_id := "r"; su_path := Some "a.b"; su_value := VInt 1 |}.

(** An operation message whose client-side timestamp lies far in the
    future. *)
Definition sample_operation_message : OperationMessage :=
  {| om_room_id := "r";
     om_operation :=
       VDict [ ("id", VStr "c-1"); ("timestamp", VFloat 99999999);
               ("node_id", VStr "u"); ("path", VList [VStr "k"]);
               ("op_type", VStr "set"); ("value", VInt 3) ] |}.

(** A manager that holds the room "lobby". *)
Definition sample_manager : RoomManager :=
  fst (fst (RoomManager_create_room RoomManager_init
              "123e4567-e89b-42d3-a456-426614174000" (Some "lobby") None None)).


(** The limiter of the server. *)
Definition limiter_of (s : CollabkitServer) : AuthRateLimiter := _auth_rate_limiter s.

(** A server whose provider accepts the token "good" only. *)
Definition sample_provider (token : string) : option User :=
  if String.eqb token "good" then Some sample_user else None.

Definition sample_auth_server : CollabkitServer :=
  {| _auth := Some sample_provider; _permissions := None; _storage := false;
     srv_rooms := RoomManager_init;
     _save_on_operation := false;
     _max_connections_per_user := MAX_CONNECTIONS_PER_USER;
     _auth_rate_limiter := AuthRateLimiter_init MAX_AUTH_ATTEMPTS AUTH_LOCKOUT_SECONDS;
     _ws_users := ∅;
     _user_connections := ∅ |}.

Definition bad_attempt (t : Q) : AuthAttempt :=
  {| at_token := "bad"; at_now_check := t; at_now_fail := t |}.


(** The tokens of a bucket that can still be spent: a negative level (which
    only a clock running backwards can produce) counts as empty. *)
Definition spendable (tokens : Q) : Q := if float_gt tokens 0 then tokens else 0%Q.

(** Clock readings that never go back, starting from [t]. *)
Fixpoint nondecreasing_from (t : Q) (ts : list Q) : Prop :=
  match ts with
  | [] => True
  | a :: rest => (t <= a)%Q /\ nondecreasing_from a rest
  end.

(** 200 frames, 5 ms apart, on a new channel: the first at clock value 0,
    the last at 0.995. *)
Definition burst_times : list (Q * Q) :=
  map (fun i => ((Z.of_nat i * 5) # 1000, 0%Q)) (seq 0 200).

Definition default_limiter : RateLimiter :=
  RateLimiter_init DEFAULT_RATE_LIMIT DEFAULT_RATE_WINDOW.

(** The tags a remove operation carries ([op.value.get("tags", [])], as
    iterated by [_apply_remove]). *)
Definition carried_tags (r : Operation) : list PyVal :=
  match remove_tags_of (op_value r) with
  | Ok tags_v => match iter_items tags_v with
                 | Ok tags => tags
                 | Raise _ => []
                 end
  | Raise _ => []
  end.

(** What the attributes of an [ORSet] owe to its log. *)
Definition orset_inv (_hash_value : PyVal -> string) (s : ORSet) : Prop :=
  (forall a, In a (_operations (set_base s)) -> op_type a = "add" ->
             exists group,
               od_get (_hash_value (op_value a)) (_elements s) = Some group /\
               In (op_id a, op_value a) group) /\
  (forall t, In t (_removed_tags s) ->
             exists r, In r (_operations (set_base s)) /\ op_type r = "remove" /\
                       In t (carried_tags r)) /\
  (forall h group, In (h, group) (_elements s) ->
                   forall t w, In (t, w) group ->
                               _hash_value w = h /\ hashable w = true /\
                               exists b, In b (_operations (set_base s)) /\
                                         op_type b = "add" /\ op_value b = w).

(** A stand-in digest for sample runs: it tells the sample values apart. *)
Definition sample_hash (v : PyVal) : string :=
  match v with
  | VStr s => s
  | _ => "other"
  end.

(** Replica A adds "x" (tag "a-1") and removes it, having observed only its
    own tag; replica B adds "x" concurrently (tag "b-1"). *)
Definition orset_add_a : Operation := mkOperation "a-1" 1 "A" [] "add" (VStr "x").
Definition orset_add_b : Operation := mkOperation "b-1" 1 "B" [] "add" (VStr "x").
Definition orset_remove_a : Operation :=
  mkOperation "a-2" 2 "A" [] "remove"
    (VDict [("element", VStr "x"); ("tags", VList [VStr "a-1"])]).

Definition sample_orset : ORSet :=
  match ORSet_apply_all sample_hash (ORSet_init "C")
          [orset_add_a; orset_remove_a; orset_add_b] with
  | Ok s => s
  | Raise _ => ORSet_init "C"
  end.

(* ===================================================================== *)
(** ** More of crdt/base.py, crdt/map.py and crdt/register.py *)
(* ===================================================================== *)

(** [VersionVector.merge] *)
Definition VersionVector_merge (self other : VersionVector) : VersionVector :=
  fold_left (fun vv nt => VersionVector_update vv (fst nt) (snd nt)) other self.

(** [entry_path[:path_len] == path], with [entry_path[path_len:]] when it
    holds. *)
Fixpoint strip_prefix (path entry_path : Path) : option Path :=
  match path, entry_path with
  | [], remaining => Some remaining
  | _ :: _, [] => None
  | p :: path', e :: entry_path' =>
      if decide (p = e) then strip_prefix path' entry_path' else None
  end.

(** The inner loop of [LWWMap._get_nested]. Unlike [value()], it does not
    replace a non-dict found on the way: the next step on it ([key not in
    current], [current[key]] or the item assignment) raises [TypeError]. *)
Fixpoint put_nested (current : list (string * PyVal)) (remaining : Path)
    (value : PyVal) {struct remaining} : Result (list (string * PyVal)) :=
  match remaining with
  | [] => Ok current
  | [leaf] => Ok (od_set leaf value current)
  | key :: rest =>
      match od_get key current with
      | None =>
          do child <- put_nested [] rest value;
          Ok (od_set key (VDict child) current)
      | Some (VDict c) =>
          do child <- put_nested c rest value;
          Ok (od_set key (VDict child) current)
      | Some _ => Raise TypeError
      end
  end.

(** The loop of [LWWMap._get_nested]. *)
Fixpoint get_nested_loop (tombstones : list (Path * Tombstone)) (path : Path)
    (entries : list (Path * Entry)) (result : list (string * PyVal))
  : Result (list (string * PyVal)) :=
  match entries with
  | [] => Ok result
  | (entry_path, (value, ts, _)) :: rest =>
      match strip_prefix path entry_path with
      | Some ((_ :: _) as remaining) =>
          if tombstoned tombstones entry_path ts
          then get_nested_loop tombstones path rest result
          else
            do result' <- put_nested result remaining value;
            get_nested_loop tombstones path rest result'
      | _ => get_nested_loop tombstones path rest result
      end
  end.

(** [LWWMap._get_nested]: [None] is [VNone]. *)
Definition _get_nested (self : LWWMap) (path : Path) : Result PyVal :=
  do result <- get_nested_loop (_tombstones self) path (_entries self) [];
  Ok (match result with [] => VNone | _ => VDict result end).

(** [LWWMap.get]: [None] is [VNone]. *)
Definition LWWMap_get (self : LWWMap) (path : Path) : Result PyVal :=
  let deleted :=
    match od_get path (_tombstones self) with
    | Some (tts, _) =>
        match od_get path (_entries self) with
        | None => true
        | Some (_, ets, _) => float_gt tts ets
        end
    | None => false
    end in
  if deleted then Ok VNone
  else match od_get path (_entries self) with
       | Some (value, _, _) => Ok value
       | None => _get_nested self path
       end.

(** [LWWMap.__contains__] *)
Definition LWWMap_contains (self : LWWMap) (key : string) : bool :=
  existsb (fun item : Path * Entry =>
             match fst item with
             | first :: _ => String.eqb first key
             | [] => false
             end)
          (_entries self).

(** The state dictionary of [LWWRegister.state]. *)
Record LWWRegisterState : Type := mkLWWRegisterState {
  rs_value : PyVal;
  rs_timestamp : Q;
  rs_node_id : string;
  rs_operations : list PyVal
}.

(** [LWWRegister.state] *)
Definition LWWRegister_state (self : LWWRegister) : LWWRegisterState :=
  {| rs_value := tv_value (_current self);
     rs_timestamp := tv_timestamp (_current self);
     rs_node_id := tv_node_id (_current self);
     rs_operations := map Operation_to_dict (_operations (reg_base self)) |}.

(** [LWWRegister.from_state] *)
Definition LWWRegister_from_state (node : string) (state : LWWRegisterState)
    (clock : nat -> Q) : Result LWWRegister :=
  do ops <- from_dict_all (rs_operations state) clock 0;
  Ok {| reg_base := {| node_id := node; _operations := ops;
                       _version_vector := [] |};
        _current := {| tv_value := rs_value state;
                       tv_timestamp := rs_timestamp state;
                       tv_node_id := rs_node_id state |} |}.

(** An operation with its timestamp replaced. *)
Definition with_timestamp (op : Operation) (ts : Q) : Operation :=
  {| op_id := op_id op; op_timestamp := ts; op_node_id := op_node_id op;
     op_path := op_path op; op_type := op_type op; op_value := op_value op |}.

(** The log as [from_state] rebuilds it: the i-th operation stamped with
    the i-th clock reading from [k] on. *)
Fixpoint restamp (ops : list Operation) (clock : nat -> Q) (k : nat)
  : list Operation :=
  match ops with
  | [] => []
  | op :: rest => with_timestamp op (clock k) :: restamp rest clock (S k)
  end.

(** Instances built from a fresh one by [_record_operation]. *)
Inductive crdt_logged : CRDT -> Prop :=
| logged_init node : crdt_logged (CRDT_init node)
| logged_record c op : crdt_logged c -> crdt_logged (_record_operation c op).

(** No segment of the path contains a dot, and the path is not the single
    empty segment: the paths that ['.'.join] and [split('.')] take back to
    themselves. *)
Definition dot_free (s : string) : Prop :=
  Forall (fun c => c <> "."%char) (list_ascii_of_string s).

Definition path_survives (path : Path) : Prop :=
  Forall dot_free path /\ path <> [""].

(** The sample map after its one logged operation was applied, and the
    register and the set after the same operation kind. *)
Definition sample_add_op : Operation := mkOperation "op-1" 5 "n" [] "add" (VStr "x").
Definition sample_reg_op : Operation := mkOperation "op-1" 5 "n" [] "set" (VInt 1).

Definition applied_map : LWWMap :=
  match LWWMap_apply sample_map sample_logged_op with
  | Ok (m, _) => m
  | Raise _ => sample_map
  end.

Definition applied_register : LWWRegister :=
  match LWWRegister_apply (LWWRegister_init "n" VNone) sample_reg_op with
  | Ok (r, _) => r
  | Raise _ => LWWRegister_init "n" VNone
  end.

Definition applied_set : ORSet :=
  match ORSet_apply sample_hash (ORSet_init "n") sample_add_op with
  | Ok (s, _) => s
  | Raise _ => ORSet_init "n"
  end.

(** A map with two nested entries and a tombstone. *)
Definition sample_nested_map : LWWMap :=
  {| map_base := CRDT_init "n";
     _entries := [(["user"; "name"], (VStr "Alice", 1%Q, "n"));
                  (["user"; "age"], (VInt 30, 2%Q, "n"))];
     _tombstones := [(["user"; "email"], (3%Q, "n"))] |}.

(** A second write to ["x"], at the same clock value as [sample_set_op] and
    by the origin "a". *)
Definition sample_set_op_a : Operation :=
  mkOperation "op-a" 1 "a" ["x"] "set" (VInt 3).

(** The nested sample map after [delete ["user"]]. *)
Definition delete_user_op : Operation :=
  mkOperation "op-9" 4 "n" ["user"] "delete" VNone.

Definition deleted_user_map : LWWMap :=
  match LWWMap_apply sample_nested_map delete_user_op with
  | Ok (m, _) => m
  | Raise _ => sample_nested_map
  end.

(** What the elements and the removed tags of an [ORSet] owe to its log,
    read the other way: every stored pair comes from an add operation of the
    log, and every tag a logged remove carries is removed. *)
Definition orset_sound (s : ORSet) : Prop :=
  (forall h group, In (h, group) (_elements s) ->
                   forall t w, In (t, w) group ->
                               exists b, In b (_operations (set_base s)) /\
                                         op_type b = "add" /\
                                         op_id b = t /\ op_value b = w) /\
  (forall r, In r (_operations (set_base s)) -> op_type r = "remove" ->
             forall t, In t (carried_tags r) -> In t (_removed_tags s)).

(** The sample set after replica A's add and its own remove of "x". *)
Definition removed_orset : ORSet :=
  match ORSet_apply_all sample_hash (ORSet_init "A") [orset_add_a; orset_remove_a] with
  | Ok s => s
  | Raise _ => ORSet_init "A"
  end.

(* ===================================================================== *)
(** ** crdt/counter.py *)
(* ===================================================================== *)

(** An amount at its declared type [int] ([bool] is a subclass of [int]);
    [None], strings, lists and dicts make the arithmetic of [apply] raise
    [TypeError]. *)
Definition as_int (v : PyVal) : Result Z :=
  match v with
  | VInt z => Ok z
  | VBool b => Ok (if b then 1 else 0)%Z
  | VFloat _ => Raise IllTyped
  | _ => Raise TypeError
  end.

(** [self._counts.get(node_id, 0)] *)
Definition count_of (counts : gmap string Z) (node : string) : Z :=
  match counts !! node with Some c => c | None => 0%Z end.

(** [sum(counts.values())] *)
Definition sum_counts (counts : gmap string Z) : Z :=
  map_fold (fun _ c acc => (c + acc)%Z) 0%Z counts.

(** The first loop of [merge]: [self[n] = max(self.get(n, 0), count)] for
    every item of the other dict. *)
Definition merge_counts (self other : gmap string Z) : gmap string Z :=
  map_fold (fun node count acc => <[node := Z.max (count_of acc node) count]> acc)
           self other.

(** The last loop of [merge]: record the operations not seen yet. *)
Definition merge_log (self : CRDT) (ops : list Operation) : CRDT :=
  fold_left (fun c op => if _has_seen c op then c else _record_operation c op) ops self.

(** [class GCounter] *)
Record GCounter : Type := mkGCounter {
  gc_base : CRDT;
  _counts : gmap string Z
}.

Definition GCounter_init (node : string) : GCounter :=
  {| gc_base := CRDT_init node; _counts := ∅ |}.

(** [GCounter.apply] *)
Definition GCounter_apply (self : GCounter) (op : Operation) : Result (GCounter * bool) :=
  if _has_seen (gc_base self) op then Ok (self, false)
  else if negb (String.eqb (op_type op) "increment") then Raise ValueError
  else
    do amount <- as_int (op_value op);
    if (amount <? 0)%Z then Raise ValueError
    else
      let current := count_of (_counts self) (op_node_id op) in
      Ok ({| gc_base := _record_operation (gc_base self) op;
             _counts := <[op_node_id op := (current + amount)%Z]> (_counts self) |},
          true).

(** [GCounter.increment] *)
Definition GCounter_increment (self : GCounter) (uid : string) (now : Q) (amount : Z)
  : Result (GCounter * Operation) :=
  if (amount <? 0)%Z then Raise ValueError
  else
    let op := Operation_create uid now (node_id (gc_base self)) [] "increment"
                               (VInt amount) in
    do '(self', _) <- GCounter_apply self op;
    Ok (self', op).

(** [GCounter.value] *)
Definition GCounter_value (self : GCounter) : Z := sum_counts (_counts self).

(** [GCounter.merge] *)
Definition GCounter_merge (self other : GCounter) : GCounter :=
  {| gc_base := merge_log (gc_base self) (all_operations (gc_base other));
     _counts := merge_counts (_counts self) (_counts other) |}.

Fixpoint GCounter_apply_all (self : GCounter) (ops : list Operation) : Result GCounter :=
  match ops with
  | [] => Ok self
  | op :: rest =>
      do '(self', _) <- GCounter_apply self op;
      GCounter_apply_all self' rest
  end.

(** [class PNCounter] *)
Record PNCounter : Type := mkPNCounter {
  pn_base : CRDT;
  _positive : gmap string Z;
  _negative : gmap string Z
}.

Definition PNCounter_init (node : string) : PNCounter :=
  {| pn_base := CRDT_init node; _positive := ∅; _negative := ∅ |}.

(** [PNCounter.apply]: unlike [increment] and [decrement], it does not
    look at the sign of the amount. *)
Definition PNCounter_apply (self : PNCounter) (op : Operation)
  : Result (PNCounter * bool) :=
  if _has_seen (pn_base self) op then Ok (self, false)
  else if String.eqb (op_type op) "increment" then
    do amount <- as_int (op_value op);
    Ok ({| pn_base := _record_operation (pn_base self) op;
           _positive := <[op_node_id op :=
                            (count_of (_positive self) (op_node_id op) + amount)%Z]>
                          (_positive self);
           _negative := _negative self |}, true)
  else if String.eqb (op_type op) "decrement" then
    do amount <- as_int (op_value op);
    Ok ({| pn_base := _record_operation (pn_base self) op;
           _positive := _positive self;
           _negative := <[op_node_id op :=
                            (count_of (_negative self) (op_node_id op) + amount)%Z]>
                          (_negative self) |}, true)
  else Raise ValueError.

(** [PNCounter.value] *)
Definition PNCounter_value (self : PNCounter) : Z :=
  (sum_counts (_positive self) - sum_counts (_negative self))%Z.

(** [PNCounter.merge] *)
Definition PNCounter_merge (self other : PNCounter) : PNCounter :=
  {| pn_base := merge_log (pn_base self) (all_operations (pn_base other));
     _positive := merge_counts (_positive self) (_positive other);
     _negative := merge_counts (_negative self) (_negative other) |}.

Fixpoint PNCounter_apply_all (self : PNCounter) (ops : list Operation)
  : Result PNCounter :=
  match ops with
  | [] => Ok self
  | op :: rest =>
      do '(self', _) <- PNCounter_apply self op;
      PNCounter_apply_all self' rest
  end.

(** The amount an operation carries (0 when it carries none). *)
Definition op_amount (op : Operation) : Z :=
  match as_int (op_value op) with Ok z => z | Raise _ => 0%Z end.

(** The sum of the amounts of the operations of one kind. *)
Definition logged_total (kind : string) (ops : list Operation) : Z :=
  fold_right (fun op acc => if String.eqb (op_type op) kind
                            then (op_amount op + acc)%Z else acc)
             0%Z ops.

(** Sample counters. *)
Definition sample_increments : list Operation :=
  [ mkOperation "i-1" 1 "a" [] "increment" (VInt 5);
    mkOperation "i-2" 2 "b" [] "increment" (VInt 2);
    mkOperation "i-3" 3 "a" [] "increment" (VInt 1) ].

Definition sample_pn_ops : list Operation :=
  [ mkOperation "p-1" 1 "a" [] "increment" (VInt 10);
    mkOperation "p-2" 2 "b" [] "decrement" (VInt 3) ].

Definition sample_gcounter_a : GCounter :=
  {| gc_base := CRDT_init "a"; _counts := <["a" := 5%Z]> (<["b" := 1%Z]> ∅) |}.

Definition sample_gcounter_b : GCounter :=
  {| gc_base := CRDT_init "b"; _counts := <["b" := 4%Z]> (<["c" := 2%Z]> ∅) |}.

(* ===================================================================== *)
(** ** More of room.py: the members of a room *)
(* ===================================================================== *)

(** [d.pop(k, None)] on an insertion-ordered dict. *)
Fixpoint od_pop {K V : Type} `{EqDecision K} (k : K) (d : list (K * V))
  : list (K * V) :=
  match d with
  | [] => []
  | (k', v) :: rest => if decide (k = k') then rest else (k', v) :: od_pop k rest
  end.

Definition Room_with_connections (r : Room) (conns : list (string * (User * Z)))
  : Room :=
  {| room_id := room_id r; room_node_id := room_node_id r; _state := _state r;
     _connections := conns; _functions := _functions r;
     _created_at := _created_at r; _metadata := _metadata r |}.

(** [Room.add_user] *)
Definition Room_add_user (r : Room) (user : User) (websocket : Z) : Room :=
  Room_with_connections r (od_set (user_id user) (user, websocket) (_connections r)).

(** [Room.remove_user] *)
Definition Room_remove_user (r : Room) (uid : string) : Room * option User :=
  (Room_with_connections r (od_pop uid (_connections r)),
   match od_get uid (_connections r) with
   | Some connection => Some (fst connection)
   | None => None
   end).

(** [Room.get_user] *)
Definition Room_get_user (r : Room) (uid : string) : option User :=
  match od_get uid (_connections r) with
  | Some connection => Some (fst connection)
  | None => None
  end.

(** [Room.get_websocket] *)
Definition Room_get_websocket (r : Room) (uid : string) : option Z :=
  match od_get uid (_connections r) with
  | Some connection => Some (snd connection)
  | None => None
  end.

(** [Room.has_user] *)
Definition Room_has_user (r : Room) (uid : string) : bool :=
  od_mem uid (_connections r).

(** [Room.user_count] *)
Definition Room_user_count (r : Room) : nat := length (_connections r).

(** [Room.get_function] *)
Definition Room_get_function (r : Room) (name : string) : option RegisteredFunction :=
  od_get name (_functions r).

(** Sample members. *)
Definition sample_user_v : User :=
  {| user_id := "v"; user_name := "V"; authenticated := false |}.

Definition sample_room : Room :=
  Room_add_user (Room_add_user (Room_init "r" None) sample_user 7) sample_user_v 8.

(** A limiter on which channel 7 is locked out until clock value 305. *)
Definition sample_locked_limiter : AuthRateLimiter :=
  {| _max_attempts := MAX_AUTH_ATTEMPTS; _lockout_seconds := AUTH_LOCKOUT_SECONDS;
     _attempts := <[7%Z := 5%Z]> ∅; _lockout_until := <[7%Z := 305%Q]> ∅ |}.

Definition sample_locked_server : CollabkitServer :=
  server_with_limiter sample_auth_server sample_locked_limiter.

(** The global functions of a manager are stored under their own names,
    once each. *)
Definition functions_by_name (functions : list (string * RegisteredFunction)) : Prop :=
  List.NoDup (map fst functions) /\
  Forall (fun nf => rf_name (snd nf) = fst nf) functions.

(** A manager with one global function and one callback. *)
Definition sample_function : RegisteredFunction :=
  {| rf_name := "clear"; rf_func := 1%nat; rf_requires_auth := true;
     rf_required_permissions := [] |}.

Definition sample_manager_f : RoomManager :=
  RoomManager_on_room_created
    (RoomManager_register_function sample_manager sample_function) 3%nat.

(** [RoomManager.room_count] *)
Definition RoomManager_room_count (self : RoomManager) : nat := size (_rooms self).

(** The number [RoomManager.cleanup_empty_rooms] returns:
    [len(empty_rooms)], the ids of the rooms whose [is_empty] holds. *)
Definition cleanup_empty_rooms_count (self : RoomManager) : nat :=
  length (List.filter (fun kv : string * Room => Room_is_empty (snd kv))
                      (map_to_list (_rooms self))).

(* ===================================================================== *)
(** ** Leaves, hiding and well-typed messages *)
(* ===================================================================== *)

(** "Object value: recursively flatten: for each leaf [(subpath, scalar)]
    inside, apply a scalar set at [path || subpath]". The leaves of a value
    under a path, in the order of the items; a value that is not a dict is
    its own single leaf, at the path itself. *)
Fixpoint dict_leaves (path : Path) (value : PyVal) {struct value}
  : list (Path * PyVal) :=
  match value with
  | VDict items =>
      (fix each (items : list (string * PyVal)) : list (Path * PyVal) :=
         match items with
         | [] => []
         | (key, val) :: rest =>
             (dict_leaves (path ++ [key])%list val ++ each rest)%list
         end) items
  | _ => [(path, value)]
  end.

(** A tombstone stored at the path itself carries a timestamp strictly
    greater than [ts]. *)
Definition newer_tombstone_at (tombstones : list (Path * Tombstone)) (path : Path)
    (ts : Q) : Prop :=
  exists tts torigin, od_get path tombstones = Some (tts, torigin) /\ (ts < tts)%Q.

(** Two paths conflict when one equals or is a prefix of the other. *)
Definition paths_conflict (p q : Path) : Prop := path_prefix p q \/ path_prefix q p.

(** The fields of an operation dictionary at the types the [Operation]
    dataclass declares: [id], [node_id] and [op_type] are strings and the
    items of a list [path] are strings (a field that is missing is the
    [KeyError] of the code, not a matter of type). *)
Definition field_is_str (key : string) (d : list (string * PyVal)) : bool :=
  match od_get key d with
  | Some (VStr _) | None => true
  | Some _ => false
  end.

Definition path_items_are_str (d : list (string * PyVal)) : bool :=
  match od_get "path" d with
  | Some (VList items) =>
      forallb (fun v => match v with VStr _ => true | _ => false end) items
  | _ => true
  end.

Definition operation_well_typed (data : PyVal) : bool :=
  match data with
  | VDict d =>
      field_is_str "id" d && field_is_str "node_id" d &&
      field_is_str "op_type" d && path_items_are_str d
  | _ => true
  end.

(** A write of the dict [{"y": 2}] to ["x"], later than the entry that
    [sample_map_x] holds there. *)
Definition dict_set_op : Operation :=
  mkOperation "op-d" 2 "b" ["x"] "set" (VDict [("y", VInt 2)]).

(** [set ["a","b"] := 1], [set ["c"] := 3], then [delete ["c"]] later. *)
Definition ops_set_then_delete : list Operation :=
  [ mkOperation "op-1" 1 "n" ["a"; "b"] "set" (VInt 1);
    mkOperation "op-2" 1 "n" ["c"] "set" (VInt 3);
    mkOperation "op-3" 2 "n" ["c"] "delete" VNone ].

Definition deleted_leaf_map : LWWMap :=
  match LWWMap_apply_all sample_map ops_set_then_delete with
  | Ok s => s
  | Raise _ => sample_map
  end.

(* ===================================================================== *)
(** * Part II: the properties *)
(* ===================================================================== *)

(** ** Comparisons *)

Lemma float_gt_iff (a b : Q) : float_gt a b = true <-> (b < a)%Q.
Proof.
  unfold float_gt. rewrite (Qgt_alt a b).
  destruct (a ?= b)%Q; split; intros H; congruence.
Qed.

Lemma float_gt_false_iff (a b : Q) : float_gt a b = false <-> (a <= b)%Q.
Proof.
  split; intros H.
  - apply Qnot_lt_le. intros Hlt. apply float_gt_iff in Hlt. congruence.
  - destruct (float_gt a b) eqn:E; [|reflexivity].
    apply float_gt_iff in E. exfalso. exact (Qlt_not_le _ _ E H).
Qed.

Lemma float_ne_false_iff (a b : Q) : float_ne a b = false <-> (a == b)%Q.
Proof.
  unfold float_ne. rewrite negb_false_iff. apply Qeq_bool_iff.
Qed.

Lemma float_ne_true_iff (a b : Q) : float_ne a b = true <-> ~ (a == b)%Q.
Proof.
  unfold float_ne. rewrite negb_true_iff. split; intros H.
  - intros Heq. apply Qeq_bool_iff in Heq. congruence.
  - destruct (Qeq_bool a b) eqn:E; [|reflexivity].
    exfalso. apply H. apply Qeq_bool_iff. exact E.
Qed.

Lemma str_gt_iff (s1 s2 : string) : str_gt s1 s2 = true <-> String.compare s1 s2 = Gt.
Proof.
  unfold str_gt, String.ltb. rewrite (String.compare_antisym s1 s2).
  destruct (String.compare s2 s1); simpl; split; intros H; congruence.
Qed.

(** [_is_newer] (and [TimestampedValue.__gt__]) decide the order of the
    specification. *)
Lemma is_newer_iff (ts1 : Q) (o1 : string) (ts2 : Q) (o2 : string) :
  _is_newer ts1 o1 ts2 o2 = true <-> lex_greater ts1 o1 ts2 o2.
Proof.
  unfold _is_newer, lex_greater.
  destruct (float_ne ts1 ts2) eqn:Hne.
  - apply float_ne_true_iff in Hne. rewrite float_gt_iff. split.
    + intros H. left. exact H.
    + intros [H | [Heq _]]; [exact H | contradiction].
  - apply float_ne_false_iff in Hne. rewrite str_gt_iff. split.
    + intros H. right. split; assumption.
    + intros [Hlt | [_ H]]; [| exact H].
      exfalso. rewrite Hne in Hlt. exact (Qlt_irrefl _ Hlt).
Qed.

Lemma timestamped_gt_is_newer (a b : TimestampedValue) :
  TimestampedValue_gt a b
  = _is_newer (tv_timestamp a) (tv_node_id a) (tv_timestamp b) (tv_node_id b).
Proof. reflexivity. Qed.

(** ** Ordered dictionaries *)

Section OrderedDictFacts.
Context {K V : Type} `{EqDecision K}.

Lemma od_get_set_eq (k : K) (v : V) (d : list (K * V)) :
  od_get k (od_set k v d) = Some v.
Proof.
  induction d as [|[k' v'] d IH]; simpl.
  - destruct (decide (k = k)); congruence.
  - destruct (decide (k = k')) as [->|Hne]; simpl.
    + destruct (decide (k' = k')); congruence.
    + destruct (decide (k = k')); [contradiction | exact IH].
Qed.

Lemma od_get_set_ne (k k' : K) (v : V) (d : list (K * V)) :
  k <> k' -> od_get k' (od_set k v d) = od_get k' d.
Proof.
  intros Hne. induction d as [|[k0 v0] d IH]; simpl.
  - destruct (decide (k' = k)); [congruence | reflexivity].
  - destruct (decide (k = k0)) as [->|Hk]; simpl.
    + destruct (decide (k' = k0)); [congruence | reflexivity].
    + destruct (decide (k' = k0)); [reflexivity | exact IH].
Qed.

Lemma od_get_In (k : K) (v : V) (d : list (K * V)) :
  od_get k d = Some v -> In (k, v) d.
Proof.
  induction d as [|[k' v'] d IH]; simpl; [discriminate|].
  destruct (decide (k = k')) as [->|Hne].
  - intros [= ->]. left. reflexivity.
  - intros H. right. apply IH. exact H.
Qed.
End OrderedDictFacts.

(** ** The last-writer-wins rule on one stored triple *)

Lemma apply_set_scalar (entries : list (Path * Entry)) (path : Path) (v : PyVal)
    (ts : Q) (node : string) :
  is_dict v = false ->
  _apply_set entries path v ts node = store_if_newer entries path v ts node.
Proof. destruct v; simpl; intros H; try reflexivity; discriminate. Qed.

Lemma register_apply_set (r : LWWRegister) (op : Operation) :
  _has_seen (reg_base r) op = false ->
  op_type op = "set" ->
  exists r',
    LWWRegister_apply r op = Ok (r', true) /\
    (lex_greater (op_timestamp op) (op_node_id op)
                 (tv_timestamp (_current r)) (tv_node_id (_current r)) ->
     _current r' = mkTimestampedValue (op_value op) (op_timestamp op) (op_node_id op)) /\
    (~ lex_greater (op_timestamp op) (op_node_id op)
                   (tv_timestamp (_current r)) (tv_node_id (_current r)) ->
     _current r' = _current r).
Proof.
  intros Hseen Hty. unfold LWWRegister_apply. rewrite Hseen, Hty. simpl.
  eexists. split; [reflexivity|]. simpl.
  rewrite timestamped_gt_is_newer. simpl.
  destruct (_is_newer _ _ _ _) eqn:E.
  - split; [reflexivity|]. intros Hn. exfalso. apply Hn. apply is_newer_iff. exact E.
  - split; [|reflexivity]. intros Hg. apply is_newer_iff in Hg. congruence.
Qed.

(** ** C1: where the claim on tombstones fails *)

Lemma tombstoned_iff (tombstones : list (Path * Tombstone)) (path : Path) (ts : Q) :
  tombstoned tombstones path ts = true <->
  exists tts torigin, od_get path tombstones = Some (tts, torigin) /\ (ts < tts)%Q.
Proof.
  unfold tombstoned. destruct (od_get path tombstones) as [[tts torigin]|].
  - rewrite float_gt_iff. split.
    + intros H. exists tts, torigin. split; [reflexivity | exact H].
    + intros (tts' & torigin' & Heq & Hlt). injection Heq as -> ->. exact Hlt.
  - split; [discriminate|]. intros (? & ? & Heq & _). discriminate.
Qed.

Lemma apply_all_reachable (m : LWWMap) (ops : list Operation) (s : LWWMap) :
  map_reachable m -> LWWMap_apply_all m ops = Ok s -> map_reachable s.
Proof.
  revert m. induction ops as [|op ops IH]; intros m Hm; simpl.
  - intros [= <-]. exact Hm.
  - destruct (LWWMap_apply m op) as [[m' b]|e] eqn:E; simpl; [|discriminate].
    apply IH. exact (map_reach_apply m op m' b Hm E).
Qed.

(** C1 as stated fails on reachable states: after [set a.b := 1] at time 1
    and [delete a] at time 2, a tombstone at a prefix of the entry's path is
    newer than the entry, and [value()] still shows the entry; after a set
    and a delete of one path with equal stamps, the tombstone is at least as
    new as the entry, and [value()] still shows it. *)
Lemma value_shows_entries_the_spec_hides :
  (exists s,
      LWWMap_apply_all sample_map ops_delete_parent = Ok s /\
      map_reachable s /\
      od_get ["a"; "b"] (_entries s) = Some (VInt 1, 1%Q, "n") /\
      spec_hidden (_tombstones s) ["a"; "b"] 1 "n" /\
      value_at (LWWMap_value s) ["a"; "b"] = Some (VInt 1))
  /\
  (exists s,
      LWWMap_apply_all sample_map ops_delete_same_stamp = Ok s /\
      map_reachable s /\
      od_get ["a"] (_entries s) = Some (VInt 1, 1%Q, "n") /\
      spec_hidden (_tombstones s) ["a"] 1 "n" /\
      value_at (LWWMap_value s) ["a"] = Some (VInt 1)).
Proof.
  split.
  - eexists. split; [reflexivity|]. split; [|split; [reflexivity|split]].
    + apply (apply_all_reachable sample_map ops_delete_parent);
        [apply map_reach_init | reflexivity].
    + exists ["a"], 2%Q, "n". split; [reflexivity|]. split.
      * exists ["b"]. reflexivity.
      * left. left. reflexivity.
    + reflexivity.
  - eexists. split; [reflexivity|]. split; [|split; [reflexivity|split]].
    + apply (apply_all_reachable sample_map ops_delete_same_stamp);
        [apply map_reach_init | reflexivity].
    + exists ["a"], 1%Q, "n". split; [reflexivity|]. split.
      * exists []. reflexivity.
      * right. split; reflexivity.
    + reflexivity.
Qed.

(** ** C2: a scalar and a child map at one path *)

(** C2 (the code departs from it). Both entries are live; with the child
    stored first and the scalar at its prefix stored second, [value()] maps
    the prefix to the scalar and the child is gone, while in the other order
    the child wins: the outcome depends on the order of storage. *)
Theorem value_scalar_stored_last_overwrites_child :
  (exists s,
      LWWMap_apply_all sample_map ops_child_then_scalar = Ok s /\
      live_entries s = _entries s /\
      od_get ["a"; "b"] (_entries s) = Some (VInt 1, 1%Q, "n") /\
      od_get ["a"] (_entries s) = Some (VInt 2, 2%Q, "n") /\
      LWWMap_value s = VDict [("a", VInt 2)])
  /\
  (exists s,
      LWWMap_apply_all sample_map ops_scalar_then_child = Ok s /\
      live_entries s = _entries s /\
      LWWMap_value s = VDict [("a", VDict [("b", VInt 1)])]).
Proof.
  split; eexists; repeat split; reflexivity.
Qed.

(** ** C3: the state round trip *)

Ltac bind_inv H :=
  match type of H with
  | rbind ?r _ = Ok _ =>
      let E := fresh "E" in destruct r eqn:E; simpl in H; [|discriminate H]
  end.

Lemma from_dict_server_timestamp (data : PyVal) (now : Q) (op : Operation) :
  Operation_from_dict data true now = Ok op -> op_timestamp op = now.
Proof.
  unfold Operation_from_dict. intros H.
  repeat bind_inv H. injection H as <-. reflexivity.
Qed.

Lemma from_dict_all_timestamps (ops : list PyVal) (clock : nat -> Q) (k : nat)
    (decoded : list Operation) :
  from_dict_all ops clock k = Ok decoded ->
  forall i op, nth_error decoded i = Some op -> op_timestamp op = clock (k + i)%nat.
Proof.
  revert k decoded. induction ops as [|d ops IH]; intros k decoded H; simpl in H.
  - injection H as <-. intros [|i] op Hn; discriminate.
  - repeat bind_inv H. injection H as <-.
    intros [|i] op Hn; simpl in Hn.
    + injection Hn as <-. rewrite Nat.add_0_r.
      eapply from_dict_server_timestamp; eassumption.
    + replace (k + S i)%nat with (S k + i)%nat by lia.
      eapply IH; eassumption.
Qed.

(** C3 (the code departs from it). [from_state] decodes every logged
    operation with the default [use_server_timestamp=True], so the i-th
    operation of the rebuilt log carries the i-th clock reading of the
    rebuild, not its own timestamp: for a map that logged one operation at
    time 5 and is rebuilt at time 100, [operations_since(50)] is empty before
    and holds the operation after. A path key that contains a dot does not
    survive the join and split either, and changes [value()]. *)
Theorem from_state_restamps_the_log :
  (forall node state clock d,
      LWWMap_from_state node state clock = Ok d ->
      forall i op, nth_error (_operations (map_base d)) i = Some op ->
                   op_timestamp op = clock i)
  /\
  (exists d,
      LWWMap_from_state "n" (LWWMap_state sample_logged_map) (fun _ => 100%Q) = Ok d /\
      LWWMap_value d = LWWMap_value sample_logged_map /\
      operations_since (map_base sample_logged_map) 50 = [] /\
      operations_since (map_base d) 50
      = [mkOperation "op-1" 100 "n" ["k"] "set" (VInt 1)])
  /\
  (exists d,
      LWWMap_from_state "n" (LWWMap_state sample_dotted_map) (fun _ => 100%Q) = Ok d /\
      LWWMap_value sample_dotted_map = VDict [("a.b", VInt 1)] /\
      LWWMap_value d = VDict [("a", VDict [("b", VInt 1)])]).
Proof.
  split; [|split].
  - intros node state clock d H i op Hn. unfold LWWMap_from_state in H.
    bind_inv H. injection H as <-. simpl in Hn.
    exact (from_dict_all_timestamps _ _ _ _ E i op Hn).
  - eexists. repeat split; reflexivity.
  - eexists. repeat split; reflexivity.
Qed.

(** ** C7: the legacy [state_update] message *)

(** C7 (the code departs from it). For a user bound to the channel, allowed
    to write, and an existing room, [_handle_state_update] calls
    [room.state.set(path, value, user_id)] with three positional arguments
    while [LWWMap.set] takes two: the call raises [TypeError] before any
    operation is made, so nothing is applied to the room and nothing is
    broadcast. *)
Theorem handle_state_update_raises
    (s : CollabkitServer) (alive : Z -> bool) (ws : Z)
    (message : StateUpdateMessage) (uid : string) (now : Q)
    (user : User) (room : Room)
    (Hbound : _ws_users s !! ws = Some user)
    (Hallowed : permission_denied s (user_id user) (su_room_id message) WRITE = false)
    (Hroom : RoomManager_get_room (srv_rooms s) (su_room_id message) = Some room) :
  _handle_state_update s alive ws message uid now = Raise TypeError.
Proof.
  unfold _handle_state_update. rewrite Hbound, Hallowed, Hroom. reflexivity.
Qed.

Lemma handle_state_update_raises_witness :
  _handle_state_update sample_server (fun _ => true) 7 sample_state_update
                       "uuid-1" 10
  = Raise TypeError.
Proof.
  apply (handle_state_update_raises sample_server (fun _ => true) 7
           sample_state_update "uuid-1" 10 sample_user (Room_init "r" None));
    reflexivity.
Defined.

(** ** C4: the server stamps inbound operations *)

Lemma LWWMap_apply_log (m : LWWMap) (op : Operation) (m' : LWWMap) (b : bool) :
  LWWMap_apply m op = Ok (m', b) ->
  _operations (map_base m')
  = if b then (_operations (map_base m) ++ [op])%list else _operations (map_base m).
Proof.
  unfold LWWMap_apply. destruct (_has_seen (map_base m) op).
  - intros [= <- <-]. reflexivity.
  - simpl. intros H. bind_inv H. injection H as <- <-. simpl.
    destruct (String.eqb (op_type op) "set").
    + injection E as <-. reflexivity.
    + destruct (String.eqb (op_type op) "delete"); [|discriminate E].
      injection E as <-. reflexivity.
Qed.

Lemma from_dict_ignores_client_timestamp (d : list (string * PyVal))
    (client_ts : PyVal) (now : Q) :
  Operation_from_dict (VDict (od_set "timestamp" client_ts d)) true now
  = Operation_from_dict (VDict d) true now.
Proof.
  unfold Operation_from_dict, dict_item.
  rewrite !od_get_set_ne by discriminate. reflexivity.
Qed.

Lemma room_ops_insert_eq (s : CollabkitServer) (m : RoomManager)
    (rooms : gmap string Room) (rid : string) (r : Room) :
  room_ops (server_with_rooms s (RoomManager_with_rooms m (<[rid := r]> rooms))) rid
  = _operations (map_base (_state r)).
Proof. unfold room_ops. simpl. rewrite lookup_insert_eq. reflexivity. Qed.

Lemma room_ops_insert_ne (s : CollabkitServer) (rooms : gmap string Room)
    (rid rid' : string) (r : Room) :
  rid <> rid' ->
  room_ops (server_with_rooms s
              (RoomManager_with_rooms (srv_rooms s) (<[rid := r]> rooms))) rid'
  = match rooms !! rid' with
    | Some r0 => _operations (map_base (_state r0))
    | None => []
    end.
Proof. intros Hne. unfold room_ops. simpl. rewrite lookup_insert_ne by exact Hne. reflexivity. Qed.

(** What [handle_operation_try] leaves in the logs. *)
Lemma handle_operation_try_log (s : CollabkitServer) (alive : Z -> bool) (room : Room)
    (user : string) (message : OperationMessage) (now : Q)
    (s' : CollabkitServer) (effects : list Effect) :
  _rooms (srv_rooms s) !! om_room_id message = Some room ->
  handle_operation_try s alive room user message now = Ok (s', effects) ->
  exists op applied,
    Operation_from_dict (om_operation message) true now = Ok op /\
    (exists st, LWWMap_apply (_state room) op = Ok (st, applied)) /\
    room_ops s' (om_room_id message)
    = (if applied then (room_ops s (om_room_id message) ++ [op])%list
       else room_ops s (om_room_id message)) /\
    forall rid, rid <> om_room_id message -> room_ops s' rid = room_ops s rid.
Proof.
  intros Hroom H. unfold handle_operation_try in H.
  bind_inv H. rename a into op.
  unfold Room_apply_operation in H. destruct (LWWMap_apply (_state room) op)
    as [[st applied]|e] eqn:Eap; simpl in H; [|discriminate H].
  pose proof (LWWMap_apply_log _ _ _ _ Eap) as Hlog.
  exists op, applied. split; [reflexivity|]. split; [exists st; exact Eap|].
  assert (Hold : room_ops s (om_room_id message) = _operations (map_base (_state room))).
  { unfold room_ops. rewrite Hroom. reflexivity. }
  destruct applied.
  - unfold RoomManager_broadcast_operation in H. simpl in H.
    rewrite lookup_insert_eq in H. simpl in H.
    injection H as <- _. split.
    + rewrite room_ops_insert_eq. simpl. rewrite Hlog, Hold. reflexivity.
    + intros rid Hne. unfold room_ops. simpl.
      rewrite !lookup_insert_ne by congruence. reflexivity.
  - injection H as <- _. split.
    + rewrite room_ops_insert_eq. simpl. rewrite Hlog, Hold. reflexivity.
    + intros rid Hne. unfold room_ops. simpl.
      rewrite lookup_insert_ne by congruence. reflexivity.
Qed.

(** Whatever the message, an operation found in a room log after the
    handler ran was there before or carries the clock reading of the
    handler. *)
Lemma handle_operation_log_stamps (s : CollabkitServer) (alive : Z -> bool) (ws : Z)
    (message : OperationMessage) (now : Q) (rid : string) (op : Operation) :
  In op (room_ops (fst (_handle_operation s alive ws message now)) rid) ->
  In op (room_ops s rid) \/ op_timestamp op = now.
Proof.
  unfold _handle_operation.
  destruct (_ws_users s !! ws) as [user|]; [|simpl; auto].
  destruct (permission_denied s (user_id user) (om_room_id message) WRITE); [simpl; auto|].
  unfold RoomManager_get_room.
  destruct (_rooms (srv_rooms s) !! om_room_id message) as [room|] eqn:Hroom; [|simpl; auto].
  destruct (handle_operation_try s alive room (user_id user) message now)
    as [[s' effects]|e] eqn:Htry; [|simpl; auto].
  simpl.
  destruct (handle_operation_try_log _ _ _ _ _ _ _ _ Hroom Htry)
    as (op0 & applied & Hdec & _ & Hsame & Hother).
  destruct (decide (rid = om_room_id message)) as [->|Hne].
  - rewrite Hsame. destruct applied; [|auto].
    rewrite in_app_iff. intros [Hin | [<- | []]]; [left; exact Hin|].
    right. exact (from_dict_server_timestamp _ _ _ Hdec).
  - rewrite (Hother rid Hne). auto.
Qed.

(** C4. For an operation message of a bound, permitted user naming an
    existing room, the operation appended to the room's log carries the
    clock value the server reads while handling the message; replacing (or
    adding) the client's [timestamp] field changes nothing in what the
    handler does; and no handled message ever puts an operation with any
    other timestamp in a log. *)
Theorem server_stamps_inbound_operations
    (s : CollabkitServer) (alive : Z -> bool) (ws : Z)
    (message : OperationMessage) (now : Q)
    (user : User) (room : Room) (op : Operation)
    (Hbound : _ws_users s !! ws = Some user)
    (Hallowed : permission_denied s (user_id user) (om_room_id message) WRITE = false)
    (Hroom : RoomManager_get_room (srv_rooms s) (om_room_id message) = Some room)
    (Hdecoded : Operation_from_dict (om_operation message) true now = Ok op)
    (Hunseen : _has_seen (map_base (_state room)) op = false)
    (Hkind : op_type op = "set" \/ op_type op = "delete") :
  op_timestamp op = now /\
  room_ops (fst (_handle_operation s alive ws message now)) (om_room_id message)
  = (room_ops s (om_room_id message) ++ [op])%list /\
  (forall d client_ts,
      om_operation message = VDict d ->
      _handle_operation s alive ws
        {| om_room_id := om_room_id message;
           om_operation := VDict (od_set "timestamp" client_ts d) |} now
      = _handle_operation s alive ws message now) /\
  (forall rid op',
      In op' (room_ops (fst (_handle_operation s alive ws message now)) rid) ->
      In op' (room_ops s rid) \/ op_timestamp op' = now).
Proof.
  split; [exact (from_dict_server_timestamp _ _ _ Hdecoded)|].
  split; [|split].
  - unfold _handle_operation. rewrite Hbound, Hallowed, Hroom.
    unfold RoomManager_get_room in Hroom.
    assert (Hap : exists st, LWWMap_apply (_state room) op = Ok (st, true)).
    { unfold LWWMap_apply. rewrite Hunseen. simpl.
      destruct Hkind as [-> | ->]; simpl; eexists; reflexivity. }
    destruct Hap as [st Hap].
    destruct (handle_operation_try s alive room (user_id user) message now)
      as [[s' effects]|e] eqn:Htry.
    + simpl.
      destruct (handle_operation_try_log _ _ _ _ _ _ _ _ Hroom Htry)
        as (op0 & applied & Hdec & [st0 Hap0] & Hsame & _).
      rewrite Hdecoded in Hdec. injection Hdec as <-.
      rewrite Hap in Hap0. injection Hap0 as _ <-. exact Hsame.
    + exfalso. unfold handle_operation_try in Htry. rewrite Hdecoded in Htry.
      simpl in Htry. unfold Room_apply_operation in Htry. rewrite Hap in Htry.
      simpl in Htry.
      destruct (RoomManager_broadcast_operation _ _ _ _ _ _); discriminate Htry.
  - intros d client_ts Hd. unfold _handle_operation, handle_operation_try. simpl.
    rewrite Hd. rewrite from_dict_ignores_client_timestamp. reflexivity.
  - intros rid op'. apply handle_operation_log_stamps.
Qed.

Lemma server_stamps_inbound_operations_witness :
  room_ops (fst (_handle_operation sample_server (fun _ => true) 7
                   sample_operation_message 10)) "r"
  = [mkOperation "c-1" 10 "u" ["k"] "set" (VInt 3)].
Proof.
  exact (proj1 (proj2 (server_stamps_inbound_operations
           sample_server (fun _ => true) 7 sample_operation_message 10
           sample_user (Room_init "r" None)
           (mkOperation "c-1" 10 "u" ["k"] "set" (VInt 3))
           eq_refl eq_refl eq_refl eq_refl eq_refl (or_introl eq_refl)))).
Defined.

(** ** C10: creating a room that exists *)

Lemma room_id_or_uuid_nonempty (rid : option string) (uid : string) :
  String.length uid = 36%nat -> room_id_or_uuid rid uid <> "".
Proof.
  intros Hlen. unfold room_id_or_uuid.
  destruct rid as [[|c r]|]; try discriminate; intros ->; discriminate.
Qed.

(** No reachable manager has a room under the empty id. *)
Lemma manager_reachable_no_empty_id (m : RoomManager) :
  manager_reachable m -> _rooms m !! "" = None.
Proof.
  induction 1 as [| m uid rid initial metadata _ IH Hlen | m rid _ IH | m f _ IH
                 | m _ IH | m cb _ IH | m rid r r' _ IH Hr]; simpl.
  - apply lookup_empty.
  - unfold RoomManager_create_room.
    destruct (_rooms m !! room_id_or_uuid rid uid); simpl; [exact IH|].
    rewrite lookup_insert_ne; [exact IH|].
    apply room_id_or_uuid_nonempty. exact Hlen.
  - unfold RoomManager_delete_room.
    destruct (_rooms m !! rid); simpl; [|exact IH].
    destruct (decide (rid = "")) as [->|Hne].
    + apply lookup_delete_eq.
    + rewrite lookup_delete_ne by exact Hne. exact IH.
  - rewrite lookup_fmap, IH. reflexivity.
  - apply map_lookup_filter_None. left. exact IH.
  - exact IH.
  - rewrite lookup_insert_ne; [exact IH|]. intros ->. congruence.
Qed.

(** C10. On a manager reached through its methods, [create_room] with the
    id of an existing room returns that room, leaves the manager (and with it
    every room) as it was, ignores [initial_state] and [metadata], and awaits
    no [on_room_created] callback. *)
Theorem create_room_existing_is_noop
    (m : RoomManager) (uid rid : string) (initial_state : option PyVal)
    (metadata : option (list (string * PyVal))) (room : Room)
    (Hreach : manager_reachable m)
    (Hexists : _rooms m !! rid = Some room) :
  RoomManager_create_room m uid (Some rid) initial_state metadata = (m, room, []).
Proof.
  assert (Hne : rid <> "").
  { intros ->. rewrite (manager_reachable_no_empty_id m Hreach) in Hexists.
    discriminate. }
  unfold RoomManager_create_room.
  assert (Hid : room_id_or_uuid (Some rid) uid = rid).
  { destruct rid; [contradiction | reflexivity]. }
  rewrite Hid, Hexists. reflexivity.
Qed.

Lemma create_room_existing_is_noop_witness :
  RoomManager_create_room sample_manager "00000000-0000-4000-8000-000000000000"
    (Some "lobby") (Some (VDict [("k", VInt 1)])) (Some [("owner", VStr "x")])
  = (sample_manager, Room_init "lobby" None, []).
Proof.
  apply (create_room_existing_is_noop sample_manager
           "00000000-0000-4000-8000-000000000000" "lobby"
           (Some (VDict [("k", VInt 1)])) (Some [("owner", VStr "x")])
           (Room_init "lobby" None)).
  - apply mgr_create; [apply mgr_init | reflexivity].
  - reflexivity.
Defined.

(** ** C8: the lockout of authentication attempts *)






Lemma attempts_of_insert (attempts : gmap Z Z) (ws n : Z) :
  attempts_of (<[ws := n]> attempts) ws = n.
Proof. unfold attempts_of. rewrite lookup_insert_eq. reflexivity. Qed.







(** ** C9: the token bucket *)

Lemma float_ge_iff (a b : Q) : float_ge a b = true <-> (b <= a)%Q.
Proof.
  unfold float_ge, float_lt. rewrite negb_true_iff. apply float_gt_false_iff.
Qed.

Lemma float_ge_false_iff (a b : Q) : float_ge a b = false <-> (a < b)%Q.
Proof.
  unfold float_ge, float_lt. rewrite negb_false_iff. apply float_gt_iff.
Qed.

Lemma float_min_le_l (a b : Q) : (float_min a b <= a)%Q.
Proof.
  unfold float_min, float_lt. destruct (float_gt a b) eqn:E.
  - apply float_gt_iff in E. lra.
  - lra.
Qed.

Lemma float_min_le_r (a b : Q) : (float_min a b <= b)%Q.
Proof.
  unfold float_min, float_lt. destruct (float_gt a b) eqn:E.
  - lra.
  - apply float_gt_false_iff in E. exact E.
Qed.

Lemma spendable_nonneg (q : Q) : (0 <= spendable q)%Q.
Proof.
  unfold spendable. destruct (float_gt q 0) eqn:E; [|lra].
  apply float_gt_iff in E. lra.
Qed.

Lemma spendable_ge (q : Q) : (q <= spendable q)%Q.
Proof.
  unfold spendable. destruct (float_gt q 0) eqn:E; [lra|].
  apply float_gt_false_iff in E. exact E.
Qed.

Lemma spendable_le (q bound : Q) : (0 <= bound)%Q -> (q <= bound)%Q -> (spendable q <= bound)%Q.
Proof.
  intros Hb Hq. unfold spendable. destruct (float_gt q 0); assumption.
Qed.

Lemma spendable_of_nonneg (q : Q) : (0 <= q)%Q -> (spendable q == q)%Q.
Proof.
  intros Hq. unfold spendable. destruct (float_gt q 0) eqn:E; [reflexivity|].
  apply float_gt_false_iff in E. lra.
Qed.

Lemma refill_rate_nonneg (l : RateLimiter) :
  (0 < window l)%Q -> (0 <= rate l)%Q -> (0 <= rate l / window l)%Q.
Proof.
  intros Hw Hr. apply Qle_shift_div_l; [exact Hw | lra].
Qed.

Lemma window_nonzero (l : RateLimiter) :
  (0 < window l)%Q -> Qeq_bool (window l) 0 = false.
Proof.
  intros Hw. destruct (Qeq_bool (window l) 0) eqn:E; [|reflexivity].
  apply Qeq_bool_iff in E. lra.
Qed.

(** One call, whatever the bucket held before: the frame accepted (if any)
    and the tokens left are together at most [rate]. *)
Lemma is_allowed_first (l : RateLimiter) (ws : Z) (now now_default : Q) :
  (0 < window l)%Q -> (0 <= rate l)%Q ->
  exists l' ok left,
    RateLimiter_is_allowed l ws now now_default = Ok (l', ok) /\
    rate l' = rate l /\ window l' = window l /\
    _tokens l' !! ws = Some left /\ _last_update l' !! ws = Some now /\
    (inject_Z (if ok then 1 else 0) + spendable left <= rate l)%Q.
Proof.
  intros Hw Hr. unfold RateLimiter_is_allowed. rewrite (window_nonzero l Hw).
  set (refilled := float_min (rate l) _).
  assert (Hle : (refilled <= rate l)%Q) by apply float_min_le_l.
  destruct (float_ge refilled 1) eqn:Hge.
  - apply float_ge_iff in Hge.
    eexists _, true, _. split; [reflexivity|]. simpl.
    rewrite !lookup_insert_eq. repeat split; try reflexivity.
    rewrite (spendable_of_nonneg (refilled - 1)) by lra.
    unfold inject_Z. lra.
  - apply float_ge_false_iff in Hge.
    eexists _, false, _. split; [reflexivity|]. simpl.
    rewrite !lookup_insert_eq. repeat split; try reflexivity.
    pose proof (spendable_le refilled (rate l) Hr Hle). unfold inject_Z. lra.
Qed.

(** One call on a channel last seen at [t] with [tokens] in its bucket, at
    a clock value not before [t]. *)
Lemma is_allowed_step (l : RateLimiter) (ws : Z) (now now_default t tokens : Q) :
  (0 < window l)%Q -> (0 <= rate l)%Q ->
  _last_update l !! ws = Some t -> _tokens l !! ws = Some tokens ->
  (t <= now)%Q ->
  exists l' ok left,
    RateLimiter_is_allowed l ws now now_default = Ok (l', ok) /\
    rate l' = rate l /\ window l' = window l /\
    _tokens l' !! ws = Some left /\ _last_update l' !! ws = Some now /\
    (inject_Z (if ok then 1 else 0) + spendable left
     <= spendable tokens + (rate l / window l) * (now - t))%Q.
Proof.
  intros Hw Hr Hlast Htok Hmono. unfold RateLimiter_is_allowed.
  rewrite (window_nonzero l Hw), Hlast, Htok.
  pose proof (refill_rate_nonneg l Hw Hr) as Hrr.
  set (r := (rate l / window l)%Q) in *.
  assert (Hgain : (0 <= (now - t) * r)%Q).
  { apply Qmult_le_0_compat; [lra | exact Hrr]. }
  set (refilled := float_min (rate l) _).
  assert (Hle : (refilled <= tokens + (now - t) * r)%Q) by apply float_min_le_r.
  pose proof (spendable_ge tokens) as Hsp.
  pose proof (spendable_nonneg tokens) as Hsp0.
  destruct (float_ge refilled 1) eqn:Hge.
  - apply float_ge_iff in Hge.
    eexists _, true, _. split; [reflexivity|]. simpl.
    rewrite !lookup_insert_eq. repeat split; try reflexivity.
    rewrite (spendable_of_nonneg (refilled - 1)) by lra.
    unfold inject_Z. lra.
  - apply float_ge_false_iff in Hge.
    eexists _, false, _. split; [reflexivity|]. simpl.
    rewrite !lookup_insert_eq. repeat split; try reflexivity.
    assert (Hs : (spendable refilled <= spendable tokens + (now - t) * r)%Q).
    { apply spendable_le; lra. }
    unfold inject_Z. lra.
Qed.

Lemma inject_Z_count (ok : bool) (n : nat) :
  (inject_Z (Z.of_nat ((if ok then 1 else 0) + n))
   == inject_Z (if ok then 1 else 0) + inject_Z (Z.of_nat n))%Q.
Proof.
  rewrite Nat2Z.inj_add, inject_Z_plus. destruct ok; reflexivity.
Qed.

Lemma last_nonempty_default {A : Type} (l : list A) (a d d' : A) :
  List.last (a :: l) d = List.last (a :: l) d'.
Proof.
  revert a. induction l as [|b l IH]; intros a; [reflexivity|].
  change (List.last (b :: l) d = List.last (b :: l) d'). apply IH.
Qed.

Lemma last_cons_default {A : Type} (l : list A) (a d : A) :
  List.last (a :: l) d = List.last l a.
Proof.
  destruct l as [|b l]; [reflexivity|].
  change (List.last (b :: l) d = List.last (b :: l) a). apply last_nonempty_default.
Qed.

(** A run on a channel last seen at [t]: the frames accepted and the tokens
    left are together at most the tokens at the start plus the refill over
    the span of the run. *)
Lemma run_limiter_from (ws : Z) (times : list (Q * Q)) :
  forall (l : RateLimiter) (t tokens : Q),
    (0 < window l)%Q -> (0 <= rate l)%Q ->
    _last_update l !! ws = Some t -> _tokens l !! ws = Some tokens ->
    nondecreasing_from t (map fst times) ->
    exists l' n left,
      run_limiter l ws times = Ok (l', n) /\
      _tokens l' !! ws = Some left /\
      (inject_Z (Z.of_nat n) + spendable left
       <= spendable tokens + (rate l / window l) * (List.last (map fst times) t - t))%Q.
Proof.
  induction times as [|[now now_default] times IH];
    intros l t tokens Hw Hr Hlast Htok Hmono.
  - exists l, 0%nat, tokens. split; [reflexivity|]. split; [exact Htok|].
    simpl. change (inject_Z (Z.of_nat 0)) with 0%Q.
    set (r := (rate l / window l)%Q). lra.
  - destruct Hmono as [Hle Hmono]. simpl in Hle.
    destruct (is_allowed_step l ws now now_default t tokens Hw Hr Hlast Htok Hle)
      as (l1 & ok & left1 & Hcall & Hrate & Hwin & Htok1 & Hlast1 & Hstep).
    destruct (IH l1 now left1 ltac:(rewrite Hwin; exact Hw) ltac:(rewrite Hrate; exact Hr)
                Hlast1 Htok1 Hmono)
      as (l2 & n & left2 & Hrun & Htok2 & Hrest).
    exists l2, ((if ok then 1 else 0) + n)%nat, left2.
    split; [simpl; rewrite Hcall; simpl; rewrite Hrun; reflexivity|].
    split; [exact Htok2|].
    rewrite inject_Z_count. rewrite Hrate, Hwin in Hrest.
    change (map fst ((now, now_default) :: times)) with (now :: map fst times).
    rewrite last_cons_default.
    set (r := (rate l / window l)%Q) in *.
    set (tn := List.last (map fst times) now) in *.
    lra.
Qed.

(** C9 (amended). For a limiter with a positive window and a non-negative
    rate, whatever it did before, over any run of calls of [is_allowed] for
    one channel at clock values that do not go back, first at [t1] and last
    at [tn], the frames accepted number at most
    [rate + (rate / window) * (tn - t1)]: the bucket may be full at [t1] and
    is refilled during the run. With the window of 1 second the server uses
    and calls within one second that is at most [2 * rate], not [rate + 1]. *)
Theorem accepted_frames_bound
    (l : RateLimiter) (ws : Z) (t1 d1 : Q) (rest : list (Q * Q))
    (Hwindow : (0 < window l)%Q)
    (Hrate : (0 <= rate l)%Q)
    (Hmono : nondecreasing_from t1 (map fst rest)) :
  exists l' n,
    run_limiter l ws ((t1, d1) :: rest) = Ok (l', n) /\
    (inject_Z (Z.of_nat n)
     <= rate l + (rate l / window l) * (List.last (map fst rest) t1 - t1))%Q /\
    ((window l == 1)%Q -> (List.last (map fst rest) t1 - t1 <= 1)%Q ->
     (inject_Z (Z.of_nat n) <= 2 * rate l)%Q).
Proof.
  destruct (is_allowed_first l ws t1 d1 Hwindow Hrate)
    as (l1 & ok & left1 & Hcall & Hr1 & Hw1 & Htok1 & Hlast1 & Hfirst).
  destruct (run_limiter_from ws rest l1 t1 left1
              ltac:(rewrite Hw1; exact Hwindow) ltac:(rewrite Hr1; exact Hrate)
              Hlast1 Htok1 Hmono)
    as (l2 & n & left2 & Hrun & _ & Hrest).
  exists l2, ((if ok then 1 else 0) + n)%nat.
  split; [simpl; rewrite Hcall; simpl; rewrite Hrun; reflexivity|].
  rewrite Hr1, Hw1 in Hrest.
  pose proof (spendable_nonneg left2) as Hleft.
  assert (Hbound : (inject_Z (Z.of_nat ((if ok then 1 else 0) + n))
                    <= rate l + (rate l / window l) * (List.last (map fst rest) t1 - t1))%Q).
  { rewrite inject_Z_count.
    set (r := (rate l / window l)%Q) in *.
    set (tn := List.last (map fst rest) t1) in *.
    lra. }
  split; [exact Hbound|].
  intros Hone Hspan.
  assert (Hr : (rate l / window l == rate l)%Q).
  { rewrite Hone. field. }
  rewrite Hr in Hbound.
  assert (Hprod : (rate l * (List.last (map fst rest) t1 - t1) <= rate l * 1)%Q).
  { rewrite (Qmult_comm (rate l) _), (Qmult_comm (rate l) 1).
    apply Qmult_le_compat_r; assumption. }
  lra.
Qed.

Lemma accepted_frames_bound_witness :
  exists l' n,
    run_limiter default_limiter 7 ((0%Q, 0%Q) :: tl burst_times) = Ok (l', n) /\
    (inject_Z (Z.of_nat n)
     <= rate default_limiter
        + (rate default_limiter / window default_limiter)
          * (List.last (map fst (tl burst_times)) 0 - 0))%Q /\
    ((window default_limiter == 1)%Q ->
     (List.last (map fst (tl burst_times)) 0 - 0 <= 1)%Q ->
     (inject_Z (Z.of_nat n) <= 2 * rate default_limiter)%Q).
Proof.
  apply (accepted_frames_bound default_limiter 7 0 0 (tl burst_times)).
  - reflexivity.
  - discriminate.
  - vm_compute. repeat split; discriminate.
Defined.

(** C9 as stated fails: on a new channel with the default rate of 100 per
    second, 200 frames arriving 5 ms apart (all within the 0.995 s after the
    first) are accepted far more often than [rate + 1 = 101] times. *)
Lemma burst_accepts_more_than_rate_plus_one :
  exists l' n,
    run_limiter default_limiter 7 burst_times = Ok (l', n) /\
    forallb (fun t => float_ge (fst t) 0 && float_lt (fst t) 1) burst_times = true /\
    n = 199%nat /\
    (rate default_limiter + 1 < inject_Z (Z.of_nat n))%Q.
Proof.
  eexists _, _. split; [vm_compute; reflexivity|].
  split; [vm_compute; reflexivity|].
  split; [reflexivity|]. reflexivity.
Qed.

(** ** C6: add wins in the OR-Set *)

Section PySetFacts.
Context {A : Type} `{EqDecision A}.

Lemma pyset_mem_In (x : A) (s : list A) : pyset_mem x s = true <-> In x s.
Proof.
  induction s as [|y s IH]; simpl.
  - split; [discriminate | contradiction].
  - destruct (decide (x = y)) as [->|Hne].
    + split; auto.
    + rewrite IH. split; [auto|]. intros [Heq | Hin]; [congruence | exact Hin].
Qed.

Lemma pyset_add_In (x : A) (s : list A) : In x (pyset_add x s).
Proof.
  unfold pyset_add. destruct (pyset_mem x s) eqn:E.
  - apply pyset_mem_In. exact E.
  - apply in_or_app. right. left. reflexivity.
Qed.

Lemma pyset_add_incl (x y : A) (s : list A) : In y s -> In y (pyset_add x s).
Proof.
  intros Hin. unfold pyset_add. destruct (pyset_mem x s); [exact Hin|].
  apply in_or_app. left. exact Hin.
Qed.

Lemma pyset_add_inv (x y : A) (s : list A) : In y (pyset_add x s) -> y = x \/ In y s.
Proof.
  unfold pyset_add. destruct (pyset_mem x s); [auto|].
  intros Hin. apply in_app_or in Hin. destruct Hin as [Hin | [-> | []]]; auto.
Qed.
End PySetFacts.

Lemma od_set_In_inv {K V : Type} `{EqDecision K} (k k' : K) (v v' : V)
    (d : list (K * V)) :
  In (k', v') (od_set k v d) -> (k', v') = (k, v) \/ In (k', v') d.
Proof.
  induction d as [|[k0 v0] d IH]; simpl.
  - intros [Heq | []]. left. symmetry. exact Heq.
  - destruct (decide (k = k0)) as [->|Hne]; simpl.
    + intros [Heq | Hin]; [left; symmetry; exact Heq | right; right; exact Hin].
    + intros [Heq | Hin]; [right; left; exact Heq|].
      destruct (IH Hin) as [Heq | Hin']; [left; exact Heq | right; right; exact Hin'].
Qed.

Section ORSetFacts.
Variable _hash_value : PyVal -> string.

Lemma add_tags_inv (tags removed removed' : list PyVal) :
  add_tags tags removed = Ok removed' ->
  forall t, In t removed' -> In t removed \/ In t tags.
Proof.
  revert removed. induction tags as [|tag tags IH]; intros removed H t Hin; simpl in H.
  - injection H as <-. left. exact Hin.
  - destruct (hashable tag); [|discriminate H].
    destruct (IH _ H t Hin) as [Hin' | Hin'].
    + apply pyset_add_inv in Hin'. destruct Hin' as [-> | Hin']; [right; left; reflexivity|].
      left. exact Hin'.
    + right. right. exact Hin'.
Qed.

Lemma orset_inv_init (node : string) : orset_inv _hash_value (ORSet_init node).
Proof.
  repeat split; simpl; intros; contradiction.
Qed.

Lemma orset_inv_apply_add (s s' : ORSet) (op : Operation) :
  orset_inv _hash_value s ->
  op_type op = "add" ->
  ORSet_apply_add _hash_value s op = Ok s' ->
  orset_inv _hash_value
    {| set_base := _record_operation (set_base s') op;
       _elements := _elements s'; _removed_tags := _removed_tags s' |}.
Proof.
  intros (I1 & I2 & I3) Hty H. unfold ORSet_apply_add in H.
  destruct (hashable (op_value op)) eqn:Hh; [|discriminate H].
  injection H as <-. simpl.
  set (h := _hash_value (op_value op)) in *.
  set (group := match od_get h (_elements s) with Some g => g | None => [] end) in *.
  repeat split; simpl.
  - intros a Hin Hat. apply in_app_or in Hin. destruct Hin as [Hin | [<- | []]].
    + destruct (I1 a Hin Hat) as (g & Hg & Hing).
      destruct (decide (h = _hash_value (op_value a))) as [Heq | Hne].
      * rewrite <- Heq. rewrite od_get_set_eq. eexists. split; [reflexivity|].
        apply pyset_add_incl. unfold group. rewrite Heq, Hg. exact Hing.
      * rewrite od_get_set_ne by exact Hne. exists g. split; assumption.
    + fold h. rewrite od_get_set_eq. eexists. split; [reflexivity|].
      apply pyset_add_In.
  - intros t Hin. destruct (I2 t Hin) as (r & Hr & Hrt & Htag).
    exists r. split; [apply in_or_app; left; exact Hr|]. split; assumption.
  - apply od_set_In_inv in H. destruct H as [[= -> ->] | Hold].
    + apply pyset_add_inv in H0. destruct H0 as [[= -> ->] | Hg]; [reflexivity|].
      unfold group in Hg. destruct (od_get h (_elements s)) as [g|] eqn:Eg; [|contradiction].
      apply od_get_In in Eg. exact (proj1 (I3 h g Eg t w Hg)).
    + exact (proj1 (I3 h0 group0 Hold t w H0)).
  - apply od_set_In_inv in H. destruct H as [[= -> ->] | Hold].
    + apply pyset_add_inv in H0. destruct H0 as [[= -> ->] | Hg]; [exact Hh|].
      unfold group in Hg. destruct (od_get h (_elements s)) as [g|] eqn:Eg; [|contradiction].
      apply od_get_In in Eg. exact (proj1 (proj2 (I3 h g Eg t w Hg))).
    + exact (proj1 (proj2 (I3 h0 group0 Hold t w H0))).
  - apply od_set_In_inv in H. destruct H as [[= -> ->] | Hold].
    + apply pyset_add_inv in H0. destruct H0 as [[= -> ->] | Hg].
      * exists op. split; [apply in_or_app; right; left; reflexivity|]. split; [exact Hty | reflexivity].
      * unfold group in Hg. destruct (od_get h (_elements s)) as [g|] eqn:Eg; [|contradiction].
        apply od_get_In in Eg.
        destruct (proj2 (proj2 (I3 h g Eg t w Hg))) as (b & Hb & Hbt & Hbv).
        exists b. split; [apply in_or_app; left; exact Hb|]. split; assumption.
    + destruct (proj2 (proj2 (I3 h0 group0 Hold t w H0))) as (b & Hb & Hbt & Hbv).
      exists b. split; [apply in_or_app; left; exact Hb|]. split; assumption.
Qed.

Lemma orset_inv_apply_remove (s s' : ORSet) (op : Operation) :
  orset_inv _hash_value s ->
  op_type op = "remove" ->
  ORSet_apply_remove s op = Ok s' ->
  orset_inv _hash_value
    {| set_base := _record_operation (set_base s') op;
       _elements := _elements s'; _removed_tags := _removed_tags s' |}.
Proof.
  intros (I1 & I2 & I3) Hty H. unfold ORSet_apply_remove in H.
  destruct (remove_tags_of (op_value op)) as [tags_v|] eqn:E1; simpl in H; [|discriminate H].
  destruct (iter_items tags_v) as [tags|] eqn:E2; simpl in H; [|discriminate H].
  destruct (add_tags tags (_removed_tags s)) as [removed|] eqn:E3; simpl in H; [|discriminate H].
  injection H as <-. simpl.
  repeat split; simpl.
  - intros a Hin Hat. apply in_app_or in Hin. destruct Hin as [Hin | [<- | []]].
    + exact (I1 a Hin Hat).
    + rewrite Hty in Hat. discriminate Hat.
  - intros t Hin. destruct (add_tags_inv _ _ _ E3 t Hin) as [Hold | Hnew].
    + destruct (I2 t Hold) as (r & Hr & Hrt & Htag).
      exists r. split; [apply in_or_app; left; exact Hr|]. split; assumption.
    + exists op. split; [apply in_or_app; right; left; reflexivity|].
      split; [exact Hty|]. unfold carried_tags. rewrite E1, E2. exact Hnew.
  - exact (proj1 (I3 h group H t w H0)).
  - exact (proj1 (proj2 (I3 h group H t w H0))).
  - destruct (proj2 (proj2 (I3 h group H t w H0))) as (b & Hb & Hbt & Hbv).
    exists b. split; [apply in_or_app; left; exact Hb|]. split; assumption.
Qed.

Lemma orset_inv_apply (s s' : ORSet) (op : Operation) (b : bool) :
  orset_inv _hash_value s ->
  ORSet_apply _hash_value s op = Ok (s', b) ->
  orset_inv _hash_value s'.
Proof.
  intros Hinv H. unfold ORSet_apply in H.
  destruct (_has_seen (set_base s) op); [injection H as <- <-; exact Hinv|].
  destruct (String.eqb (op_type op) "add") eqn:Eadd.
  - apply String.eqb_eq in Eadd.
    destruct (ORSet_apply_add _hash_value s op) as [s1|] eqn:E1; simpl in H; [|discriminate H].
    injection H as <- <-. exact (orset_inv_apply_add s s1 op Hinv Eadd E1).
  - destruct (String.eqb (op_type op) "remove") eqn:Erem; [|discriminate H].
    apply String.eqb_eq in Erem.
    destruct (ORSet_apply_remove s op) as [s1|] eqn:E1; simpl in H; [|discriminate H].
    injection H as <- <-. exact (orset_inv_apply_remove s s1 op Hinv Erem E1).
Qed.

Lemma orset_inv_apply_all (ops : list Operation) :
  forall s s', orset_inv _hash_value s ->
               ORSet_apply_all _hash_value s ops = Ok s' ->
               orset_inv _hash_value s'.
Proof.
  induction ops as [|op ops IH]; intros s s' Hinv H; simpl in H.
  - injection H as <-. exact Hinv.
  - destruct (ORSet_apply _hash_value s op) as [[s1 b]|] eqn:E; simpl in H; [|discriminate H].
    exact (IH s1 s' (orset_inv_apply s s1 op b Hinv E) H).
Qed.

Lemma first_surviving_In (removed : list PyVal) (group : list (string * PyVal))
    (v : PyVal) :
  first_surviving removed group = Some v -> exists t, In (t, v) group.
Proof.
  unfold first_surviving.
  destruct (find _ group) as [[t w]|] eqn:E; [|discriminate].
  intros [= <-]. exists t. exact (proj1 (find_some _ _ E)).
Qed.

(** [value()] returns, and holds the first surviving value of every
    group, when the stored values are hashable. *)
Lemma value_loop_total (removed : list PyVal)
    (groups : list (string * list (string * PyVal))) :
  (forall h g, In (h, g) groups -> forall t w, In (t, w) g -> hashable w = true) ->
  forall result,
  exists l,
    value_loop removed result groups = Ok l /\
    (forall x, In x result -> In x l) /\
    (forall h g v, In (h, g) groups -> first_surviving removed g = Some v -> In v l).
Proof.
  induction groups as [|[h0 g0] groups IH]; intros Hhash result.
  - exists result. split; [reflexivity|]. split; [auto|]. intros h g v [].
  - assert (Hstep : exists r1, value_step removed result g0 = Ok r1 /\
                               (forall x, In x result -> In x r1) /\
                               (forall v, first_surviving removed g0 = Some v -> In v r1)).
    { unfold value_step. destruct (first_surviving removed g0) as [val|] eqn:Ef.
      - destruct (first_surviving_In _ _ _ Ef) as [t Hin].
        rewrite (Hhash h0 g0 (or_introl eq_refl) t val Hin).
        eexists. split; [reflexivity|]. split.
        + intros x Hx. apply pyset_add_incl. exact Hx.
        + intros v [= <-]. apply pyset_add_In.
      - exists result. split; [reflexivity|]. split; [auto | discriminate]. }
    destruct Hstep as (r1 & Hs & Hincl & Hfirst).
    destruct (IH (fun h g Hin => Hhash h g (or_intror Hin)) r1) as (l & Hl & Hkeep & Hall).
    exists l. split; [simpl; rewrite Hs; simpl; exact Hl|]. split.
    + intros x Hx. apply Hkeep. apply Hincl. exact Hx.
    + intros h g v [[= -> ->] | Hin] Hf.
      * apply Hkeep. apply Hfirst. exact Hf.
      * exact (Hall h g v Hin Hf).
Qed.
End ORSetFacts.

(** C6. In an OR-Set built by applying operations, let an add operation for
    [v] be in the log (it was applied) and let its tag, the operation id,
    occur in the tag list of no remove operation of the log. Then [value()]
    returns and [v] is an element of the result, whatever removes were
    applied and in whatever order. The digest [_hash_value] is taken free of
    collisions between [v] and the other added values. *)
Theorem orset_add_wins
    (_hash_value : PyVal -> string) (node : string) (ops : list Operation)
    (s : ORSet) (a : Operation)
    (Hrun : ORSet_apply_all _hash_value (ORSet_init node) ops = Ok s)
    (Hlogged : In a (_operations (set_base s)))
    (Hadd : op_type a = "add")
    (Hunobserved : forall r, In r (_operations (set_base s)) ->
                             op_type r = "remove" ->
                             ~ In (VStr (op_id a)) (carried_tags r))
    (Hdigest : forall b, In b (_operations (set_base s)) -> op_type b = "add" ->
                         _hash_value (op_value b) = _hash_value (op_value a) ->
                         op_value b = op_value a) :
  exists l, ORSet_value s = Ok l /\ In (op_value a) l.
Proof.
  pose proof (orset_inv_apply_all _hash_value ops _ _
                (orset_inv_init _hash_value node) Hrun) as (I1 & I2 & I3).
  destruct (I1 a Hlogged Hadd) as (group & Hget & Hin).
  apply od_get_In in Hget.
  destruct (value_loop_total (_removed_tags s) (_elements s)
              (fun h g Hg t w Hw => proj1 (proj2 (I3 h g Hg t w Hw))) [])
    as (l & Hl & _ & Hall).
  exists l. split; [exact Hl|].
  apply (Hall _ group (op_value a) Hget).
  unfold first_surviving.
  assert (Hsurvives : negb (pyset_mem (VStr (op_id a)) (_removed_tags s)) = true).
  { apply negb_true_iff. destruct (pyset_mem _ _) eqn:E; [|reflexivity].
    exfalso. apply pyset_mem_In in E.
    destruct (I2 _ E) as (r & Hr & Hrt & Htag). exact (Hunobserved r Hr Hrt Htag). }
  destruct (find _ group) as [[t w]|] eqn:Ef.
  - destruct (find_some _ _ Ef) as [Hw _].
    destruct (I3 _ group Hget t w Hw) as (Hh & _ & b & Hb & Hbt & Hbv).
    f_equal. rewrite <- Hbv. apply Hdigest; [exact Hb | exact Hbt|].
    rewrite Hbv. exact Hh.
  - exfalso. pose proof (find_none _ _ Ef _ Hin) as Hnone. simpl in Hnone.
    rewrite Hsurvives in Hnone. discriminate Hnone.
Qed.

Lemma orset_add_wins_witness :
  exists l, ORSet_value sample_orset = Ok l /\ In (VStr "x") l.
Proof.
  apply (orset_add_wins sample_hash "C" [orset_add_a; orset_remove_a; orset_add_b]
           sample_orset orset_add_b).
  - reflexivity.
  - simpl. right. right. left. reflexivity.
  - reflexivity.
  - simpl. intros r [<- | [<- | [<- | []]]] Hty; try discriminate Hty.
    simpl. intros [Heq | []]. discriminate Heq.
  - simpl. intros b [<- | [<- | [<- | []]]] Hty _;
      try reflexivity; discriminate Hty.
Defined.

(* ===================================================================== *)
(** * Part III: further properties of the code *)
(* ===================================================================== *)

(** ** Operations and their dictionaries *)

Lemma as_str_list_strs (l : list string) : as_str_list (map VStr l) = Ok l.
Proof.
  induction l as [|s l IH]; simpl; [reflexivity|]. rewrite IH. reflexivity.
Qed.

Lemma from_dict_to_dict (op : Operation) (use_server : bool) (now : Q) :
  Operation_from_dict (Operation_to_dict op) use_server now
  = Ok (if use_server then with_timestamp op now else op).
Proof.
  destruct op as [i ts n p ty v]. unfold Operation_from_dict, Operation_to_dict.
  simpl. rewrite as_str_list_strs. destruct use_server; reflexivity.
Qed.

(** X1. [Operation.from_dict] undoes [Operation.to_dict]: with
    [use_server_timestamp=False] it gives the operation back, and with the
    default [True] it gives the operation back with only its timestamp
    replaced by the clock value. *)
Theorem operation_dict_round_trip (op : Operation) (now : Q) :
  Operation_from_dict (Operation_to_dict op) false now = Ok op /\
  Operation_from_dict (Operation_to_dict op) true now = Ok (with_timestamp op now).
Proof.
  split; apply from_dict_to_dict.
Qed.

(** ** Duplicates *)

Lemma has_seen_after_record (c : CRDT) (op op' : Operation) :
  _has_seen (_record_operation c op) op'
  = _has_seen c op' || String.eqb (op_id op) (op_id op').
Proof.
  unfold _has_seen, _record_operation. simpl.
  rewrite existsb_app. simpl. rewrite orb_false_r. reflexivity.
Qed.

Lemma has_seen_recorded (c : CRDT) (op : Operation) :
  _has_seen (_record_operation c op) op = true.
Proof.
  rewrite has_seen_after_record, String.eqb_refl. apply orb_true_r.
Qed.

Lemma LWWMap_apply_base (m : LWWMap) (op : Operation) (m' : LWWMap) :
  LWWMap_apply m op = Ok (m', true) ->
  map_base m' = _record_operation (map_base m) op.
Proof.
  unfold LWWMap_apply. destruct (_has_seen (map_base m) op); [discriminate|].
  simpl. intros H. bind_inv H. injection H as <-. simpl.
  destruct (String.eqb (op_type op) "set").
  - injection E as <-. reflexivity.
  - destruct (String.eqb (op_type op) "delete"); [|discriminate E].
    injection E as <-. reflexivity.
Qed.

Lemma LWWRegister_apply_base (r : LWWRegister) (op : Operation) (r' : LWWRegister) :
  LWWRegister_apply r op = Ok (r', true) ->
  reg_base r' = _record_operation (reg_base r) op.
Proof.
  unfold LWWRegister_apply. destruct (_has_seen (reg_base r) op); [discriminate|].
  destruct (negb (String.eqb (op_type op) "set")); [discriminate|].
  intros [= <-]. reflexivity.
Qed.

Lemma ORSet_apply_base (h : PyVal -> string) (s : ORSet) (op : Operation) (s' : ORSet) :
  ORSet_apply h s op = Ok (s', true) ->
  set_base s' = _record_operation (set_base s) op.
Proof.
  unfold ORSet_apply. destruct (_has_seen (set_base s) op); [discriminate|].
  intros H. bind_inv H. injection H as <-. simpl.
  destruct (String.eqb (op_type op) "add").
  - unfold ORSet_apply_add in E. destruct (hashable (op_value op)); [|discriminate E].
    injection E as <-. reflexivity.
  - destruct (String.eqb (op_type op) "remove"); [|discriminate E].
    unfold ORSet_apply_remove in E. repeat bind_inv E. injection E as <-. reflexivity.
Qed.

(** X2. [apply] is idempotent on the operation id, for the map, the
    register and the set alike: once an operation has been applied, applying
    any operation that carries the same id (the same one again, or another
    one) returns [False] and changes nothing. *)
Theorem apply_same_id_again_is_dropped
    (h : PyVal -> string)
    (m m' : LWWMap) (map_op map_again : Operation)
    (r r' : LWWRegister) (reg_op reg_again : Operation)
    (s s' : ORSet) (set_op set_again : Operation)
    (Hmap_id : op_id map_again = op_id map_op)
    (Hmap : LWWMap_apply m map_op = Ok (m', true))
    (Hreg_id : op_id reg_again = op_id reg_op)
    (Hreg : LWWRegister_apply r reg_op = Ok (r', true))
    (Hset_id : op_id set_again = op_id set_op)
    (Hset : ORSet_apply h s set_op = Ok (s', true)) :
  LWWMap_apply m' map_again = Ok (m', false) /\
  LWWRegister_apply r' reg_again = Ok (r', false) /\
  ORSet_apply h s' set_again = Ok (s', false).
Proof.
  assert (Hseen : forall c op again,
             op_id again = op_id op -> _has_seen (_record_operation c op) again = true).
  { intros c op again Hid. rewrite has_seen_after_record, Hid, String.eqb_refl.
    apply orb_true_r. }
  split; [|split].
  - unfold LWWMap_apply.
    rewrite (LWWMap_apply_base _ _ _ Hmap), (Hseen _ _ _ Hmap_id). reflexivity.
  - unfold LWWRegister_apply.
    rewrite (LWWRegister_apply_base _ _ _ Hreg), (Hseen _ _ _ Hreg_id). reflexivity.
  - unfold ORSet_apply.
    rewrite (ORSet_apply_base _ _ _ _ Hset), (Hseen _ _ _ Hset_id). reflexivity.
Qed.

Lemma apply_same_id_again_is_dropped_witness :
  LWWMap_apply applied_map sample_logged_op = Ok (applied_map, false) /\
  LWWRegister_apply applied_register sample_reg_op = Ok (applied_register, false) /\
  ORSet_apply sample_hash applied_set sample_add_op = Ok (applied_set, false).
Proof.
  apply (apply_same_id_again_is_dropped sample_hash
           sample_map applied_map sample_logged_op sample_logged_op
           (LWWRegister_init "n" VNone) applied_register sample_reg_op sample_reg_op
           (ORSet_init "n") applied_set sample_add_op sample_add_op);
    reflexivity.
Defined.

(** ** The version vector *)

Lemma float_max_ge_l (a b : Q) : (a <= float_max a b)%Q.
Proof.
  unfold float_max. destruct (float_gt b a) eqn:E; [|lra].
  apply float_gt_iff in E. lra.
Qed.

Lemma float_max_ge_r (a b : Q) : (b <= float_max a b)%Q.
Proof.
  unfold float_max. destruct (float_gt b a) eqn:E; [lra|].
  apply float_gt_false_iff in E. exact E.
Qed.

Lemma vv_get_update_eq (vv : VersionVector) (n : string) (t : Q) :
  VersionVector_get (VersionVector_update vv n t) n
  = float_max (VersionVector_get vv n) t.
Proof.
  unfold VersionVector_update, VersionVector_get at 1. rewrite od_get_set_eq.
  reflexivity.
Qed.

Lemma vv_get_update_ne (vv : VersionVector) (n n' : string) (t : Q) :
  n <> n' ->
  VersionVector_get (VersionVector_update vv n t) n' = VersionVector_get vv n'.
Proof.
  intros Hne. unfold VersionVector_update, VersionVector_get.
  rewrite od_get_set_ne by exact Hne. reflexivity.
Qed.

Lemma vv_update_mono (vv : VersionVector) (n n' : string) (t : Q) :
  (VersionVector_get vv n' <= VersionVector_get (VersionVector_update vv n t) n')%Q.
Proof.
  destruct (decide (n = n')) as [->|Hne].
  - rewrite vv_get_update_eq. apply float_max_ge_l.
  - rewrite vv_get_update_ne by exact Hne. lra.
Qed.

(** X3. The version vector of an instance dominates its log: whatever
    operations were recorded, in whatever order, the entry of every
    operation's origin is at least that operation's timestamp. *)
Theorem version_vector_dominates_log (c : CRDT) (op : Operation)
    (Hlogged : crdt_logged c)
    (Hin : In op (_operations c)) :
  (op_timestamp op <= VersionVector_get (_version_vector c) (op_node_id op))%Q.
Proof.
  induction Hlogged as [node | c op0 _ IH]; simpl in Hin; [contradiction|].
  apply in_app_or in Hin. simpl.
  destruct Hin as [Hin | [<- | []]].
  - eapply Qle_trans; [exact (IH Hin)|]. apply vv_update_mono.
  - rewrite vv_get_update_eq. apply float_max_ge_r.
Qed.

Lemma version_vector_dominates_log_witness :
  (5 <= VersionVector_get
          (_version_vector (_record_operation (CRDT_init "n") sample_logged_op)) "n")%Q.
Proof.
  apply (version_vector_dominates_log
           (_record_operation (CRDT_init "n") sample_logged_op) sample_logged_op).
  - apply logged_record. apply logged_init.
  - simpl. left. reflexivity.
Defined.

(** ** Rebuilding from a state dictionary *)

Lemma from_dict_all_to_dict (ops : list Operation) (clock : nat -> Q) (k : nat) :
  from_dict_all (map Operation_to_dict ops) clock k = Ok (restamp ops clock k).
Proof.
  revert k. induction ops as [|op ops IH]; intros k; simpl; [reflexivity|].
  rewrite from_dict_to_dict. simpl. rewrite IH. reflexivity.
Qed.

(** X4. [LWWRegister.from_state] always succeeds on what
    [LWWRegister.state] returns, and the rebuilt register holds the same
    current (value, timestamp, origin), hence the same [value()]; its log
    has the same operations in the same order, each stamped with the clock
    of the rebuild, and its version vector is empty. *)
Theorem register_state_round_trip (r : LWWRegister) (node : string) (clock : nat -> Q) :
  exists d,
    LWWRegister_from_state node (LWWRegister_state r) clock = Ok d /\
    _current d = _current r /\
    LWWRegister_value d = LWWRegister_value r /\
    _operations (reg_base d) = restamp (_operations (reg_base r)) clock 0 /\
    _version_vector (reg_base d) = [].
Proof.
  destruct r as [base [v t n]].
  unfold LWWRegister_from_state, LWWRegister_state. simpl.
  rewrite from_dict_all_to_dict. simpl. eexists. split; [reflexivity|].
  repeat split; reflexivity.
Qed.

(** ** Joining and splitting paths *)

Lemma dot_free_cons (c : ascii) (s : string) :
  dot_free (String c s) <-> c <> "."%char /\ dot_free s.
Proof.
  unfold dot_free. simpl. split.
  - intros H. inversion H; subst. split; assumption.
  - intros [Hc Hs]. constructor; assumption.
Qed.

Lemma str_split_dot_free (s : string) :
  dot_free s -> str_split "." s = [s].
Proof.
  induction s as [|c s IH]; intros H; simpl; [reflexivity|].
  apply dot_free_cons in H. destruct H as [Hc Hs].
  destruct (Ascii.eqb c ".") eqn:E; [apply Ascii.eqb_eq in E; contradiction|].
  rewrite (IH Hs). reflexivity.
Qed.

Lemma str_split_append (s t : string) :
  dot_free s ->
  str_split "." (s ++ String "." t) = s :: str_split "." t.
Proof.
  induction s as [|c s IH]; intros H; simpl; [reflexivity|].
  apply dot_free_cons in H. destruct H as [Hc Hs].
  destruct (Ascii.eqb c ".") eqn:E; [apply Ascii.eqb_eq in E; contradiction|].
  rewrite (IH Hs). reflexivity.
Qed.

Lemma str_split_join (seg : string) (path : list string) :
  Forall dot_free (seg :: path) ->
  str_split "." (str_join "." (seg :: path)) = seg :: path.
Proof.
  revert seg. induction path as [|seg' path IH]; intros seg H.
  - inversion H; subst. simpl. apply str_split_dot_free. assumption.
  - inversion H as [|? ? Hseg Hrest]; subst.
    change (str_join "." (seg :: seg' :: path))
      with (seg ++ String "." (str_join "." (seg' :: path))).
    rewrite (str_split_append _ _ Hseg), (IH seg' Hrest). reflexivity.
Qed.

Lemma append_dot_nonempty (s t : string) : s ++ String "." t <> "".
Proof. destruct s; discriminate. Qed.

(** The key of [state()] leads back to the path. *)
Lemma path_of_str_join (path : Path) :
  path_survives path -> path_of_str (str_join "." path) = path.
Proof.
  intros [Hfree Hne]. destruct path as [|seg path]; [reflexivity|].
  pose proof (str_split_join seg path Hfree) as Hsplit.
  unfold path_of_str. destruct (str_join "." (seg :: path)) eqn:E; [|exact Hsplit].
  exfalso. destruct path as [|seg' path].
  - simpl in E. subst seg. apply Hne. reflexivity.
  - change (str_join "." (seg :: seg' :: path))
      with (seg ++ String "." (str_join "." (seg' :: path))) in E.
    exact (append_dot_nonempty _ _ E).
Qed.

Section FoldSet.
Context {K K' V : Type} `{EqDecision K'}.

Lemma od_get_app_None (k : K') (d d' : list (K' * V)) :
  od_get k d = None -> od_get k (d ++ d') = od_get k d'.
Proof.
  induction d as [|[k0 v0] d IH]; simpl; [reflexivity|].
  destruct (decide (k = k0)); [discriminate | exact IH].
Qed.

Lemma od_set_fresh (k : K') (v : V) (d : list (K' * V)) :
  od_get k d = None -> od_set k v d = (d ++ [(k, v)])%list.
Proof.
  induction d as [|[k0 v0] d IH]; simpl; [reflexivity|].
  destruct (decide (k = k0)); [discriminate|]. intros H. rewrite (IH H). reflexivity.
Qed.

Lemma od_get_None_not_key (k : K') (d : list (K' * V)) :
  ~ In k (map fst d) -> od_get k d = None.
Proof.
  induction d as [|[k0 v0] d IH]; simpl; [reflexivity|].
  intros Hn. destruct (decide (k = k0)) as [->|Hne].
  - exfalso. apply Hn. left. reflexivity.
  - apply IH. intros Hin. apply Hn. right. exact Hin.
Qed.

(** Storing items whose keys are all different and all new appends them in
    order. *)
Lemma fold_od_set_fresh (f : K -> K') (l : list (K * V)) :
  forall acc : list (K' * V),
    List.NoDup (map f (map fst l)) ->
    (forall k, In k (map fst l) -> od_get (f k) acc = None) ->
    fold_left (fun acc kv => od_set (f (fst kv)) (snd kv) acc) l acc
    = (acc ++ map (fun kv => (f (fst kv), snd kv)) l)%list.
Proof.
  induction l as [|[k v] l IH]; intros acc Hnd Hfresh; simpl.
  - rewrite app_nil_r. reflexivity.
  - simpl in Hnd. inversion Hnd as [|? ? Hnotin Hnd']; subst.
    rewrite (od_set_fresh (f k) v acc (Hfresh k (or_introl eq_refl))).
    rewrite IH; [rewrite <- app_assoc; reflexivity | exact Hnd' |].
    intros k' Hk'. rewrite od_get_app_None by (apply Hfresh; right; exact Hk').
    simpl. destruct (decide (f k' = f k)) as [Heq|]; [|reflexivity].
    exfalso. apply Hnotin. rewrite <- Heq. apply in_map. exact Hk'.
Qed.
End FoldSet.

Lemma join_keys_nodup {V : Type} (d : list (Path * V)) :
  List.NoDup (map fst d) ->
  Forall path_survives (map fst d) ->
  List.NoDup (map (str_join ".") (map fst d)).
Proof.
  intros Hnd Hs. induction d as [|[p v] d IH]; simpl in *; [constructor|].
  inversion Hnd as [|? ? Hnotin Hnd']; subst.
  inversion Hs as [|? ? Hp Hs']; subst.
  constructor; [|exact (IH Hnd' Hs')].
  intros Hin. apply in_map_iff in Hin. destruct Hin as (q & Hq & Hinq).
  apply Hnotin. rewrite List.Forall_forall in Hs'.
  rewrite <- (path_of_str_join p Hp), <- Hq, (path_of_str_join q (Hs' q Hinq)).
  exact Hinq.
Qed.

Lemma paths_back (l : list Path) :
  Forall path_survives l -> map path_of_str (map (str_join ".") l) = l.
Proof.
  induction l as [|p l IH]; intros H; simpl; [reflexivity|].
  inversion H; subst. rewrite path_of_str_join by assumption.
  rewrite IH by assumption. reflexivity.
Qed.

Lemma path_items_back {V : Type} (d : list (Path * V)) :
  Forall path_survives (map fst d) ->
  map (fun kv : string * V => (path_of_str (fst kv), snd kv))
      (map (fun kv : Path * V => (str_join "." (fst kv), snd kv)) d)
  = d.
Proof.
  induction d as [|[p v] d IH]; intros H; simpl in *; [reflexivity|].
  inversion H; subst. rewrite path_of_str_join by assumption.
  rewrite IH by assumption. reflexivity.
Qed.

(** A dictionary keyed by paths survives the join of [state()] and the
    split of [from_state()]. *)
Lemma path_dict_round_trip {V : Type} (d : list (Path * V)) :
  List.NoDup (map fst d) ->
  Forall path_survives (map fst d) ->
  fold_left (fun acc kv => od_set (path_of_str (fst kv)) (snd kv) acc)
            (dict_comprehension (str_join ".") d) []
  = d.
Proof.
  intros Hnd Hs. unfold dict_comprehension.
  rewrite (fold_od_set_fresh (str_join ".") d [] (join_keys_nodup d Hnd Hs))
    by reflexivity.
  simpl.
  rewrite (fold_od_set_fresh path_of_str _ []).
  - simpl. apply path_items_back. exact Hs.
  - rewrite !map_map. simpl.
    replace (map (fun x : Path * V => path_of_str (str_join "." (fst x))) d)
      with (map path_of_str (map (str_join ".") (map fst d)))
      by (rewrite !map_map; reflexivity).
    rewrite (paths_back _ Hs). exact Hnd.
  - reflexivity.
Qed.

(** X5. When no path segment of a map contains a dot (and no path is the
    single empty segment), [LWWMap.from_state(LWWMap.state())] succeeds and
    rebuilds the same entries and tombstones, in the same order, so
    [value()] and [get()] are unchanged by the round trip. *)
Theorem map_state_round_trip
    (m : LWWMap) (node : string) (clock : nat -> Q)
    (Hentries : List.NoDup (map fst (_entries m)))
    (Htombs : List.NoDup (map fst (_tombstones m)))
    (Hentry_paths : Forall path_survives (map fst (_entries m)))
    (Htomb_paths : Forall path_survives (map fst (_tombstones m))) :
  exists d,
    LWWMap_from_state node (LWWMap_state m) clock = Ok d /\
    _entries d = _entries m /\
    _tombstones d = _tombstones m /\
    LWWMap_value d = LWWMap_value m /\
    (forall path, LWWMap_get d path = LWWMap_get m path).
Proof.
  unfold LWWMap_from_state, LWWMap_state. simpl.
  rewrite from_dict_all_to_dict. simpl.
  rewrite (path_dict_round_trip _ Hentries Hentry_paths).
  rewrite (path_dict_round_trip _ Htombs Htomb_paths).
  eexists. split; [reflexivity|]. repeat split.
Qed.

Lemma map_state_round_trip_witness :
  exists d,
    LWWMap_from_state "n" (LWWMap_state sample_nested_map) (fun _ => 100%Q) = Ok d /\
    _entries d = _entries sample_nested_map /\
    _tombstones d = _tombstones sample_nested_map /\
    LWWMap_value d = LWWMap_value sample_nested_map /\
    LWWMap_get d ["user"] = Ok (VDict [("name", VStr "Alice"); ("age", VInt 30)]) /\
    LWWMap_get d ["user"; "email"] = Ok VNone.
Proof.
  destruct (map_state_round_trip sample_nested_map "n" (fun _ => 100%Q))
    as (d & H1 & H2 & H3 & H4 & H5).
  - simpl. repeat constructor; simpl; intuition discriminate.
  - simpl. repeat constructor; simpl; intuition discriminate.
  - simpl. repeat constructor; unfold dot_free; simpl;
      repeat constructor; discriminate.
  - simpl. repeat constructor; unfold dot_free; simpl;
      repeat constructor; discriminate.
  - exists d. split; [exact H1|]. split; [exact H2|]. split; [exact H3|].
    split; [exact H4|]. rewrite !H5. split; reflexivity.
Defined.

(** ** Reading a map after writing it *)

Lemma is_newer_false_of_not_greater (ts1 : Q) (o1 : string) (ts2 : Q) (o2 : string) :
  ~ lex_greater ts1 o1 ts2 o2 -> _is_newer ts1 o1 ts2 o2 = false.
Proof.
  intros Hn. destruct (_is_newer ts1 o1 ts2 o2) eqn:E; [|reflexivity].
  exfalso. apply Hn. apply is_newer_iff. exact E.
Qed.

(** X6. Read your own write: after [m.set(path, v)] with a scalar [v], a
    fresh operation id and a clock value that makes the write newer than the
    entry stored at [path] (if any) and not older than the tombstone at
    [path] (if any), [m.get(path)] returns [v]. *)
Theorem set_then_get_returns_value
    (m : LWWMap) (uid : string) (now : Q) (path : Path) (v : PyVal)
    (Hfresh : _has_seen (map_base m)
                (Operation_create uid now (node_id (map_base m)) path "set" v) = false)
    (Hscalar : is_dict v = false)
    (Hnewer : forall old ets enode,
        od_get path (_entries m) = Some (old, ets, enode) ->
        lex_greater now (node_id (map_base m)) ets enode)
    (Htomb : forall tts tnode,
        od_get path (_tombstones m) = Some (tts, tnode) -> (tts <= now)%Q) :
  exists m' op,
    LWWMap_set m uid now path v = Ok (m', op) /\
    od_get path (_entries m') = Some (v, now, node_id (map_base m)) /\
    LWWMap_get m' path = Ok v.
Proof.
  unfold LWWMap_set, LWWMap_apply. rewrite Hfresh. simpl.
  rewrite (apply_set_scalar _ _ _ _ _ Hscalar).
  eexists _, _. split; [reflexivity|]. simpl.
  assert (Hstored : od_get path (store_if_newer (_entries m) path v now (node_id (map_base m)))
                    = Some (v, now, node_id (map_base m))).
  { unfold store_if_newer.
    destruct (od_get path (_entries m)) as [[[old ets] enode]|] eqn:E.
    - pose proof (Hnewer old ets enode eq_refl) as Hg. apply is_newer_iff in Hg.
      rewrite Hg. apply od_get_set_eq.
    - apply od_get_set_eq. }
  split; [exact Hstored|].
  unfold LWWMap_get. simpl. rewrite Hstored.
  destruct (od_get path (_tombstones m)) as [[tts tnode]|] eqn:Et; [|reflexivity].
  pose proof (Htomb tts tnode eq_refl) as Hle.
  apply float_gt_false_iff in Hle. rewrite Hle. reflexivity.
Qed.

Lemma set_then_get_returns_value_witness :
  exists m' op,
    LWWMap_set sample_nested_map "op-9" 4 ["user"; "age"] (VInt 31) = Ok (m', op) /\
    od_get ["user"; "age"] (_entries m') = Some (VInt 31, 4%Q, "n") /\
    LWWMap_get m' ["user"; "age"] = Ok (VInt 31).
Proof.
  apply (set_then_get_returns_value sample_nested_map "op-9" 4 ["user"; "age"] (VInt 31)).
  - reflexivity.
  - reflexivity.
  - intros old ets enode H. simpl in H. injection H as <- <- <-.
    left. reflexivity.
  - intros tts tnode H. discriminate H.
Defined.

(** X7. After [m.delete(path)] with a fresh operation id, at a clock value
    strictly greater than the timestamp of the entry stored at [path] and
    newer than any tombstone already there: the entry is still stored, but
    [m.get(path)] returns [None] and [value()] no longer uses the entry. *)
Theorem delete_then_get_returns_none
    (m : LWWMap) (uid : string) (now : Q) (path : Path)
    (old : PyVal) (ets : Q) (enode : string)
    (Hfresh : _has_seen (map_base m)
                (Operation_create uid now (node_id (map_base m)) path "delete" VNone)
              = false)
    (Hentry : od_get path (_entries m) = Some (old, ets, enode))
    (Hlater : (ets < now)%Q)
    (Htomb : forall tts tnode,
        od_get path (_tombstones m) = Some (tts, tnode) ->
        lex_greater now (node_id (map_base m)) tts tnode) :
  exists m' op,
    LWWMap_delete m uid now path = Ok (m', op) /\
    _entries m' = _entries m /\
    od_get path (_tombstones m') = Some (now, node_id (map_base m)) /\
    LWWMap_get m' path = Ok VNone /\
    ~ In (path, (old, ets, enode)) (live_entries m').
Proof.
  unfold LWWMap_delete, LWWMap_apply. rewrite Hfresh. simpl.
  eexists _, _. split; [reflexivity|]. simpl. split; [reflexivity|].
  assert (Hstored : od_get path (_apply_delete (_tombstones m) path now (node_id (map_base m)))
                    = Some (now, node_id (map_base m))).
  { unfold _apply_delete.
    destruct (od_get path (_tombstones m)) as [[tts tnode]|] eqn:E.
    - pose proof (Htomb tts tnode eq_refl) as Hg. apply is_newer_iff in Hg.
      rewrite Hg. apply od_get_set_eq.
    - apply od_get_set_eq. }
  split; [exact Hstored|].
  assert (Hgt : float_gt now ets = true) by (apply float_gt_iff; exact Hlater).
  split.
  - unfold LWWMap_get. simpl. rewrite Hstored, Hentry, Hgt. reflexivity.
  - unfold live_entries. simpl. rewrite filter_In. simpl.
    unfold tombstoned. rewrite Hstored, Hgt. simpl. intros [_ H]. discriminate H.
Qed.

Lemma delete_then_get_returns_none_witness :
  exists m' op,
    LWWMap_delete sample_nested_map "op-9" 4 ["user"; "age"] = Ok (m', op) /\
    _entries m' = _entries sample_nested_map /\
    od_get ["user"; "age"] (_tombstones m') = Some (4%Q, "n") /\
    LWWMap_get m' ["user"; "age"] = Ok VNone /\
    ~ In (["user"; "age"], (VInt 30, 2%Q, "n")) (live_entries m').
Proof.
  apply (delete_then_get_returns_none sample_nested_map "op-9" 4 ["user"; "age"]
           (VInt 30) 2 "n").
  - reflexivity.
  - reflexivity.
  - reflexivity.
  - intros tts tnode H. discriminate H.
Defined.

(** ** Concurrent writes converge *)

Lemma str_compare_gt_trans (a b c : string) :
  String.compare a b = Gt -> String.compare b c = Gt -> String.compare a c = Gt.
Proof.
  intros Hab Hbc.
  assert (Hba : String.compare b a = Lt).
  { rewrite String.compare_antisym, Hab. reflexivity. }
  assert (Hcb : String.compare c b = Lt).
  { rewrite String.compare_antisym, Hbc. reflexivity. }
  apply OrderedTypeEx.String_as_OT.cmp_lt in Hba, Hcb.
  pose proof (OrderedTypeEx.String_as_OT.lt_trans _ _ _ Hcb Hba) as Hca.
  apply OrderedTypeEx.String_as_OT.cmp_lt in Hca.
  unfold OrderedTypeEx.String_as_OT.cmp in Hca.
  rewrite String.compare_antisym, Hca. reflexivity.
Qed.

Lemma str_compare_gt_irrefl (a : string) : String.compare a a <> Gt.
Proof.
  assert (H : String.compare a a = Eq).
  { apply (proj2 (OrderedTypeEx.String_as_OT.cmp_eq a a)). reflexivity. }
  rewrite H. discriminate.
Qed.

Lemma lex_greater_trans (t1 : Q) (o1 : string) (t2 : Q) (o2 : string)
    (t3 : Q) (o3 : string) :
  lex_greater t1 o1 t2 o2 -> lex_greater t2 o2 t3 o3 -> lex_greater t1 o1 t3 o3.
Proof.
  unfold lex_greater. intros [H12 | [E12 C12]] [H23 | [E23 C23]].
  - left. lra.
  - left. lra.
  - left. lra.
  - right. split; [lra|]. exact (str_compare_gt_trans _ _ _ C12 C23).
Qed.

Lemma lex_greater_irrefl (t : Q) (o : string) : ~ lex_greater t o t o.
Proof.
  unfold lex_greater. intros [H | [_ C]].
  - lra.
  - exact (str_compare_gt_irrefl o C).
Qed.

Lemma lex_greater_asym (t1 : Q) (o1 : string) (t2 : Q) (o2 : string) :
  lex_greater t1 o1 t2 o2 -> ~ lex_greater t2 o2 t1 o1.
Proof.
  intros H12 H21. exact (lex_greater_irrefl t1 o1 (lex_greater_trans _ _ _ _ _ _ H12 H21)).
Qed.

(** What a lookup finds after the guarded store. *)
Lemma od_get_store_if_newer (e : list (Path * Entry)) (p q : Path) (v : PyVal)
    (t : Q) (o : string) :
  od_get q (store_if_newer e p v t o)
  = if decide (p = q)
    then Some (match od_get p e with
               | Some (v0, t0, o0) =>
                   if _is_newer t o t0 o0 then (v, t, o) else (v0, t0, o0)
               | None => (v, t, o)
               end)
    else od_get q e.
Proof.
  unfold store_if_newer. destruct (decide (p = q)) as [<-|Hne].
  - destruct (od_get p e) as [[[v0 t0] o0]|] eqn:E.
    + destruct (_is_newer t o t0 o0); [apply od_get_set_eq | exact E].
    + apply od_get_set_eq.
  - destruct (od_get p e) as [[[v0 t0] o0]|].
    + destruct (_is_newer t o t0 o0); [apply od_get_set_ne; exact Hne | reflexivity].
    + apply od_get_set_ne. exact Hne.
Qed.

Lemma store_if_newer_commutes (e : list (Path * Entry))
    (pa : Path) (va : PyVal) (ta : Q) (oa : string)
    (pb : Path) (vb : PyVal) (tb : Q) (ob : string) (q : Path) :
  pa <> pb \/ lex_greater ta oa tb ob \/ lex_greater tb ob ta oa ->
  od_get q (store_if_newer (store_if_newer e pa va ta oa) pb vb tb ob)
  = od_get q (store_if_newer (store_if_newer e pb vb tb ob) pa va ta oa).
Proof.
  intros H. rewrite !od_get_store_if_newer.
  destruct (decide (pa = pb)) as [<-|Hne].
  - destruct H as [Hne | H]; [contradiction|].
    destruct (decide (pa = pa)) as [_|Hn]; [|contradiction].
    destruct (decide (pa = q)) as [_|_]; [|reflexivity].
    f_equal.
    assert (Hab : _is_newer ta oa tb ob = true -> _is_newer tb ob ta oa = false).
    { intros Hx. apply is_newer_iff in Hx.
      apply is_newer_false_of_not_greater. apply lex_greater_asym. exact Hx. }
    assert (Hor : _is_newer ta oa tb ob = true \/ _is_newer tb ob ta oa = true).
    { destruct H as [H | H]; [left | right]; apply is_newer_iff; exact H. }
    destruct (od_get pa e) as [[[v0 t0] o0]|].
    + destruct (_is_newer ta oa t0 o0) eqn:Ea, (_is_newer tb ob t0 o0) eqn:Eb;
        rewrite ?Ea, ?Eb.
      * destruct (_is_newer ta oa tb ob) eqn:Eab.
        -- rewrite (Hab eq_refl). reflexivity.
        -- destruct Hor as [Hx | Hx]; [discriminate Hx|]. rewrite Hx. reflexivity.
      * destruct (_is_newer tb ob ta oa) eqn:Eba; [|reflexivity].
        exfalso. apply is_newer_iff in Ea, Eba.
        pose proof (lex_greater_trans _ _ _ _ _ _ Eba Ea) as Hx.
        apply is_newer_iff in Hx. congruence.
      * destruct (_is_newer ta oa tb ob) eqn:Eab; [|reflexivity].
        exfalso. apply is_newer_iff in Eb, Eab.
        pose proof (lex_greater_trans _ _ _ _ _ _ Eab Eb) as Hx.
        apply is_newer_iff in Hx. congruence.
      * reflexivity.
    + destruct (_is_newer ta oa tb ob) eqn:Eab.
      * rewrite (Hab eq_refl). reflexivity.
      * destruct Hor as [Hx | Hx]; [discriminate Hx|]. rewrite Hx. reflexivity.
  - destruct (decide (pb = pa)) as [Heq|_]; [symmetry in Heq; contradiction|].
    destruct (decide (pb = q)) as [Hb|Hb]; destruct (decide (pa = q)) as [Ha|Ha];
      try congruence; reflexivity.
Qed.

Lemma LWWMap_apply_scalar_set (m : LWWMap) (op : Operation) :
  _has_seen (map_base m) op = false ->
  op_type op = "set" ->
  is_dict (op_value op) = false ->
  LWWMap_apply m op
  = Ok ({| map_base := _record_operation (map_base m) op;
           _entries := store_if_newer (_entries m) (op_path op) (op_value op)
                         (op_timestamp op) (op_node_id op);
           _tombstones := _tombstones m |}, true).
Proof.
  intros Hseen Hty Hsc. unfold LWWMap_apply. rewrite Hseen, Hty. simpl.
  rewrite (apply_set_scalar _ _ _ _ _ Hsc). reflexivity.
Qed.

(** X8. Two scalar set operations with different ids, neither seen before,
    that target different paths or carry stamps one of which is
    lexicographically greater than the other, converge: applied in either
    order they leave the same entry under every path, and the same
    tombstones. *)
Theorem concurrent_sets_converge
    (m : LWWMap) (a b : Operation)
    (Ha_unseen : _has_seen (map_base m) a = false)
    (Hb_unseen : _has_seen (map_base m) b = false)
    (Hids : op_id a <> op_id b)
    (Ha_set : op_type a = "set") (Hb_set : op_type b = "set")
    (Ha_scalar : is_dict (op_value a) = false)
    (Hb_scalar : is_dict (op_value b) = false)
    (Hordered : op_path a <> op_path b \/
                lex_greater (op_timestamp a) (op_node_id a)
                            (op_timestamp b) (op_node_id b) \/
                lex_greater (op_timestamp b) (op_node_id b)
                            (op_timestamp a) (op_node_id a)) :
  exists mab mba,
    LWWMap_apply_all m [a; b] = Ok mab /\
    LWWMap_apply_all m [b; a] = Ok mba /\
    (forall q, od_get q (_entries mab) = od_get q (_entries mba)) /\
    _tombstones mab = _tombstones mba.
Proof.
  assert (Hne_ab : String.eqb (op_id a) (op_id b) = false)
    by (apply String.eqb_neq; exact Hids).
  assert (Hne_ba : String.eqb (op_id b) (op_id a) = false)
    by (apply String.eqb_neq; congruence).
  simpl.
  rewrite (LWWMap_apply_scalar_set m a Ha_unseen Ha_set Ha_scalar). simpl.
  rewrite LWWMap_apply_scalar_set;
    [| simpl; rewrite has_seen_after_record, Hb_unseen, Hne_ab; reflexivity
     | exact Hb_set | exact Hb_scalar].
  simpl.
  rewrite (LWWMap_apply_scalar_set m b Hb_unseen Hb_set Hb_scalar). simpl.
  rewrite LWWMap_apply_scalar_set;
    [| simpl; rewrite has_seen_after_record, Ha_unseen, Hne_ba; reflexivity
     | exact Ha_set | exact Ha_scalar].
  simpl. eexists _, _. split; [reflexivity|]. split; [reflexivity|]. simpl.
  split; [|reflexivity].
  intros q. apply store_if_newer_commutes. exact Hordered.
Qed.

Lemma concurrent_sets_converge_witness :
  exists mab mba,
    LWWMap_apply_all sample_map_x [sample_set_op; sample_set_op_a] = Ok mab /\
    LWWMap_apply_all sample_map_x [sample_set_op_a; sample_set_op] = Ok mba /\
    (forall q, od_get q (_entries mab) = od_get q (_entries mba)) /\
    _tombstones mab = _tombstones mba.
Proof.
  apply (concurrent_sets_converge sample_map_x sample_set_op sample_set_op_a);
    try reflexivity.
  - discriminate.
  - right. left. right. split; reflexivity.
Defined.

(** ** Nothing is ever removed from a map *)

Lemma od_set_keeps_keys {K V : Type} `{EqDecision K} (k k' : K) (v : V)
    (d : list (K * V)) :
  In k' (map fst d) -> In k' (map fst (od_set k v d)).
Proof.
  induction d as [|[k0 v0] d IH]; simpl; [contradiction|].
  destruct (decide (k = k0)) as [->|Hne]; simpl.
  - auto.
  - intros [Heq | Hin]; [left; exact Heq | right; exact (IH Hin)].
Qed.

Lemma store_if_newer_keeps_keys (e : list (Path * Entry)) (p q : Path) (v : PyVal)
    (t : Q) (o : string) :
  In q (map fst e) -> In q (map fst (store_if_newer e p v t o)).
Proof.
  intros Hin. unfold store_if_newer.
  destruct (od_get p e) as [[[v0 t0] o0]|].
  - destruct (_is_newer t o t0 o0); [apply od_set_keeps_keys|]; exact Hin.
  - apply od_set_keeps_keys. exact Hin.
Qed.

(** A property of the entries that the guarded store keeps is kept by
    [_apply_set], however deeply the value is nested. *)
Lemma apply_set_keeps (P : list (Path * Entry) -> Prop) :
  (forall e p v t o, P e -> P (store_if_newer e p v t o)) ->
  forall v e p t o, P e -> P (_apply_set e p v t o).
Proof.
  intros Hstore. fix IH 1. intros v e p t o He.
  destruct v as [| b | z | q | s | l | items]; simpl; try (apply Hstore; exact He).
  revert e He. revert items. fix IHitems 1. intros items e He.
  destruct items as [|[key val] items]; simpl.
  - exact He.
  - apply IHitems. apply IH. exact He.
Qed.

Lemma contains_of_key (entries : list (Path * Entry)) (key : string) :
  existsb (fun item : Path * Entry =>
             match fst item with
             | first :: _ => String.eqb first key
             | [] => false
             end) entries = true
  <-> exists rest, In (key :: rest) (map fst entries).
Proof.
  rewrite existsb_exists. split.
  - intros ([p e] & Hin & Hp). simpl in Hp. destruct p as [|first rest]; [discriminate|].
    apply String.eqb_eq in Hp. subst first. exists rest.
    apply in_map_iff. exists (key :: rest, e). split; [reflexivity | exact Hin].
  - intros (rest & Hin). apply in_map_iff in Hin. destruct Hin as ([p e] & Hp & Hin).
    simpl in Hp. subst p. exists (key :: rest, e). split; [exact Hin|].
    simpl. apply String.eqb_refl.
Qed.

(** X9. [apply] never removes anything from a map: every path that holds an
    entry, and every path that holds a tombstone, still holds one after any
    operation is applied (a delete only adds a tombstone). So once
    [key in m] is true it stays true, also after the key is deleted. *)
Theorem apply_never_removes_paths
    (m : LWWMap) (op : Operation) (m' : LWWMap) (applied : bool)
    (Happly : LWWMap_apply m op = Ok (m', applied)) :
  (forall p, In p (map fst (_entries m)) -> In p (map fst (_entries m'))) /\
  (forall p, In p (map fst (_tombstones m)) -> In p (map fst (_tombstones m'))) /\
  (forall key, LWWMap_contains m key = true -> LWWMap_contains m' key = true).
Proof.
  assert (Hkeys : (forall p, In p (map fst (_entries m)) -> In p (map fst (_entries m'))) /\
                  (forall p, In p (map fst (_tombstones m)) ->
                             In p (map fst (_tombstones m')))).
  { unfold LWWMap_apply in Happly.
    destruct (_has_seen (map_base m) op).
    - injection Happly as <- _. split; auto.
    - simpl in Happly. bind_inv Happly. injection Happly as <- _. simpl.
      destruct (String.eqb (op_type op) "set").
      + injection E as <-. simpl. split; [|auto].
        intros p Hin.
        apply (apply_set_keeps (fun e => In p (map fst e))); [|exact Hin].
        intros e p0 v t o. apply store_if_newer_keeps_keys.
      + destruct (String.eqb (op_type op) "delete"); [|discriminate E].
        injection E as <-. simpl. split; [auto|].
        intros p Hin. unfold _apply_delete.
        destruct (od_get (op_path op) (_tombstones m)) as [[tts tnode]|].
        * destruct (_is_newer _ _ _ _); [apply od_set_keeps_keys|]; exact Hin.
        * apply od_set_keeps_keys. exact Hin. }
  destruct Hkeys as [He Ht]. split; [exact He|]. split; [exact Ht|].
  intros key Hc. unfold LWWMap_contains in *.
  apply contains_of_key in Hc. destruct Hc as [rest Hin].
  apply contains_of_key. exists rest. apply He. exact Hin.
Qed.

Lemma apply_never_removes_paths_witness :
  LWWMap_contains sample_nested_map "user" = true /\
  LWWMap_contains deleted_user_map "user" = true.
Proof.
  split; [reflexivity|].
  apply (proj2 (proj2 (apply_never_removes_paths sample_nested_map delete_user_op
                         deleted_user_map true eq_refl)) "user").
  reflexivity.
Defined.

(** ** Adding to and removing from an OR-Set *)

Lemma add_tags_strs (tags : list string) :
  forall removed,
  exists removed',
    add_tags (map VStr tags) removed = Ok removed' /\
    (forall x, In x removed -> In x removed') /\
    (forall t, In t tags -> In (VStr t) removed').
Proof.
  induction tags as [|tag tags IH]; intros removed; simpl.
  - exists removed. split; [reflexivity|]. split; [auto|]. intros t [].
  - destruct (IH (pyset_add (VStr tag) removed)) as (removed' & Hrun & Hkeep & Hall).
    exists removed'. split; [exact Hrun|]. split.
    + intros x Hx. apply Hkeep. apply pyset_add_incl. exact Hx.
    + intros t [<- | Ht]; [apply Hkeep; apply pyset_add_In | exact (Hall t Ht)].
Qed.

(** X10. [ORSet.remove(v)] removes [v] at the replica that calls it: with a
    fresh operation id the call succeeds, the removed tags only grow, and
    afterwards [contains(v)] is false, whatever was added before. *)
Theorem orset_remove_then_not_contained
    (h : PyVal -> string) (s : ORSet) (uid : string) (now : Q) (v : PyVal)
    (Hfresh : _has_seen (set_base s)
                (Operation_create uid now (node_id (set_base s)) [] "remove"
                   (VDict [("element", v);
                           ("tags", VList (map VStr (observed_tags h s v)))]))
              = false) :
  exists s' op,
    ORSet_remove h s uid now v = Ok (s', op) /\
    _elements s' = _elements s /\
    (forall t, In t (_removed_tags s) -> In t (_removed_tags s')) /\
    ORSet_contains h s' v = false.
Proof.
  unfold ORSet_remove, ORSet_apply. rewrite Hfresh. simpl.
  unfold ORSet_apply_remove. simpl.
  destruct (add_tags_strs (observed_tags h s v) (_removed_tags s))
    as (removed' & Hrun & Hkeep & Hall).
  rewrite Hrun. simpl. eexists _, _. split; [reflexivity|]. simpl.
  split; [reflexivity|]. split; [exact Hkeep|].
  unfold ORSet_contains. simpl.
  destruct (od_get (h v) (_elements s)) as [group|] eqn:Eg; [|reflexivity].
  destruct (existsb _ group) eqn:Ex; [|reflexivity].
  exfalso. apply existsb_exists in Ex. destruct Ex as ([t w] & Hin & Hsurv).
  simpl in Hsurv. apply negb_true_iff in Hsurv.
  assert (Hremoved : In (VStr t) removed').
  { destruct (pyset_mem (VStr t) (_removed_tags s)) eqn:Eold.
    - apply Hkeep. apply pyset_mem_In. exact Eold.
    - apply Hall. unfold observed_tags. rewrite Eg.
      apply in_map_iff. exists (t, w). split; [reflexivity|].
      apply filter_In. split; [exact Hin|]. simpl. rewrite Eold. reflexivity. }
  apply pyset_mem_In in Hremoved. congruence.
Qed.

Lemma orset_remove_then_not_contained_witness :
  exists s' op,
    ORSet_remove sample_hash sample_orset "c-1" 9 (VStr "x") = Ok (s', op) /\
    _elements s' = _elements sample_orset /\
    (forall t, In t (_removed_tags sample_orset) -> In t (_removed_tags s')) /\
    ORSet_contains sample_hash s' (VStr "x") = false.
Proof.
  apply (orset_remove_then_not_contained sample_hash sample_orset "c-1" 9 (VStr "x")).
  reflexivity.
Defined.

(** X11. [ORSet.add(v)] with a hashable [v] and a fresh operation id
    succeeds, and afterwards [contains(v)] is true provided the new tag (the
    operation id) is not already among the removed tags. *)
Theorem orset_add_then_contained
    (h : PyVal -> string) (s : ORSet) (uid : string) (now : Q) (v : PyVal)
    (Hfresh : _has_seen (set_base s)
                (Operation_create uid now (node_id (set_base s)) [] "add" v) = false)
    (Hhashable : hashable v = true)
    (Hnot_removed : ~ In (VStr uid) (_removed_tags s)) :
  exists s' op,
    ORSet_add h s uid now v = Ok (s', op) /\
    op_id op = uid /\
    _removed_tags s' = _removed_tags s /\
    ORSet_contains h s' v = true.
Proof.
  unfold ORSet_add, ORSet_apply. rewrite Hfresh. simpl.
  unfold ORSet_apply_add. simpl. rewrite Hhashable. simpl.
  eexists _, _. split; [reflexivity|]. simpl. split; [reflexivity|].
  split; [reflexivity|].
  unfold ORSet_contains. simpl. rewrite od_get_set_eq.
  apply existsb_exists. exists (uid, v). split; [apply pyset_add_In|].
  simpl. apply negb_true_iff.
  destruct (pyset_mem (VStr uid) (_removed_tags s)) eqn:E; [|reflexivity].
  exfalso. apply Hnot_removed. apply pyset_mem_In. exact E.
Qed.

Lemma orset_add_then_contained_witness :
  exists s' op,
    ORSet_add sample_hash removed_orset "a-3" 9 (VStr "x") = Ok (s', op) /\
    op_id op = "a-3" /\
    _removed_tags s' = _removed_tags removed_orset /\
    ORSet_contains sample_hash s' (VStr "x") = true.
Proof.
  apply (orset_add_then_contained sample_hash removed_orset "a-3" 9 (VStr "x")).
  - reflexivity.
  - reflexivity.
  - simpl. intros [H | []]. discriminate H.
Defined.

Lemma add_tags_all (tags removed removed' : list PyVal) :
  add_tags tags removed = Ok removed' ->
  (forall x, In x removed -> In x removed') /\ (forall t, In t tags -> In t removed').
Proof.
  revert removed. induction tags as [|tag tags IH]; intros removed H; simpl in H.
  - injection H as <-. split; [auto|]. intros t [].
  - destruct (hashable tag); [|discriminate H].
    destruct (IH _ H) as [Hkeep Hall]. split.
    + intros x Hx. apply Hkeep. apply pyset_add_incl. exact Hx.
    + intros t [<- | Ht]; [apply Hkeep; apply pyset_add_In | exact (Hall t Ht)].
Qed.

Lemma orset_sound_apply (h : PyVal -> string) (s s' : ORSet) (op : Operation) (b : bool) :
  orset_sound s -> ORSet_apply h s op = Ok (s', b) -> orset_sound s'.
Proof.
  intros [J1 J2] H. unfold ORSet_apply in H.
  destruct (_has_seen (set_base s) op); [injection H as <- <-; split; assumption|].
  destruct (String.eqb (op_type op) "add") eqn:Eadd.
  - apply String.eqb_eq in Eadd. unfold ORSet_apply_add in H.
    destruct (hashable (op_value op)); simpl in H; [|discriminate H].
    injection H as <- <-. split; simpl.
    + intros h0 group Hg t w Hw. apply od_set_In_inv in Hg.
      destruct Hg as [[= -> ->] | Hold].
      * apply pyset_add_inv in Hw. destruct Hw as [[= -> ->] | Hw].
        -- exists op. split; [apply in_or_app; right; left; reflexivity|].
           repeat split; assumption.
        -- destruct (od_get (h (op_value op)) (_elements s)) as [g|] eqn:Eg;
             [|contradiction].
           apply od_get_In in Eg.
           destruct (J1 _ _ Eg t w Hw) as (b0 & Hb & Hrest).
           exists b0. split; [apply in_or_app; left; exact Hb | exact Hrest].
      * destruct (J1 _ _ Hold t w Hw) as (b0 & Hb & Hrest).
        exists b0. split; [apply in_or_app; left; exact Hb | exact Hrest].
    + intros r Hr Hrt t Ht. apply in_app_or in Hr.
      destruct Hr as [Hr | [<- | []]]; [exact (J2 r Hr Hrt t Ht)|].
      rewrite Eadd in Hrt. discriminate Hrt.
  - destruct (String.eqb (op_type op) "remove") eqn:Erem; [|discriminate H].
    unfold ORSet_apply_remove in H.
    destruct (remove_tags_of (op_value op)) as [tags_v|] eqn:E1; simpl in H;
      [|discriminate H].
    destruct (iter_items tags_v) as [tags|] eqn:E2; simpl in H; [|discriminate H].
    destruct (add_tags tags (_removed_tags s)) as [removed|] eqn:E3; simpl in H;
      [|discriminate H].
    injection H as <- <-. destruct (add_tags_all _ _ _ E3) as [Hkeep Hall].
    split; simpl.
    + intros h0 group Hg t w Hw.
      destruct (J1 _ _ Hg t w Hw) as (b0 & Hb & Hrest).
      exists b0. split; [apply in_or_app; left; exact Hb | exact Hrest].
    + intros r Hr Hrt t Ht. apply in_app_or in Hr.
      destruct Hr as [Hr | [<- | []]].
      * apply Hkeep. exact (J2 r Hr Hrt t Ht).
      * apply Hall. unfold carried_tags in Ht. rewrite E1, E2 in Ht. exact Ht.
Qed.

Lemma orset_sound_apply_all (h : PyVal -> string) (ops : list Operation) :
  forall s s', orset_sound s -> ORSet_apply_all h s ops = Ok s' -> orset_sound s'.
Proof.
  induction ops as [|op ops IH]; intros s s' Hs H; simpl in H.
  - injection H as <-. exact Hs.
  - destruct (ORSet_apply h s op) as [[s1 b]|] eqn:E; simpl in H; [|discriminate H].
    exact (IH s1 s' (orset_sound_apply h s s1 op b Hs E) H).
Qed.

(** Every element of the result of the loop was in it at the start or is
    the first surviving value of a group. *)
Lemma value_loop_sound (removed : list PyVal)
    (groups : list (string * list (string * PyVal))) :
  forall result l,
    value_loop removed result groups = Ok l ->
    forall x, In x l ->
              In x result \/
              exists h g, In (h, g) groups /\ first_surviving removed g = Some x.
Proof.
  induction groups as [|[h0 g0] groups IH]; intros result l H x Hx; simpl in H.
  - injection H as <-. left. exact Hx.
  - destruct (value_step removed result g0) as [r1|] eqn:Es; simpl in H; [|discriminate H].
    destruct (IH r1 l H x Hx) as [Hr1 | (h & g & Hg & Hf)].
    + unfold value_step in Es.
      destruct (first_surviving removed g0) as [val|] eqn:Ef.
      * destruct (hashable val).
        -- injection Es as <-. apply pyset_add_inv in Hr1.
           destruct Hr1 as [-> | Hres]; [|left; exact Hres].
           right. exists h0, g0. split; [left; reflexivity | exact Ef].
        -- destruct (pyset_mem val result); [|discriminate Es].
           injection Es as <-. left. exact Hr1.
      * injection Es as <-. left. exact Hr1.
    + right. exists h, g. split; [right; exact Hg | exact Hf].
Qed.

(** X12. [value()] of an OR-Set built by applying operations holds nothing
    that was not added or that was removed: every element of the result is
    the value of an applied add operation whose tag is carried by no applied
    remove operation. *)
Theorem orset_value_only_surviving_adds
    (h : PyVal -> string) (node : string) (ops : list Operation) (s : ORSet)
    (l : list PyVal) (x : PyVal)
    (Hrun : ORSet_apply_all h (ORSet_init node) ops = Ok s)
    (Hvalue : ORSet_value s = Ok l)
    (Hin : In x l) :
  exists a,
    In a (_operations (set_base s)) /\ op_type a = "add" /\ op_value a = x /\
    forall r, In r (_operations (set_base s)) -> op_type r = "remove" ->
              ~ In (VStr (op_id a)) (carried_tags r).
Proof.
  assert (Hinit : orset_sound (ORSet_init node)).
  { split; simpl; intros; contradiction. }
  destruct (orset_sound_apply_all h ops _ _ Hinit Hrun) as [J1 J2].
  unfold ORSet_value in Hvalue.
  destruct (value_loop_sound _ _ _ _ Hvalue x Hin) as [[] | (h0 & g & Hg & Hf)].
  unfold first_surviving in Hf.
  destruct (find _ g) as [[t w]|] eqn:Efind; [|discriminate Hf].
  injection Hf as ->. destruct (find_some _ _ Efind) as [Hw Hsurv]. simpl in Hsurv.
  destruct (J1 _ _ Hg t x Hw) as (a & Ha & Hty & Hid & Hval).
  exists a. repeat split; try assumption.
  intros r Hr Hrt Hcarried. rewrite Hid in Hcarried.
  pose proof (J2 r Hr Hrt _ Hcarried) as Hrem.
  apply pyset_mem_In in Hrem. rewrite Hrem in Hsurv. discriminate Hsurv.
Qed.

Lemma orset_value_only_surviving_adds_witness :
  exists a,
    In a (_operations (set_base sample_orset)) /\ op_type a = "add" /\
    op_value a = VStr "x" /\
    forall r, In r (_operations (set_base sample_orset)) -> op_type r = "remove" ->
              ~ In (VStr (op_id a)) (carried_tags r).
Proof.
  apply (orset_value_only_surviving_adds sample_hash "C"
           [orset_add_a; orset_remove_a; orset_add_b] sample_orset [VStr "x"]).
  - reflexivity.
  - reflexivity.
  - left. reflexivity.
Defined.

(** ** Counters *)

Lemma sum_counts_insert (counts : gmap string Z) (node : string) (x : Z) :
  sum_counts (<[node := x]> counts) = (x - count_of counts node + sum_counts counts)%Z.
Proof.
  unfold sum_counts, count_of. destruct (counts !! node) as [c|] eqn:E.
  - rewrite <- (insert_delete_eq counts node x).
    rewrite map_fold_insert_L; [| intros; lia | apply lookup_delete_eq].
    rewrite (map_fold_delete_L _ 0%Z node c counts); [lia | intros; lia | exact E].
  - rewrite map_fold_insert_L; [lia | intros; lia | exact E].
Qed.

Lemma logged_total_app (kind : string) (xs ys : list Operation) :
  logged_total kind (xs ++ ys) = (logged_total kind xs + logged_total kind ys)%Z.
Proof.
  induction xs as [|x xs IH]; simpl; [reflexivity|].
  rewrite IH. destruct (String.eqb (op_type x) kind); lia.
Qed.

Lemma GCounter_apply_total (g g' : GCounter) (op : Operation) (b : bool) :
  GCounter_apply g op = Ok (g', b) ->
  GCounter_value g = logged_total "increment" (_operations (gc_base g)) ->
  GCounter_value g' = logged_total "increment" (_operations (gc_base g')) /\
  (GCounter_value g <= GCounter_value g')%Z.
Proof.
  intros H Hinv. unfold GCounter_apply in H.
  destruct (_has_seen (gc_base g) op); [injection H as <- _; split; [exact Hinv | lia]|].
  destruct (String.eqb (op_type op) "increment") eqn:Ety; simpl in H; [|discriminate H].
  destruct (as_int (op_value op)) as [amount|] eqn:Ea; simpl in H; [|discriminate H].
  destruct (amount <? 0)%Z eqn:Eneg; [discriminate H|].
  apply Z.ltb_ge in Eneg. injection H as <- _.
  unfold GCounter_value in *. simpl.
  rewrite sum_counts_insert, logged_total_app. simpl.
  rewrite Ety. unfold op_amount. rewrite Ea. split; lia.
Qed.

(** X13. A G-Counter built by applying operations has as [value()] the sum
    of the amounts of the operations in its log, and no application ever
    lowers the value. *)
Theorem gcounter_value_is_sum_of_log
    (node : string) (ops : list Operation) (g : GCounter)
    (Hrun : GCounter_apply_all (GCounter_init node) ops = Ok g) :
  GCounter_value g = logged_total "increment" (_operations (gc_base g)) /\
  (0 <= GCounter_value g)%Z /\
  (forall op g' b, GCounter_apply g op = Ok (g', b) ->
                   (GCounter_value g <= GCounter_value g')%Z).
Proof.
  assert (Hgen : forall ops g0 g1,
             GCounter_value g0 = logged_total "increment" (_operations (gc_base g0)) ->
             GCounter_apply_all g0 ops = Ok g1 ->
             GCounter_value g1 = logged_total "increment" (_operations (gc_base g1)) /\
             (GCounter_value g0 <= GCounter_value g1)%Z).
  { clear. induction ops as [|op ops IH]; intros g0 g1 Hinv H; simpl in H.
    - injection H as <-. split; [exact Hinv | lia].
    - destruct (GCounter_apply g0 op) as [[g' b]|] eqn:E; simpl in H; [|discriminate H].
      destruct (GCounter_apply_total _ _ _ _ E Hinv) as [Hinv' Hle].
      destruct (IH g' g1 Hinv' H) as [Hfinal Hle']. split; [exact Hfinal | lia]. }
  destruct (Hgen ops (GCounter_init node) g eq_refl Hrun) as [Hsum Hge].
  split; [exact Hsum|]. split.
  - exact Hge.
  - intros op g' b Hap. exact (proj2 (GCounter_apply_total _ _ _ _ Hap Hsum)).
Qed.

Lemma gcounter_value_is_sum_of_log_witness :
  exists g,
    GCounter_apply_all (GCounter_init "a") sample_increments = Ok g /\
    GCounter_value g = 8%Z /\
    GCounter_value g = logged_total "increment" (_operations (gc_base g)).
Proof.
  eexists. split; [reflexivity|]. split; [reflexivity|].
  apply (gcounter_value_is_sum_of_log "a" sample_increments). reflexivity.
Defined.

Lemma PNCounter_apply_total (c c' : PNCounter) (op : Operation) (b : bool) :
  PNCounter_apply c op = Ok (c', b) ->
  PNCounter_value c
  = (logged_total "increment" (_operations (pn_base c))
     - logged_total "decrement" (_operations (pn_base c)))%Z ->
  PNCounter_value c'
  = (logged_total "increment" (_operations (pn_base c'))
     - logged_total "decrement" (_operations (pn_base c')))%Z.
Proof.
  intros H Hinv. unfold PNCounter_apply in H.
  destruct (_has_seen (pn_base c) op); [injection H as <- _; exact Hinv|].
  destruct (String.eqb (op_type op) "increment") eqn:Einc.
  - destruct (as_int (op_value op)) as [amount|] eqn:Ea; simpl in H; [|discriminate H].
    injection H as <- _. unfold PNCounter_value in *. simpl.
    rewrite sum_counts_insert, !logged_total_app. simpl. rewrite Einc.
    apply String.eqb_eq in Einc. rewrite Einc. simpl.
    unfold op_amount. rewrite Ea. lia.
  - destruct (String.eqb (op_type op) "decrement") eqn:Edec; [|discriminate H].
    destruct (as_int (op_value op)) as [amount|] eqn:Ea; simpl in H; [|discriminate H].
    injection H as <- _. unfold PNCounter_value in *. simpl.
    rewrite sum_counts_insert, !logged_total_app. simpl. rewrite Einc, Edec.
    unfold op_amount. rewrite Ea. lia.
Qed.

(** X14. A PN-Counter built by applying operations has as [value()] the sum
    of the amounts of its logged increments minus the sum of the amounts of
    its logged decrements. *)
Theorem pncounter_value_is_difference_of_log
    (node : string) (ops : list Operation) (c : PNCounter)
    (Hrun : PNCounter_apply_all (PNCounter_init node) ops = Ok c) :
  PNCounter_value c
  = (logged_total "increment" (_operations (pn_base c))
     - logged_total "decrement" (_operations (pn_base c)))%Z.
Proof.
  assert (Hgen : forall ops c0 c1,
             PNCounter_value c0
             = (logged_total "increment" (_operations (pn_base c0))
                - logged_total "decrement" (_operations (pn_base c0)))%Z ->
             PNCounter_apply_all c0 ops = Ok c1 ->
             PNCounter_value c1
             = (logged_total "increment" (_operations (pn_base c1))
                - logged_total "decrement" (_operations (pn_base c1)))%Z).
  { clear. induction ops as [|op ops IH]; intros c0 c1 Hinv H; simpl in H.
    - injection H as <-. exact Hinv.
    - destruct (PNCounter_apply c0 op) as [[c' b]|] eqn:E; simpl in H; [|discriminate H].
      exact (IH c' c1 (PNCounter_apply_total _ _ _ _ E Hinv) H). }
  exact (Hgen ops (PNCounter_init node) c eq_refl Hrun).
Qed.

Lemma pncounter_value_is_difference_of_log_witness :
  exists c,
    PNCounter_apply_all (PNCounter_init "a") sample_pn_ops = Ok c /\
    PNCounter_value c = 7%Z /\
    PNCounter_value c
    = (logged_total "increment" (_operations (pn_base c))
       - logged_total "decrement" (_operations (pn_base c)))%Z.
Proof.
  eexists. split; [reflexivity|]. split; [reflexivity|].
  apply (pncounter_value_is_difference_of_log "a" sample_pn_ops). reflexivity.
Defined.

Lemma merge_counts_lookup (self other : gmap string Z) (node : string) :
  merge_counts self other !! node
  = match other !! node with
    | Some count => Some (Z.max (count_of self node) count)
    | None => self !! node
    end.
Proof.
  unfold merge_counts. revert node.
  apply (map_fold_weak_ind
           (fun (r : gmap string Z) (m : gmap string Z) =>
              forall node, r !! node
                           = match m !! node with
                             | Some count => Some (Z.max (count_of self node) count)
                             | None => self !! node
                             end)).
  - intros node. rewrite lookup_empty. reflexivity.
  - intros i x m r Hi IH node. destruct (decide (i = node)) as [->|Hne].
    + rewrite !lookup_insert_eq. unfold count_of. rewrite (IH node), Hi. reflexivity.
    + rewrite !lookup_insert_ne by exact Hne. apply IH.
Qed.

(** X15. [GCounter.merge] sets the count of every node of the other counter
    to the maximum of the two counts (a node missing here counts as 0) and
    leaves the other nodes alone; merging a counter with itself changes no
    count; and when no count is negative the counts, and so [value()], do
    not depend on which of the two counters is merged into which. *)
Theorem gcounter_merge_is_pointwise_max
    (a b : GCounter)
    (Ha : forall node c, _counts a !! node = Some c -> (0 <= c)%Z)
    (Hb : forall node c, _counts b !! node = Some c -> (0 <= c)%Z) :
  (forall node,
      _counts (GCounter_merge a b) !! node
      = match _counts b !! node with
        | Some count => Some (Z.max (count_of (_counts a) node) count)
        | None => _counts a !! node
        end) /\
  _counts (GCounter_merge a a) = _counts a /\
  _counts (GCounter_merge a b) = _counts (GCounter_merge b a) /\
  GCounter_value (GCounter_merge a b) = GCounter_value (GCounter_merge b a).
Proof.
  assert (Hcomm : _counts (GCounter_merge a b) = _counts (GCounter_merge b a)).
  { apply map_eq. intros node. simpl. rewrite !merge_counts_lookup. unfold count_of.
    destruct (_counts a !! node) as [ca|] eqn:Ea, (_counts b !! node) as [cb|] eqn:Eb;
      try reflexivity.
    - f_equal. lia.
    - pose proof (Ha node ca Ea). f_equal. lia.
    - pose proof (Hb node cb Eb). f_equal. lia. }
  split; [intros node; apply merge_counts_lookup|]. split; [|split].
  - apply map_eq. intros node. simpl. rewrite merge_counts_lookup. unfold count_of.
    destruct (_counts a !! node) as [ca|]; [f_equal; lia | reflexivity].
  - exact Hcomm.
  - unfold GCounter_value. rewrite Hcomm. reflexivity.
Qed.

Lemma gcounter_merge_is_pointwise_max_witness :
  _counts (GCounter_merge sample_gcounter_a sample_gcounter_b) !! "b" = Some 4%Z /\
  GCounter_value (GCounter_merge sample_gcounter_a sample_gcounter_b)
  = GCounter_value (GCounter_merge sample_gcounter_b sample_gcounter_a).
Proof.
  assert (Ha : forall node c, _counts sample_gcounter_a !! node = Some c -> (0 <= c)%Z).
  { intros node c. simpl.
    destruct (decide (node = "a")) as [->|Hna];
      [rewrite lookup_insert_eq; intros [= <-]; lia|].
    rewrite lookup_insert_ne by congruence.
    destruct (decide (node = "b")) as [->|Hnb];
      [rewrite lookup_insert_eq; intros [= <-]; lia|].
    rewrite lookup_insert_ne by congruence. rewrite lookup_empty. discriminate. }
  assert (Hb : forall node c, _counts sample_gcounter_b !! node = Some c -> (0 <= c)%Z).
  { intros node c. simpl.
    destruct (decide (node = "b")) as [->|Hnb];
      [rewrite lookup_insert_eq; intros [= <-]; lia|].
    rewrite lookup_insert_ne by congruence.
    destruct (decide (node = "c")) as [->|Hnc];
      [rewrite lookup_insert_eq; intros [= <-]; lia|].
    rewrite lookup_insert_ne by congruence. rewrite lookup_empty. discriminate. }
  destruct (gcounter_merge_is_pointwise_max sample_gcounter_a sample_gcounter_b Ha Hb)
    as (Hlookup & _ & _ & Hvalue).
  split; [|exact Hvalue].
  rewrite Hlookup. reflexivity.
Defined.

(** ** The limiters, channel by channel *)

(** X16. One call of [RateLimiter.is_allowed] for a channel (with a
    non-zero window) returns, never leaves more than [rate] tokens in the
    bucket of the channel, leaves at most [rate - 1] after accepting and
    fewer than one after refusing, records the clock value of the call, and
    touches no other channel. *)
Theorem rate_limiter_call_is_capped_and_local
    (l : RateLimiter) (ws : Z) (now now_default : Q)
    (Hwindow : ~ (window l == 0)%Q) :
  exists l' ok left,
    RateLimiter_is_allowed l ws now now_default = Ok (l', ok) /\
    _tokens l' !! ws = Some left /\
    (left <= rate l)%Q /\
    (if ok then (left <= rate l - 1)%Q else (left < 1)%Q) /\
    _last_update l' !! ws = Some now /\
    rate l' = rate l /\ window l' = window l /\
    (forall other, other <> ws ->
                   _tokens l' !! other = _tokens l !! other /\
                   _last_update l' !! other = _last_update l !! other).
Proof.
  unfold RateLimiter_is_allowed.
  assert (Hw : Qeq_bool (window l) 0 = false).
  { destruct (Qeq_bool (window l) 0) eqn:E; [|reflexivity].
    exfalso. apply Hwindow. apply Qeq_bool_iff. exact E. }
  rewrite Hw. set (refilled := float_min (rate l) _).
  assert (Hle : (refilled <= rate l)%Q) by apply float_min_le_l.
  destruct (float_ge refilled 1) eqn:Hge.
  - apply float_ge_iff in Hge. eexists _, true, _. split; [reflexivity|]. simpl.
    rewrite !lookup_insert_eq. repeat split; try reflexivity; try lra.
    + rewrite lookup_insert_ne by congruence. reflexivity.
    + rewrite lookup_insert_ne by congruence. reflexivity.
  - apply float_ge_false_iff in Hge. eexists _, false, _. split; [reflexivity|]. simpl.
    rewrite !lookup_insert_eq. repeat split; try reflexivity; try lra.
    + rewrite lookup_insert_ne by congruence. reflexivity.
    + rewrite lookup_insert_ne by congruence. reflexivity.
Qed.

Lemma rate_limiter_call_is_capped_and_local_witness :
  exists l' ok left,
    RateLimiter_is_allowed default_limiter 7 10 10 = Ok (l', ok) /\
    _tokens l' !! 7%Z = Some left /\
    (left <= rate default_limiter)%Q /\
    (if ok then (left <= rate default_limiter - 1)%Q else (left < 1)%Q) /\
    _last_update l' !! 7%Z = Some 10%Q /\
    rate l' = rate default_limiter /\ window l' = window default_limiter /\
    (forall other, other <> 7%Z ->
                   _tokens l' !! other = _tokens default_limiter !! other /\
                   _last_update l' !! other = _last_update default_limiter !! other).
Proof.
  apply (rate_limiter_call_is_capped_and_local default_limiter 7 10 10).
  discriminate.
Defined.

(** X17. A lockout ends: on a channel locked until [until], an
    authentication message whose clock value is not below [until] is let
    through to the provider (when the limit of attempts is positive); the
    limiter forgets the lockout and starts counting the channel's failures
    from zero again. *)
Theorem auth_lockout_expires
    (s : CollabkitServer) (ws : Z) (a : AuthAttempt)
    (validate : string -> option User) (until : Q)
    (Hauth : _auth s = Some validate)
    (Hlocked : _lockout_until (limiter_of s) !! ws = Some until)
    (Hpast : (until <= at_now_check a)%Q)
    (Hmax : (0 < _max_attempts (limiter_of s))%Z) :
  let checked := fst (AuthRateLimiter_is_allowed (limiter_of s) ws (at_now_check a)) in
  let r := _handle_auth s ws (mkAuthMessage (at_token a))
             (at_now_check a) (at_now_fail a) in
  snd (AuthRateLimiter_is_allowed (limiter_of s) ws (at_now_check a)) = true /\
  _lockout_until checked !! ws = None /\
  attempts_of (_attempts checked) ws = 0%Z /\
  provider_calls (snd r) = 1%nat /\
  (validate (at_token a) = None ->
   attempts_of (_attempts (limiter_of (fst r))) ws = 1%Z).
Proof.
  unfold limiter_of in *. cbv zeta.
  assert (Hnot : float_lt (at_now_check a) until = false).
  { unfold float_lt. apply float_gt_false_iff. exact Hpast. }
  assert (Hpos : (0 <? _max_attempts (_auth_rate_limiter s))%Z = true)
    by (apply Z.ltb_lt; exact Hmax).
  unfold _handle_auth, AuthRateLimiter_is_allowed. rewrite Hauth, Hlocked, Hnot, Hpos.
  simpl. rewrite lookup_delete_eq, attempts_of_insert.
  split; [reflexivity|]. split; [reflexivity|]. split; [reflexivity|].
  destruct (validate (at_token a)) as [user|] eqn:Ev.
  - destruct (_ <=? _)%Z; simpl; split; try reflexivity; discriminate.
  - simpl. split; [reflexivity|]. intros _. rewrite attempts_of_insert.
    rewrite attempts_of_insert. reflexivity.
Qed.

Lemma auth_lockout_expires_witness :
  snd (AuthRateLimiter_is_allowed (limiter_of sample_locked_server) 7 305) = true /\
  provider_calls (snd (_handle_auth sample_locked_server 7 (mkAuthMessage "bad") 305 305))
  = 1%nat.
Proof.
  pose proof (auth_lockout_expires sample_locked_server 7 (bad_attempt 305)
                sample_provider 305 eq_refl eq_refl) as H.
  simpl in H. destruct H as (H1 & _ & _ & H4 & _).
  - discriminate.
  - reflexivity.
  - split; [exact H1 | exact H4].
Defined.

(** ** Binding users to channels *)

Lemma pyset_add_length {A : Type} `{EqDecision A} (x : A) (s : list A) :
  (length (pyset_add x s) <= S (length s))%nat.
Proof.
  unfold pyset_add. destruct (pyset_mem x s); [lia|].
  rewrite length_app. simpl. lia.
Qed.

(** X18. [_handle_auth] keeps the cap on connections per user: if no user
    has more than [max_connections_per_user] channels before the message,
    none has after it. And when the reply is [authenticated], the channel is
    bound to the user the provider returned and is among that user's
    channels. *)
Theorem handle_auth_keeps_connection_cap
    (s : CollabkitServer) (ws : Z) (message : AuthMessage) (now_check now_fail : Q)
    (Hcap : forall u, (Z.of_nat (length (connections_of s u))
                       <= _max_connections_per_user s)%Z) :
  let r := _handle_auth s ws message now_check now_fail in
  _max_connections_per_user (fst r) = _max_connections_per_user s /\
  (forall u, (Z.of_nat (length (connections_of (fst r) u))
              <= _max_connections_per_user s)%Z) /\
  (forall uid, In (Send ws (AuthenticatedMessage uid)) (snd r) ->
               exists user, _ws_users (fst r) !! ws = Some user /\
                            user_id user = uid /\
                            In ws (connections_of (fst r) uid)).
Proof.
  cbv zeta. unfold _handle_auth.
  destruct (_auth s) as [validate|]; simpl.
  2: { split; [reflexivity|]. split; [exact Hcap|].
       intros uid [H | []]. discriminate H. }
  destruct (AuthRateLimiter_is_allowed (_auth_rate_limiter s) ws now_check)
    as [limiter allowed].
  destruct allowed; simpl.
  2: { split; [reflexivity|]. split; [exact Hcap|].
       intros uid [H | []]. discriminate H. }
  destruct (validate (am_token message)) as [user|]; simpl.
  2: { split; [reflexivity|]. split; [exact Hcap|].
       intros uid [H | [H | []]]; discriminate H. }
  destruct (_max_connections_per_user s <=? Z.of_nat (length (connections_of s (user_id user))))%Z
    eqn:Efull; simpl.
  - split; [reflexivity|]. split.
    + intros u. unfold connections_of at 1. simpl.
      destruct (decide (user_id user = u)) as [<-|Hne].
      * rewrite lookup_insert_eq. apply Hcap.
      * rewrite lookup_insert_ne by exact Hne. apply (Hcap u).
    + intros uid [H | [H | []]]; discriminate H.
  - apply Z.leb_gt in Efull. split; [reflexivity|]. split.
    + intros u. unfold connections_of at 1. simpl.
      destruct (decide (user_id user = u)) as [<-|Hne].
      * rewrite lookup_insert_eq.
        pose proof (pyset_add_length ws (connections_of s (user_id user))). lia.
      * rewrite lookup_insert_ne by exact Hne. apply (Hcap u).
    + intros uid [H | [H | []]]; [discriminate H|]. injection H as <-.
      exists user. split; [apply lookup_insert_eq|]. split; [reflexivity|].
      unfold connections_of at 1. simpl. rewrite lookup_insert_eq.
      apply pyset_add_In.
Qed.

Lemma handle_auth_keeps_connection_cap_witness :
  let r := _handle_auth sample_auth_server 7 (mkAuthMessage "good") 1 1 in
  _ws_users (fst r) !! 7%Z = Some sample_user /\
  connections_of (fst r) "u" = [7%Z] /\
  (Z.of_nat (length (connections_of (fst r) "u")) <= MAX_CONNECTIONS_PER_USER)%Z.
Proof.
  assert (Hcap : forall u, (Z.of_nat (length (connections_of sample_auth_server u))
                            <= _max_connections_per_user sample_auth_server)%Z).
  { intros u. unfold connections_of. simpl. rewrite lookup_empty. simpl.
    unfold MAX_CONNECTIONS_PER_USER. lia. }
  destruct (handle_auth_keeps_connection_cap sample_auth_server 7 (mkAuthMessage "good")
              1 1 Hcap) as (_ & Hall & _).
  cbv zeta. split; [reflexivity|]. split; [reflexivity|]. exact (Hall "u").
Defined.

(** ** Who may write *)

Lemma as_str_list_typed (items : list PyVal) :
  forallb (fun v => match v with VStr _ => true | _ => false end) items = true ->
  exists path, as_str_list items = Ok path.
Proof.
  induction items as [|v items IH]; simpl; intros H.
  - exists []. reflexivity.
  - apply andb_true_iff in H. destruct H as [Hv Hitems].
    destruct v; try discriminate Hv. destruct (IH Hitems) as (path & ->).
    simpl. eexists. reflexivity.
Qed.

(** On a dictionary whose fields have the declared types the decoder never
    leaves them: it returns an operation or raises what the code raises. *)
Lemma well_typed_decodes (data : PyVal) (now : Q) :
  operation_well_typed data = true ->
  Operation_from_dict data true now <> Raise IllTyped.
Proof.
  intros Htyped. unfold Operation_from_dict.
  destruct data as [| b | z | q | s | l | d]; try (simpl; discriminate).
  simpl in Htyped. rewrite !andb_true_iff in Htyped.
  destruct Htyped as [[[Hid Hnode] Hty] Hpath].
  unfold field_is_str in Hid, Hnode, Hty. unfold path_items_are_str in Hpath.
  unfold dict_item.
  destruct (od_get "id" d) as [id_v|]; [|simpl; discriminate].
  destruct id_v; try discriminate Hid. simpl.
  destruct (od_get "node_id" d) as [node_v|]; [|simpl; discriminate].
  destruct node_v; try discriminate Hnode. simpl.
  destruct (od_get "path" d) as [path_v|]; [|simpl; discriminate].
  assert (Hp : as_path path_v <> Raise IllTyped).
  { destruct path_v; simpl; try discriminate.
    destruct (as_str_list_typed _ Hpath) as (path & ->). discriminate. }
  cbn [rbind].
  destruct (as_path path_v) as [path|e] eqn:Epath; [|cbn [rbind]; congruence].
  cbn [rbind].
  destruct (od_get "op_type" d) as [ty_v|]; [|simpl; discriminate].
  destruct ty_v; try discriminate Hty. simpl. discriminate.
Qed.

(** X19. [_handle_operation] writes only when allowed. Whatever the
    operation of the message holds, a message from a channel bound to no
    user, from a user denied WRITE on the room, or for a room that does not
    exist leaves the whole server state as it was and is answered by one
    error frame to the sender, nothing else. When the fields of the
    operation have the types the [Operation] dataclass declares (the
    decoder then answers as the code does), the log of a room changes only
    if the room is the one the message names, the sender is bound and not
    denied WRITE on it, the operation decodes, and its id is not in the log
    of the room yet. *)
Theorem handle_operation_writes_only_when_allowed
    (s : CollabkitServer) (alive : Z -> bool) (ws : Z)
    (message : OperationMessage) (now : Q) :
  ((_ws_users s !! ws = None \/
    (exists user, _ws_users s !! ws = Some user /\
       (permission_denied s (user_id user) (om_room_id message) WRITE = true \/
        RoomManager_get_room (srv_rooms s) (om_room_id message) = None))) ->
   fst (_handle_operation s alive ws message now) = s /\
   exists code text,
     snd (_handle_operation s alive ws message now) = [Send ws (ErrorMessage code text)] /\
     code <> INVALID_OPERATION)
  /\
  (operation_well_typed (om_operation message) = true ->
   Operation_from_dict (om_operation message) true now <> Raise IllTyped /\
   forall rid,
     room_ops (fst (_handle_operation s alive ws message now)) rid <> room_ops s rid ->
     rid = om_room_id message /\
     exists user room op,
       _ws_users s !! ws = Some user /\
       permission_denied s (user_id user) (om_room_id message) WRITE = false /\
       RoomManager_get_room (srv_rooms s) (om_room_id message) = Some room /\
       Operation_from_dict (om_operation message) true now = Ok op /\
       _has_seen (map_base (_state room)) op = false).
Proof.
  split.
  - unfold _handle_operation.
    intros [Hnone | (user & Hu & [Hdenied | Hroom])].
    + rewrite Hnone. split; [reflexivity|].
      eexists _, _. split; [reflexivity | discriminate].
    + rewrite Hu, Hdenied. split; [reflexivity|].
      eexists _, _. split; [reflexivity | discriminate].
    + rewrite Hu, Hroom.
      destruct (permission_denied s (user_id user) (om_room_id message) WRITE);
        (split; [reflexivity|]; eexists _, _; split; [reflexivity | discriminate]).
  - intros Htyped. split; [apply well_typed_decodes; exact Htyped|].
    intros rid Hchanged.
    unfold _handle_operation in Hchanged.
    destruct (_ws_users s !! ws) as [user|] eqn:Hu; [|exfalso; apply Hchanged; reflexivity].
    destruct (permission_denied s (user_id user) (om_room_id message) WRITE) eqn:Hp;
      [exfalso; apply Hchanged; reflexivity|].
    unfold RoomManager_get_room in *.
    destruct (_rooms (srv_rooms s) !! om_room_id message) as [room|] eqn:Hr;
      [|exfalso; apply Hchanged; reflexivity].
    destruct (handle_operation_try s alive room (user_id user) message now)
      as [[s' effects]|e] eqn:Htry; [|exfalso; apply Hchanged; reflexivity].
    simpl in Hchanged.
    destruct (handle_operation_try_log _ _ _ _ _ _ _ _ Hr Htry)
      as (op & applied & Hdec & [st Hap] & Hsame & Hother).
    assert (Hrid : rid = om_room_id message).
    { destruct (decide (rid = om_room_id message)) as [Heq|Hne]; [exact Heq|].
      exfalso. apply Hchanged. exact (Hother rid Hne). }
    split; [exact Hrid|]. subst rid.
    exists user, room, op. repeat split; try assumption; try reflexivity.
    destruct (_has_seen (map_base (_state room)) op) eqn:Hseen; [|reflexivity].
    exfalso. apply Hchanged. rewrite Hsame.
    unfold LWWMap_apply in Hap. rewrite Hseen in Hap. injection Hap as _ <-.
    reflexivity.
Qed.

Lemma handle_operation_writes_only_when_allowed_witness :
  (fst (_handle_operation sample_server (fun _ => true) 99 sample_operation_message 10)
   = sample_server) /\
  exists user room op,
    _ws_users sample_server !! 7%Z = Some user /\
    permission_denied sample_server (user_id user) "r" WRITE = false /\
    RoomManager_get_room (srv_rooms sample_server) "r" = Some room /\
    Operation_from_dict (om_operation sample_operation_message) true 10 = Ok op /\
    _has_seen (map_base (_state room)) op = false.
Proof.
  split.
  - apply (handle_operation_writes_only_when_allowed sample_server (fun _ => true) 99
             sample_operation_message 10).
    left. reflexivity.
  - destruct (handle_operation_writes_only_when_allowed sample_server (fun _ => true) 7
                sample_operation_message 10) as [_ Hwrite].
    destruct (Hwrite eq_refl) as [_ Hchanged].
    apply (Hchanged "r"). vm_compute. discriminate.
Defined.

(** ** Broadcasts *)

(** X20. [Room.broadcast] delivers only to members of the room, never to
    the excluded user id and never to the excluded channel; every member
    whose socket accepts the frame and who is not excluded gets it; the room
    keeps its document and gains no member; a targeted member whose send
    failed is dropped from the room afterwards, under every entry of the
    user id, while a member whose send succeeded or whose user id was
    excluded stays. *)
Theorem broadcast_respects_exclusion
    (r : Room) (alive : Z -> bool) (message : ServerMessage)
    (exclude_user : option string) (exclude_ws : option Z) :
  let r' := fst (Room_broadcast r alive message exclude_user exclude_ws) in
  let sent := snd (Room_broadcast r alive message exclude_user exclude_ws) in
  (forall e, In e sent ->
             exists uid user ws,
               e = Send ws message /\
               In (uid, (user, ws)) (_connections r) /\
               exclude_user <> Some uid /\ exclude_ws <> Some ws /\
               alive ws = true) /\
  (forall uid user ws,
      In (uid, (user, ws)) (_connections r) ->
      exclude_user <> Some uid -> exclude_ws <> Some ws -> alive ws = true ->
      In (Send ws message) sent) /\
  _state r' = _state r /\
  (forall uid user ws,
      In (uid, (user, ws)) (_connections r') ->
      In (uid, (user, ws)) (_connections r)) /\
  (forall uid user ws,
      In (uid, (user, ws)) (_connections r) ->
      alive ws = true \/ exclude_user = Some uid ->
      (forall user2 ws2, In (uid, (user2, ws2)) (_connections r) -> ws2 = ws) ->
      In (uid, (user, ws)) (_connections r')) /\
  (forall uid user ws,
      In (uid, (user, ws)) (_connections r) ->
      exclude_user <> Some uid -> exclude_ws <> Some ws -> alive ws = false ->
      forall user2 ws2, ~ In (uid, (user2, ws2)) (_connections r')).
Proof.
  cbv zeta. unfold Room_broadcast. simpl.
  set (target := fun c : string * (User * Z) =>
                   negb (match exclude_user with
                         | Some u => String.eqb (fst c) u | None => false end)
                   && negb (match exclude_ws with
                            | Some w => Z.eqb (snd (snd c)) w | None => false end)).
  assert (Htarget : forall uid user ws,
             target (uid, (user, ws)) = true
             <-> exclude_user <> Some uid /\ exclude_ws <> Some ws).
  { intros uid user ws. unfold target. simpl. rewrite andb_true_iff, !negb_true_iff.
    destruct exclude_user as [u|], exclude_ws as [w|]; simpl.
    - rewrite String.eqb_neq, Z.eqb_neq. split; intros [H1 H2]; split; congruence.
    - rewrite String.eqb_neq. split; intros [H1 H2]; split; congruence.
    - rewrite Z.eqb_neq. split; intros [H1 H2]; split; congruence.
    - split; intros _; split; congruence. }
  split; [|split; [|split; [|split; [|split]]]].
  - intros e He. apply in_map_iff in He. destruct He as ([uid [user ws]] & <- & Hin).
    apply filter_In in Hin. destruct Hin as [Hin Halive]. simpl in Halive.
    apply filter_In in Hin. destruct Hin as [Hin Ht].
    apply Htarget in Ht. destruct Ht as [H1 H2].
    exists uid, user, ws. repeat split; assumption.
  - intros uid user ws Hin H1 H2 Halive.
    apply in_map_iff. exists (uid, (user, ws)). split; [reflexivity|].
    apply filter_In. split; [|exact Halive].
    apply filter_In. split; [exact Hin|]. apply Htarget. split; assumption.
  - reflexivity.
  - intros uid user ws Hin. apply filter_In in Hin. exact (proj1 Hin).
  - intros uid user ws Hin Hok Huniq. apply filter_In. split; [exact Hin|].
    simpl. apply negb_true_iff.
    destruct (existsb _ _) eqn:Ex; [|reflexivity].
    exfalso. apply existsb_exists in Ex. destruct Ex as ([uid2 [user2 ws2]] & Hf & Heq).
    simpl in Heq. apply String.eqb_eq in Heq. subst uid2.
    apply filter_In in Hf. destruct Hf as [Hf Hdead]. simpl in Hdead.
    apply filter_In in Hf. destruct Hf as [Hf Ht].
    apply Htarget in Ht. destruct Ht as [H1 _].
    pose proof (Huniq user2 ws2 Hf) as ->.
    destruct Hok as [Halive | Hex]; [|congruence].
    rewrite Halive in Hdead. discriminate Hdead.
  - intros uid user ws Hin H1 H2 Hdead user2 ws2 Hkept.
    apply filter_In in Hkept. destruct Hkept as [_ Hkept]. simpl in Hkept.
    apply negb_true_iff in Hkept.
    assert (Ex : existsb (fun f : string * (User * Z) => String.eqb (fst f) uid)
                   (List.filter (fun c : string * (User * Z) => negb (alive (snd (snd c))))
                      (List.filter target (_connections r))) = true).
    { apply existsb_exists. exists (uid, (user, ws)). split; [|apply String.eqb_refl].
      apply filter_In. split; [|simpl; rewrite Hdead; reflexivity].
      apply filter_In. split; [exact Hin|]. apply Htarget. split; assumption. }
    rewrite Ex in Hkept. discriminate Hkept.
Qed.

(** ** The members of a room *)

Section OrderedDictMore.
Context {K V : Type} `{EqDecision K}.

Lemma od_get_pop_ne (k k' : K) (d : list (K * V)) :
  k <> k' -> od_get k' (od_pop k d) = od_get k' d.
Proof.
  intros Hne. induction d as [|[k0 v0] d IH]; simpl; [reflexivity|].
  destruct (decide (k = k0)) as [->|Hk].
  - destruct (decide (k' = k0)); [congruence | reflexivity].
  - simpl. destruct (decide (k' = k0)); [reflexivity | exact IH].
Qed.

Lemma od_set_length (k : K) (v : V) (d : list (K * V)) :
  length (od_set k v d) = match od_get k d with
                          | Some _ => length d
                          | None => S (length d)
                          end.
Proof.
  induction d as [|[k0 v0] d IH]; simpl; [reflexivity|].
  destruct (decide (k = k0)); simpl; [reflexivity|].
  rewrite IH. destruct (od_get k d); reflexivity.
Qed.
End OrderedDictMore.

(** X21. The members of a room are keyed by user id. After [add_user] the
    user and the socket are found under the id and the other members are
    untouched; a user who was already a member is replaced, socket included,
    and the count of members stays the same, otherwise it grows by one.
    [remove_user] returns the user stored under the id ([None] when there is
    none) and leaves the other members untouched. *)
Theorem room_membership_by_user_id
    (r : Room) (user : User) (ws : Z) (other : string)
    (Hother : other <> user_id user) :
  let r1 := Room_add_user r user ws in
  Room_get_user r1 (user_id user) = Some user /\
  Room_get_websocket r1 (user_id user) = Some ws /\
  Room_has_user r1 (user_id user) = true /\
  Room_user_count r1 = (if Room_has_user r (user_id user)
                        then Room_user_count r else S (Room_user_count r)) /\
  Room_get_user r1 other = Room_get_user r other /\
  Room_get_websocket r1 other = Room_get_websocket r other /\
  snd (Room_remove_user r1 (user_id user)) = Some user /\
  Room_get_user (fst (Room_remove_user r1 (user_id user))) other = Room_get_user r other /\
  (Room_has_user r other = false -> snd (Room_remove_user r other) = None).
Proof.
  cbv zeta.
  unfold Room_get_user, Room_get_websocket, Room_has_user, Room_user_count,
    Room_remove_user, Room_add_user, od_mem. simpl.
  rewrite !od_get_set_eq. simpl.
  rewrite od_set_length.
  rewrite od_get_pop_ne by congruence.
  rewrite !od_get_set_ne by congruence.
  repeat split.
  - destruct (od_get (user_id user) (_connections r)); reflexivity.
  - intros H. destruct (od_get other (_connections r)); [discriminate H | reflexivity].
Qed.

Lemma room_membership_by_user_id_witness :
  let r1 := Room_add_user sample_room sample_user 9 in
  Room_get_websocket r1 "u" = Some 9%Z /\
  Room_user_count r1 = 2%nat /\
  Room_get_websocket r1 "v" = Some 8%Z.
Proof.
  destruct (room_membership_by_user_id sample_room sample_user 9 "v")
    as (_ & H2 & _ & H4 & _ & H6 & _).
  - discriminate.
  - cbv zeta. split; [exact H2|]. split; [exact H4 | exact H6].
Defined.

(** ** The room manager *)

Lemma od_set_keys_nodup {K V : Type} `{EqDecision K} (k : K) (v : V)
    (d : list (K * V)) :
  List.NoDup (map fst d) -> List.NoDup (map fst (od_set k v d)).
Proof.
  induction d as [|[k0 v0] d IH]; intros Hnd; simpl.
  - constructor; [intros [] | constructor].
  - inversion Hnd as [|? ? Hnotin Hnd']; subst.
    destruct (decide (k = k0)) as [->|Hne]; simpl.
    + constructor; assumption.
    + constructor; [|exact (IH Hnd')].
      intros Hin. apply in_map_iff in Hin. destruct Hin as ([k1 v1] & Hk & Hin).
      simpl in Hk. subst k1. apply od_set_In_inv in Hin.
      destruct Hin as [[= Heq _] | Hin]; [congruence|].
      apply Hnotin. apply in_map_iff. exists (k0, v1). split; [reflexivity | exact Hin].
Qed.

Lemma functions_by_name_set (functions : list (string * RegisteredFunction))
    (f : RegisteredFunction) :
  functions_by_name functions -> functions_by_name (od_set (rf_name f) f functions).
Proof.
  intros [Hnd Hnames]. split; [apply od_set_keys_nodup; exact Hnd|].
  apply List.Forall_forall. intros [k g] Hin. apply od_set_In_inv in Hin.
  destruct Hin as [[= -> ->] | Hin]; [reflexivity|].
  rewrite List.Forall_forall in Hnames. exact (Hnames (k, g) Hin).
Qed.

Lemma manager_reachable_functions_by_name (m : RoomManager) :
  manager_reachable m -> functions_by_name (_global_functions m).
Proof.
  induction 1 as [| m uid rid initial metadata _ IH Hlen | m rid _ IH | m f _ IH
                 | m _ IH | m cb _ IH | m rid r r' _ IH Hr]; simpl; try exact IH.
  - split; constructor.
  - unfold RoomManager_create_room.
    destruct (_rooms m !! room_id_or_uuid rid uid); exact IH.
  - unfold RoomManager_delete_room. destruct (_rooms m !! rid); exact IH.
  - apply functions_by_name_set. exact IH.
Qed.

Lemma fold_register_fresh (functions : list (string * RegisteredFunction)) :
  forall acc : list (string * RegisteredFunction),
    List.NoDup (map fst functions) ->
    Forall (fun nf => rf_name (snd nf) = fst nf) functions ->
    (forall k, In k (map fst functions) -> od_get k acc = None) ->
    fold_left (fun acc nf => od_set (rf_name (snd nf)) (snd nf) acc) functions acc
    = (acc ++ functions)%list.
Proof.
  induction functions as [|[k g] fs IH]; intros acc Hnd Hnames Hfresh; simpl.
  - rewrite app_nil_r. reflexivity.
  - inversion Hnd as [|? ? Hnotin Hnd']; subst.
    inversion Hnames as [|? ? Hk Hnames']; subst. simpl in Hk. rewrite Hk.
    rewrite (od_set_fresh k g acc (Hfresh k (or_introl eq_refl))).
    rewrite IH; [rewrite <- app_assoc; reflexivity | exact Hnd' | exact Hnames' |].
    intros k' Hk'. rewrite od_get_app_None by (apply Hfresh; right; exact Hk').
    simpl. destruct (decide (k' = k)) as [->|]; [contradiction | reflexivity].
Qed.

Lemma register_all_functions (functions : list (string * RegisteredFunction)) (r : Room) :
  functions_by_name functions ->
  _functions r = [] ->
  let r' := fold_left (fun r nf => Room_register_function r (snd nf)) functions r in
  _functions r' = functions /\ _state r' = _state r /\
  _connections r' = _connections r /\ room_id r' = room_id r /\
  room_node_id r' = room_node_id r /\ _metadata r' = _metadata r.
Proof.
  intros [Hnd Hnames] Hempty. cbv zeta.
  assert (Hgen : forall (fs : list (string * RegisteredFunction)) (r0 : Room),
             _functions (fold_left (fun r nf => Room_register_function r (snd nf)) fs r0)
             = fold_left (fun acc nf => od_set (rf_name (snd nf)) (snd nf) acc)
                         fs (_functions r0) /\
             _state (fold_left (fun r nf => Room_register_function r (snd nf)) fs r0)
             = _state r0 /\
             _connections (fold_left (fun r nf => Room_register_function r (snd nf)) fs r0)
             = _connections r0 /\
             room_id (fold_left (fun r nf => Room_register_function r (snd nf)) fs r0)
             = room_id r0 /\
             room_node_id (fold_left (fun r nf => Room_register_function r (snd nf)) fs r0)
             = room_node_id r0 /\
             _metadata (fold_left (fun r nf => Room_register_function r (snd nf)) fs r0)
             = _metadata r0).
  { induction fs as [|nf fs IH]; intros r0; simpl; [repeat split|].
    destruct (IH (Room_register_function r0 (snd nf))) as (H1 & H2 & H3 & H4 & H5 & H6).
    repeat split; assumption. }
  destruct (Hgen functions r) as (H1 & H2 & H3 & H4 & H5 & H6).
  split; [|repeat split; assumption].
  rewrite H1, Hempty.
  apply (fold_register_fresh functions [] Hnd Hnames). reflexivity.
Qed.

Lemma apply_metadata_keeps (r : Room) (metadata : option (list (string * PyVal))) :
  room_id (apply_metadata r metadata) = room_id r /\
  room_node_id (apply_metadata r metadata) = room_node_id r /\
  _state (apply_metadata r metadata) = _state r /\
  _connections (apply_metadata r metadata) = _connections r /\
  _functions (apply_metadata r metadata) = _functions r.
Proof.
  destruct metadata as [items|]; simpl; [|repeat split].
  revert r. induction items as [|kv items IH]; intros r; simpl; [repeat split|].
  destruct (IH (Room_set_metadata r (fst kv) (snd kv))) as (H1 & H2 & H3 & H4 & H5).
  repeat split; assumption.
Qed.

(** X22 ([RoomManager.create_room], [Room.__init__], [RoomManager.get_room]):
    on a manager reached through the public methods, creating a room under
    an id that is not taken stores the room under that id and leaves every
    other room as it was; the new room has no member, its replica is named
    "server-" followed by the id, its state is the given initial state, it
    offers exactly the global functions of the manager, and every creation
    callback is called once, in registration order. *)
Theorem create_room_fresh_id_installs_room
    (m : RoomManager) (uid : string) (rid : option string)
    (initial : option PyVal) (metadata : option (list (string * PyVal))) :
  manager_reachable m ->
  RoomManager_get_room m (room_id_or_uuid rid uid) = None ->
  let id := room_id_or_uuid rid uid in
  let m' := fst (fst (RoomManager_create_room m uid rid initial metadata)) in
  let room := snd (fst (RoomManager_create_room m uid rid initial metadata)) in
  let effects := snd (RoomManager_create_room m uid rid initial metadata) in
  RoomManager_get_room m' id = Some room /\
  (forall other, other <> id ->
     RoomManager_get_room m' other = RoomManager_get_room m other) /\
  room_id room = id /\
  room_node_id room = ("server-" ++ id)%string /\
  _state room = LWWMap_init ("server-" ++ id) initial /\
  Room_is_empty room = true /\
  _functions room = _global_functions m /\
  effects = map (fun cb => RoomCreatedCallback cb id) (_on_room_created m).
Proof.
  intros Hreach Hfree. cbv zeta. unfold RoomManager_get_room in *.
  unfold RoomManager_create_room. rewrite Hfree. simpl.
  set (room0 := Room_init (room_id_or_uuid rid uid) initial).
  destruct (register_all_functions (_global_functions m) room0
              (manager_reachable_functions_by_name m Hreach) eq_refl)
    as (F1 & F2 & F3 & F4 & F5 & _).
  destruct (apply_metadata_keeps
              (fold_left (fun r nf => Room_register_function r (snd nf))
                         (_global_functions m) room0) metadata)
    as (A1 & A2 & A3 & A4 & A5).
  split; [apply lookup_insert_eq|].
  split; [intros other Hne; apply lookup_insert_ne; congruence|].
  split; [rewrite A1, F4; reflexivity|].
  split; [rewrite A2, F5; reflexivity|].
  split; [rewrite A3, F2; reflexivity|].
  split; [unfold Room_is_empty; rewrite A4, F3; reflexivity|].
  split; [rewrite A5; exact F1 | reflexivity].
Qed.

Lemma sample_manager_f_reachable : manager_reachable sample_manager_f.
Proof.
  unfold sample_manager_f, sample_manager.
  apply mgr_on_created, mgr_register, mgr_create; [apply mgr_init | reflexivity].
Qed.

Lemma create_room_fresh_id_installs_room_witness :
  let r := snd (fst (RoomManager_create_room sample_manager_f
                       "123e4567-e89b-42d3-a456-426614174001" (Some "den") None
                       (Some [("topic", VStr "t")]))) in
  _functions r = [("clear", sample_function)] /\ room_node_id r = "server-den" /\
  snd (RoomManager_create_room sample_manager_f
         "123e4567-e89b-42d3-a456-426614174001" (Some "den") None
         (Some [("topic", VStr "t")]))
  = [RoomCreatedCallback 3%nat "den"].
Proof.
  destruct (create_room_fresh_id_installs_room sample_manager_f
              "123e4567-e89b-42d3-a456-426614174001" (Some "den") None
              (Some [("topic", VStr "t")]) sample_manager_f_reachable)
    as (_ & _ & _ & H4 & _ & _ & H7 & H8).
  - vm_compute. reflexivity.
  - cbv zeta. split; [exact H7|]. split; [exact H4 | exact H8].
Defined.

(** X23 ([RoomManager.register_function], [Room.register_function],
    [Room.get_function]): registering a global function makes it available
    under its name in every room the manager holds, replaces nothing else in
    those rooms (other names, state and members are untouched), creates no
    room, and a room created afterwards under a free id offers it too. *)
Theorem register_function_reaches_every_room
    (m : RoomManager) (f : RegisteredFunction) (rid : string) (r : Room) :
  manager_reachable m ->
  RoomManager_get_room m rid = Some r ->
  let m' := RoomManager_register_function m f in
  (exists r',
      RoomManager_get_room m' rid = Some r' /\
      Room_get_function r' (rf_name f) = Some f /\
      (forall other, other <> rf_name f ->
         Room_get_function r' other = Room_get_function r other) /\
      _state r' = _state r /\ _connections r' = _connections r) /\
  (forall other, RoomManager_get_room m other = None ->
     RoomManager_get_room m' other = None) /\
  (forall uid new_id initial metadata,
     RoomManager_get_room m (room_id_or_uuid new_id uid) = None ->
     Room_get_function
       (snd (fst (RoomManager_create_room m' uid new_id initial metadata)))
       (rf_name f) = Some f).
Proof.
  intros Hreach Hr. cbv zeta. unfold RoomManager_get_room in *.
  split; [|split].
  - exists (Room_register_function r f). simpl. rewrite lookup_fmap, Hr. simpl.
    unfold Room_get_function. simpl.
    split; [reflexivity|]. split; [apply od_get_set_eq|].
    split; [|split; reflexivity].
    intros other Hne. apply od_get_set_ne. congruence.
  - intros other Hnone. simpl. rewrite lookup_fmap, Hnone. reflexivity.
  - intros uid new_id initial metadata Hfree.
    unfold RoomManager_create_room. cbn [_rooms RoomManager_register_function].
    rewrite lookup_fmap, Hfree. cbn [fmap option_fmap option_map].
    cbn [fst snd].
    set (room0 := Room_init (room_id_or_uuid new_id uid) initial).
    destruct (register_all_functions (od_set (rf_name f) f (_global_functions m)) room0
                (functions_by_name_set _ f
                   (manager_reachable_functions_by_name m Hreach)) eq_refl)
      as (F1 & _).
    destruct (apply_metadata_keeps
                (fold_left (fun r nf => Room_register_function r (snd nf))
                           (od_set (rf_name f) f (_global_functions m)) room0) metadata)
      as (_ & _ & _ & _ & A5).
    unfold Room_get_function.
    cbn [_global_functions RoomManager_register_function].
    rewrite A5, F1. apply od_get_set_eq.
Qed.

Lemma register_function_reaches_every_room_witness :
  exists r',
    RoomManager_get_room (RoomManager_register_function sample_manager sample_function)
                         "lobby" = Some r' /\
    Room_get_function r' "clear" = Some sample_function.
Proof.
  destruct (register_function_reaches_every_room sample_manager sample_function
              "lobby" (Room_init "lobby" None)) as ((r' & H1 & H2 & _) & _).
  - unfold sample_manager. apply mgr_create; [apply mgr_init | reflexivity].
  - vm_compute. reflexivity.
  - exists r'. split; [exact H1 | exact H2].
Defined.

Lemma filter_empty_rooms_insert (rooms : gmap string Room) (rid : string) (r : Room) :
  rooms !! rid = None ->
  length (List.filter (fun kv : string * Room => Room_is_empty (snd kv))
                      (map_to_list (<[rid := r]> rooms)))
  = ((if Room_is_empty r then 1 else 0)
     + length (List.filter (fun kv : string * Room => Room_is_empty (snd kv))
                           (map_to_list rooms)))%nat.
Proof.
  intros Hnone.
  assert (Hperm : forall l l' : list (string * Room), l ≡ₚ l' ->
            length (List.filter (fun kv : string * Room => Room_is_empty (snd kv)) l)
            = length (List.filter (fun kv : string * Room => Room_is_empty (snd kv)) l')).
  { induction 1 as [|x l l' _ IH|x y l|l l' l'' _ IH1 _ IH2]; simpl.
    - reflexivity.
    - destruct (Room_is_empty (snd x)); simpl; rewrite IH; reflexivity.
    - destruct (Room_is_empty (snd x)), (Room_is_empty (snd y)); reflexivity.
    - rewrite IH1. exact IH2. }
  rewrite (Hperm _ _ (map_to_list_insert rooms rid r Hnone)). simpl.
  destruct (Room_is_empty r); reflexivity.
Qed.

(** X24 ([RoomManager.cleanup_empty_rooms], [Room.is_empty],
    [RoomManager.room_count]): the clean-up removes exactly the rooms
    without members: a room with a member is still found unchanged, a room
    without one is no longer found, no room appears, and the number returned
    is the number of rooms that went away. *)
Theorem cleanup_removes_exactly_empty_rooms (m : RoomManager) :
  let m' := RoomManager_cleanup_empty_rooms m in
  (forall rid,
     RoomManager_get_room m' rid
     = match RoomManager_get_room m rid with
       | Some r => if Room_is_empty r then None else Some r
       | None => None
       end) /\
  RoomManager_room_count m
  = (RoomManager_room_count m' + cleanup_empty_rooms_count m)%nat /\
  _global_functions m' = _global_functions m.
Proof.
  cbv zeta. split; [|split; [|reflexivity]].
  - intros rid. unfold RoomManager_get_room, RoomManager_cleanup_empty_rooms. simpl.
    destruct (_rooms m !! rid) as [r|] eqn:Hr.
    + destruct (Room_is_empty r) eqn:He.
      * apply map_lookup_filter_None. right. intros x Hx. simpl.
        rewrite Hr in Hx. injection Hx as <-. rewrite He. simpl. intros [].
      * apply map_lookup_filter_Some. split; [exact Hr|]. simpl. rewrite He. exact I.
    + apply map_lookup_filter_None. left. exact Hr.
  - unfold RoomManager_room_count, cleanup_empty_rooms_count,
      RoomManager_cleanup_empty_rooms. simpl.
    induction (_rooms m) as [|rid r rooms Hnone IH] using map_ind.
    + rewrite map_filter_empty, map_to_list_empty, !map_size_empty. reflexivity.
    + rewrite (filter_empty_rooms_insert rooms rid r Hnone).
      rewrite (map_size_insert_None rid r rooms Hnone).
      destruct (Room_is_empty r) eqn:He.
      * rewrite map_filter_insert_False by (simpl; rewrite He; simpl; tauto).
        rewrite delete_id by exact Hnone.
        lia.
      * rewrite map_filter_insert_True by (simpl; rewrite He; exact I).
        rewrite map_size_insert_None
          by (apply map_lookup_filter_None; left; exact Hnone).
        lia.
Qed.

Lemma register_functions_keeps_state (fs : list (string * RegisteredFunction)) :
  forall r0 : Room,
    _state (fold_left (fun r nf => Room_register_function r (snd nf)) fs r0) = _state r0.
Proof.
  induction fs as [|nf fs IH]; intros r0; simpl; [reflexivity|].
  rewrite IH. reflexivity.
Qed.

(** X25 ([RoomManager.delete_room], [RoomManager.get_room],
    [RoomManager.create_room]): deleting a room that exists answers [True]
    and from then on the id is not found, while every other room is
    untouched; creating a room under the same id afterwards gives a new room
    whose state is the given initial state, not the state of the deleted
    one; deleting an id that is not held answers [False] and changes
    nothing. *)
Theorem delete_room_forgets_the_room (m : RoomManager) (rid : string) :
  rid <> EmptyString ->
  let m' := fst (RoomManager_delete_room m rid) in
  snd (RoomManager_delete_room m rid)
  = match RoomManager_get_room m rid with Some _ => true | None => false end /\
  RoomManager_get_room m' rid = None /\
  (forall other, other <> rid ->
     RoomManager_get_room m' other = RoomManager_get_room m other) /\
  (RoomManager_get_room m rid = None -> m' = m) /\
  (forall uid initial metadata,
     _state (snd (fst (RoomManager_create_room m' uid (Some rid) initial metadata)))
     = LWWMap_init ("server-" ++ rid) initial).
Proof.
  intros Hne. cbv zeta.
  assert (Hid : forall uid, room_id_or_uuid (Some rid) uid = rid)
    by (intros uid; destruct rid; [congruence | reflexivity]).
  assert (Hnew : forall (m0 : RoomManager) uid initial metadata,
             _rooms m0 !! rid = None ->
             _state (snd (fst (RoomManager_create_room m0 uid (Some rid) initial metadata)))
             = LWWMap_init ("server-" ++ rid) initial).
  { intros m0 uid initial metadata Hnone. unfold RoomManager_create_room.
    rewrite Hid, Hnone. cbn [fst snd].
    destruct (apply_metadata_keeps
                (fold_left (fun r nf => Room_register_function r (snd nf))
                           (_global_functions m0) (Room_init rid initial)) metadata)
      as (_ & _ & A3 & _).
    rewrite A3, register_functions_keeps_state. reflexivity. }
  unfold RoomManager_get_room, RoomManager_delete_room.
  destruct (_rooms m !! rid) as [r|] eqn:Hr; cbn [fst snd].
  - split; [reflexivity|]. split; [apply lookup_delete_eq|].
    split; [intros other Ho; apply lookup_delete_ne; congruence|].
    split; [discriminate|].
    intros uid initial metadata. apply Hnew. apply lookup_delete_eq.
  - split; [reflexivity|]. split; [exact Hr|].
    split; [reflexivity|]. split; [reflexivity|].
    intros uid initial metadata. apply Hnew. exact Hr.
Qed.

Lemma delete_room_forgets_the_room_witness :
  snd (RoomManager_delete_room sample_manager "lobby") = true /\
  RoomManager_get_room (fst (RoomManager_delete_room sample_manager "lobby")) "lobby"
  = None.
Proof.
  destruct (delete_room_forgets_the_room sample_manager "lobby") as (H1 & H2 & _).
  - discriminate.
  - split; [exact H1 | exact H2].
Defined.

(** ** Merging version vectors, and the local increment *)

(** X26 ([VersionVector.merge], [VersionVector.update],
    [VersionVector.get]): after [self.merge(other)] the entry of every node
    is at least what it was and at least every timestamp [other] holds for
    the node; a node [other] does not mention keeps its entry; and no
    timestamp is invented: the entry of a node is its old entry or a
    timestamp of [other] for that node. *)
Theorem version_vector_merge_is_least_upper_bound (self other : VersionVector) :
  let merged := VersionVector_merge self other in
  (forall node, (VersionVector_get self node <= VersionVector_get merged node)%Q) /\
  (forall node ts, In (node, ts) other -> (ts <= VersionVector_get merged node)%Q) /\
  (forall node, ~ In node (map fst other) ->
                VersionVector_get merged node = VersionVector_get self node) /\
  (forall node, VersionVector_get merged node = VersionVector_get self node \/
                exists ts, In (node, ts) other /\ VersionVector_get merged node = ts).
Proof.
  cbv zeta. unfold VersionVector_merge. revert self.
  induction other as [|[n t] rest IH]; intros self; simpl.
  - split; [intros node; lra|]. split; [intros node ts []|].
    split; [reflexivity|]. intros node. left. reflexivity.
  - destruct (IH (VersionVector_update self n t)) as (I1 & I2 & I3 & I4).
    split; [|split; [|split]].
    + intros node. pose proof (vv_update_mono self n node t). pose proof (I1 node). lra.
    + intros node ts [Heq | Hin]; [|exact (I2 node ts Hin)].
      injection Heq as -> ->. pose proof (I1 node) as H1.
      rewrite vv_get_update_eq in H1.
      pose proof (float_max_ge_r (VersionVector_get self node) ts). lra.
    + intros node Hnot. rewrite I3 by tauto.
      apply vv_get_update_ne. tauto.
    + intros node. destruct (I4 node) as [Hsame | (ts & Hin & Hts)].
      * destruct (decide (n = node)) as [->|Hne].
        -- rewrite vv_get_update_eq in Hsame. unfold float_max in Hsame.
           destruct (float_gt t (VersionVector_get self node)).
           ++ right. exists t. split; [left; reflexivity | exact Hsame].
           ++ left. exact Hsame.
        -- left. rewrite Hsame. apply vv_get_update_ne. exact Hne.
      * right. exists ts. split; [right; exact Hin | exact Hts].
Qed.

(** X27 ([GCounter.increment], [GCounter.apply], [GCounter.value]): a local
    increment by a negative amount raises [ValueError]; by a non-negative
    amount, with a fresh operation id, it succeeds, raises [value()] by
    exactly the amount, by adding it to the count of the replica's own node,
    and leaves the count of every other node alone. *)
Theorem gcounter_increment_adds_amount
    (g : GCounter) (uid : string) (now : Q) (amount : Z)
    (Hfresh : _has_seen (gc_base g)
                (Operation_create uid now (node_id (gc_base g)) [] "increment"
                                  (VInt amount)) = false) :
  ((amount < 0)%Z -> GCounter_increment g uid now amount = Raise ValueError) /\
  ((0 <= amount)%Z ->
   exists g' op,
     GCounter_increment g uid now amount = Ok (g', op) /\
     op_id op = uid /\ op_value op = VInt amount /\
     GCounter_value g' = (GCounter_value g + amount)%Z /\
     count_of (_counts g') (node_id (gc_base g))
     = (count_of (_counts g) (node_id (gc_base g)) + amount)%Z /\
     (forall other, other <> node_id (gc_base g) ->
                    _counts g' !! other = _counts g !! other)).
Proof.
  split.
  - intros Hneg. unfold GCounter_increment.
    apply Z.ltb_lt in Hneg. rewrite Hneg. reflexivity.
  - intros Hpos. unfold GCounter_increment, GCounter_apply.
    assert (Hge : (amount <? 0)%Z = false) by (apply Z.ltb_ge; exact Hpos).
    rewrite Hge, Hfresh. simpl. rewrite Hge. simpl.
    eexists _, _. split; [reflexivity|]. simpl.
    split; [reflexivity|]. split; [reflexivity|].
    split; [|split].
    + unfold GCounter_value. simpl. rewrite sum_counts_insert. lia.
    + unfold count_of at 1. rewrite lookup_insert_eq. reflexivity.
    + intros other Hne. apply lookup_insert_ne. congruence.
Qed.

Lemma gcounter_increment_adds_amount_witness :
  exists g' op,
    GCounter_increment sample_gcounter_a "op-9" 7 3 = Ok (g', op) /\
    GCounter_value g' = (GCounter_value sample_gcounter_a + 3)%Z.
Proof.
  destruct (gcounter_increment_adds_amount sample_gcounter_a "op-9" 7 3 eq_refl)
    as (_ & Hpos).
  destruct (Hpos ltac:(lia)) as (g' & op & H1 & _ & _ & H4 & _).
  exists g', op. split; [exact H1 | exact H4].
Defined.

(* ===================================================================== *)
(** * Part IV: writes and deletions on the whole map *)
(* ===================================================================== *)

(** ** Flattening a dict value *)

(** [_apply_set] stores the leaves of the value one after the other, each
    through the guarded store. *)
Lemma apply_set_leaves (v : PyVal) :
  forall (e : list (Path * Entry)) (p : Path) (t : Q) (o : string),
    _apply_set e p v t o
    = fold_left (fun es leaf => store_if_newer es (fst leaf) (snd leaf) t o)
                (dict_leaves p v) e.
Proof.
  revert v. fix IH 1. intros v e p t o.
  destruct v as [| b | z | q | s | l | items]; simpl; try reflexivity.
  revert e. revert items. fix IHitems 1. intros items e.
  destruct items as [|[key val] items]; simpl.
  - reflexivity.
  - rewrite fold_left_app. rewrite <- IH. apply IHitems.
Qed.

(** A dict value handed to [_apply_set] is flattened by [_flatten_set]. *)
Lemma apply_set_dict (entries : list (Path * Entry)) (path : Path)
    (items : list (string * PyVal)) (ts : Q) (node : string) :
  _apply_set entries path (VDict items) ts node
  = _flatten_set entries path items ts node.
Proof.
  unfold _flatten_set. simpl. revert entries.
  induction items as [|[key val] items IH]; intros entries; simpl.
  - reflexivity.
  - apply IH.
Qed.

(** [_flatten_set] stores the leaves of its dict, in the order of the items. *)
Lemma flatten_set_leaves (items : list (string * PyVal)) (p : Path) (t : Q) (o : string) :
  forall e : list (Path * Entry),
    _flatten_set e p items t o
    = fold_left (fun es leaf => store_if_newer es (fst leaf) (snd leaf) t o)
                (dict_leaves p (VDict items)) e.
Proof.
  unfold _flatten_set.
  induction items as [|[key val] items IH]; intros e.
  - reflexivity.
  - change (dict_leaves p (VDict ((key, val) :: items)))
      with (dict_leaves (p ++ [key])%list val ++ dict_leaves p (VDict items))%list.
    rewrite fold_left_app. cbn [fold_left fst snd].
    rewrite IH, apply_set_leaves. reflexivity.
Qed.

Lemma apply_set_by_leaves (v : PyVal) (e : list (Path * Entry)) (p : Path)
    (t : Q) (o : string) :
  _apply_set e p v t o
  = fold_left (fun es leaf => store_if_newer es (fst leaf) (snd leaf) t o)
              (dict_leaves p v) e.
Proof.
  destruct v as [| b | z | q | s | l | items]; try reflexivity.
  rewrite apply_set_dict. apply flatten_set_leaves.
Qed.

(** Induction on a value whose dict items satisfy the property already. *)
Lemma PyVal_dict_ind (P : PyVal -> Prop) :
  (forall v, is_dict v = false -> P v) ->
  (forall items, Forall (fun kv : string * PyVal => P (snd kv)) items -> P (VDict items)) ->
  forall v, P v.
Proof.
  intros Hscalar Hdict. fix IH 1. intros v.
  destruct v as [| b | z | q | s | l | items]; try (apply Hscalar; reflexivity).
  apply Hdict. revert items. fix IHitems 1. intros items.
  destruct items as [|[key val] items].
  - constructor.
  - constructor; [exact (IH val) | exact (IHitems items)].
Qed.

(** Every leaf lies under the path, and strictly below it for a dict. *)
Lemma dict_leaves_below (v : PyVal) :
  forall (p q : Path),
    In q (map fst (dict_leaves p v)) ->
    exists rest, q = (p ++ rest)%list /\ (is_dict v = true -> rest <> []).
Proof.
  induction v as [v Hv | items Hitems] using PyVal_dict_ind; intros p q.
  - destruct v; try discriminate Hv; simpl;
      (intros [<- | []]; exists []; split;
       [rewrite app_nil_r; reflexivity | discriminate]).
  - induction Hitems as [|[key val] items Hval _ IHitems]; simpl.
    + intros [].
    + rewrite map_app, in_app_iff. intros [Hin | Hin].
      * destruct (Hval (p ++ [key])%list q Hin) as (rest & -> & _).
        exists (key :: rest). split; [rewrite <- app_assoc; reflexivity | discriminate].
      * exact (IHitems Hin).
Qed.

Lemma is_newer_irrefl (t : Q) (o : string) : _is_newer t o t o = false.
Proof.
  destruct (_is_newer t o t o) eqn:E; [|reflexivity].
  apply is_newer_iff in E. exfalso. exact (lex_greater_irrefl t o E).
Qed.

(** What a run of guarded stores with one stamp leaves under each path. *)
Lemma fold_store_get (t : Q) (o : string) (leaves : list (Path * PyVal)) :
  forall (e : list (Path * Entry)) (q : Path),
    (~ In q (map fst leaves) ->
     od_get q (fold_left (fun es leaf => store_if_newer es (fst leaf) (snd leaf) t o)
                         leaves e)
     = od_get q e) /\
    (In q (map fst leaves) ->
     match od_get q e with
     | None =>
         exists lv, In (q, lv) leaves /\
           od_get q (fold_left (fun es leaf => store_if_newer es (fst leaf) (snd leaf) t o)
                               leaves e)
           = Some (lv, t, o)
     | Some (ov, ets, en) =>
         if _is_newer t o ets en
         then exists lv, In (q, lv) leaves /\
                od_get q (fold_left (fun es leaf =>
                                       store_if_newer es (fst leaf) (snd leaf) t o)
                                    leaves e)
                = Some (lv, t, o)
         else od_get q (fold_left (fun es leaf =>
                                     store_if_newer es (fst leaf) (snd leaf) t o)
                                  leaves e)
              = Some (ov, ets, en)
     end).
Proof.
  induction leaves as [|[p w] leaves IH]; intros e q; simpl.
  - split; [reflexivity | intros []].
  - destruct (IH (store_if_newer e p w t o) q) as [IHout IHin].
    pose proof (od_get_store_if_newer e p q w t o) as Hstep.
    split.
    + intros Hnot. rewrite IHout by tauto. rewrite Hstep.
      destruct (decide (p = q)) as [->|Hne]; [exfalso; apply Hnot; left; reflexivity|].
      reflexivity.
    + intros Hin. destruct (decide (p = q)) as [->|Hne].
      * (* the leaf at hand is stored under [q] *)
        destruct (in_dec (List.list_eq_dec string_dec) q (map fst leaves))
          as [Hlater | Hlast].
        -- specialize (IHin Hlater). rewrite Hstep in IHin.
           destruct (od_get q e) as [[[ov ets] en]|].
           ++ destruct (_is_newer t o ets en) eqn:En.
              ** rewrite is_newer_irrefl in IHin. exists w. split; [left; reflexivity|].
                 exact IHin.
              ** rewrite En in IHin. exact IHin.
           ++ rewrite is_newer_irrefl in IHin. exists w. split; [left; reflexivity|].
              exact IHin.
        -- rewrite (IHout Hlast), Hstep.
           destruct (od_get q e) as [[[ov ets] en]|].
           ++ destruct (_is_newer t o ets en).
              ** exists w. split; [left; reflexivity | reflexivity].
              ** reflexivity.
           ++ exists w. split; [left; reflexivity | reflexivity].
      * destruct Hin as [Heq | Hin]; [simpl in Heq; congruence|].
        specialize (IHin Hin). rewrite Hstep in IHin.
        destruct (od_get q e) as [[[ov ets] en]|].
        -- destruct (_is_newer t o ets en).
           ++ destruct IHin as (lv & Hlv & Hget). exists lv. split; [right; exact Hlv | exact Hget].
           ++ exact IHin.
        -- destruct IHin as (lv & Hlv & Hget). exists lv. split; [right; exact Hlv | exact Hget].
Qed.

(** ** C5: the last-writer-wins rule *)

(** C5 as stated fails for a dict value: the write of [{"y": 2}] to ["x"]
    carries a stamp greater than the stamp of the entry stored at ["x"], it
    is applied, and the triple stored at the target ["x"] is not replaced. *)
Lemma dict_set_does_not_replace_target :
  exists m',
    LWWMap_apply sample_map_x dict_set_op = Ok (m', true) /\
    op_type dict_set_op = "set" /\
    od_get (op_path dict_set_op) (_entries sample_map_x) = Some (VInt 1, 1%Q, "a") /\
    lex_greater (op_timestamp dict_set_op) (op_node_id dict_set_op) 1 "a" /\
    od_get (op_path dict_set_op) (_entries m') = Some (VInt 1, 1%Q, "a") /\
    od_get (op_path dict_set_op) (_entries m')
    <> Some (op_value dict_set_op, op_timestamp dict_set_op, op_node_id dict_set_op).
Proof.
  eexists. split; [reflexivity|]. split; [reflexivity|]. split; [reflexivity|].
  split; [left; reflexivity|]. split; [reflexivity | discriminate].
Qed.

(** C5 (amended). Applying a set operation whose id the instance has not
    seen replaces the triple of an LWW-Register iff the incoming
    (ts, origin) is lexicographically greater than the stored pair, whatever
    the value. On an LWW-Map the rule holds at every leaf of the operation:
    the target path itself when the value is not a dict, the paths of the
    values inside when it is a dict (all strictly below the target). At a
    leaf path the stored triple is replaced, by a leaf value with the
    incoming stamp, iff nothing is stored there or the incoming pair is
    greater than the stored pair, and is kept otherwise; every path that is
    not a leaf path, the target of a dict-valued set included, keeps what it
    holds. *)
Theorem lww_set_replaces_iff_greater
    (r : LWWRegister) (reg_op : Operation) (m : LWWMap) (map_op : Operation)
    (Hreg_unseen : _has_seen (reg_base r) reg_op = false)
    (Hreg_set : op_type reg_op = "set")
    (Hmap_unseen : _has_seen (map_base m) map_op = false)
    (Hmap_set : op_type map_op = "set") :
  (exists r',
      LWWRegister_apply r reg_op = Ok (r', true) /\
      (lex_greater (op_timestamp reg_op) (op_node_id reg_op)
                   (tv_timestamp (_current r)) (tv_node_id (_current r)) ->
       _current r'
       = mkTimestampedValue (op_value reg_op) (op_timestamp reg_op) (op_node_id reg_op)) /\
      (~ lex_greater (op_timestamp reg_op) (op_node_id reg_op)
                     (tv_timestamp (_current r)) (tv_node_id (_current r)) ->
       _current r' = _current r))
  /\
  (exists m',
      LWWMap_apply m map_op = Ok (m', true) /\
      let leaves := dict_leaves (op_path map_op) (op_value map_op) in
      (is_dict (op_value map_op) = false ->
       leaves = [(op_path map_op, op_value map_op)] /\
       (forall v ts origin,
           od_get (op_path map_op) (_entries m) = Some (v, ts, origin) ->
           ~ lex_greater (op_timestamp map_op) (op_node_id map_op) ts origin ->
           _entries m' = _entries m)) /\
      (is_dict (op_value map_op) = true ->
       ~ In (op_path map_op) (map fst leaves)) /\
      (forall p, ~ In p (map fst leaves) ->
                 od_get p (_entries m') = od_get p (_entries m)) /\
      (forall p, In p (map fst leaves) ->
         match od_get p (_entries m) with
         | None =>
             exists lv, In (p, lv) leaves /\
               od_get p (_entries m')
               = Some (lv, op_timestamp map_op, op_node_id map_op)
         | Some (v, ts, origin) =>
             (lex_greater (op_timestamp map_op) (op_node_id map_op) ts origin ->
              exists lv, In (p, lv) leaves /\
                od_get p (_entries m')
                = Some (lv, op_timestamp map_op, op_node_id map_op)) /\
             (~ lex_greater (op_timestamp map_op) (op_node_id map_op) ts origin ->
              od_get p (_entries m') = Some (v, ts, origin))
         end)).
Proof.
  split; [apply register_apply_set; assumption|].
  unfold LWWMap_apply. rewrite Hmap_unseen, Hmap_set. simpl.
  eexists. split; [reflexivity|]. simpl.
  split; [|split; [|split]].
  - intros Hscalar. split.
    + destruct (op_value map_op); try discriminate Hscalar; reflexivity.
    + intros v ts origin Hstored Hnot.
      rewrite (apply_set_scalar _ _ _ _ _ Hscalar). unfold store_if_newer.
      rewrite Hstored. rewrite (is_newer_false_of_not_greater _ _ _ _ Hnot). reflexivity.
  - intros Hdict Hin.
    destruct (dict_leaves_below _ _ _ Hin) as (rest & Heq & Hrest).
    apply (Hrest Hdict). rewrite <- (app_nil_r (op_path map_op)) in Heq at 1.
    apply app_inv_head in Heq. symmetry. exact Heq.
  - intros p Hnot. rewrite apply_set_by_leaves.
    apply (fold_store_get _ _ _ (_entries m) p). exact Hnot.
  - intros p Hin. rewrite apply_set_by_leaves.
    pose proof (proj2 (fold_store_get (op_timestamp map_op) (op_node_id map_op)
                         (dict_leaves (op_path map_op) (op_value map_op))
                         (_entries m) p) Hin) as Hleaf.
    destruct (od_get p (_entries m)) as [[[v ts] origin]|]; [|exact Hleaf].
    destruct (_is_newer (op_timestamp map_op) (op_node_id map_op) ts origin) eqn:En.
    + split; [intros _; exact Hleaf|].
      intros Hnot. exfalso. apply Hnot. apply is_newer_iff. exact En.
    + split; [|intros _; exact Hleaf].
      intros Hg. apply is_newer_iff in Hg. congruence.
Qed.

Lemma lww_set_replaces_iff_greater_witness :
  (exists r',
      LWWRegister_apply sample_register sample_set_op = Ok (r', true) /\
      _current r' = mkTimestampedValue (VInt 2) 1 "b")
  /\
  (exists m',
      LWWMap_apply sample_map_x dict_set_op = Ok (m', true) /\
      od_get ["x"] (_entries m') = Some (VInt 1, 1%Q, "a") /\
      od_get ["x"; "y"] (_entries m') = Some (VInt 2, 2%Q, "b")).
Proof.
  destruct (lww_set_replaces_iff_greater sample_register sample_set_op
              sample_map_x dict_set_op eq_refl eq_refl eq_refl eq_refl)
    as [(r' & Hr & Hgreater & _) (m' & Hm & _ & _ & Hother & Hleaf)].
  split.
  - exists r'. split; [exact Hr|]. apply Hgreater. right. split; reflexivity.
  - exists m'. split; [exact Hm|]. split.
    + rewrite (Hother ["x"]); [reflexivity|]. simpl. intros [H | []]. discriminate H.
    + destruct (Hleaf ["x"; "y"]) as (lv & [Hlv | []] & Hget); [left; reflexivity|].
      injection Hlv as <-. exact Hget.
Defined.

(** ** C1: tombstones and what [value()] shows *)

Lemma path_prefix_nil (p : Path) : path_prefix [] p.
Proof. exists p. reflexivity. Qed.

Lemma path_prefix_cons (k k' : string) (p q : Path) :
  path_prefix (k :: p) (k' :: q) <-> k = k' /\ path_prefix p q.
Proof.
  unfold path_prefix. split.
  - intros (rest & Heq). simpl in Heq. injection Heq as -> ->.
    split; [reflexivity | exists rest; reflexivity].
  - intros (-> & rest & ->). exists rest. reflexivity.
Qed.

Lemma value_at_cons (d : list (string * PyVal)) (k : string) (rest : Path) :
  value_at (VDict d) (k :: rest)
  = match od_get k d with
    | Some child => value_at child rest
    | None => None
    end.
Proof. reflexivity. Qed.

Lemma set_nested_cons (acc : list (string * PyVal)) (k k2 : string) (rest : Path)
    (v : PyVal) :
  set_nested acc (k :: k2 :: rest) v
  = od_set k (VDict (set_nested (match od_get k acc with
                                 | Some (VDict c) => c
                                 | _ => []
                                 end) (k2 :: rest) v)) acc.
Proof. reflexivity. Qed.

(** The leaf assignment of [value()] shows the value under its path. *)
Lemma set_nested_own (path : Path) (v : PyVal) :
  path <> [] ->
  forall acc, value_at (VDict (set_nested acc path v)) path = Some v.
Proof.
  induction path as [|k rest IH]; intros Hne acc; [contradiction|].
  destruct rest as [|k2 rest].
  - simpl. rewrite od_get_set_eq. reflexivity.
  - rewrite set_nested_cons, value_at_cons, od_get_set_eq. apply IH. discriminate.
Qed.

(** A leaf assignment leaves alone what is read under any path that does
    not conflict with its own. *)
Lemma set_nested_other (q : Path) (w : PyVal) :
  forall (acc : list (string * PyVal)) (path : Path),
    ~ paths_conflict q path ->
    value_at (VDict (set_nested acc q w)) path = value_at (VDict acc) path.
Proof.
  unfold paths_conflict.
  induction q as [|k q IH]; intros acc path Hfree.
  - exfalso. apply Hfree. left. apply path_prefix_nil.
  - destruct path as [|k' p]; [exfalso; apply Hfree; right; apply path_prefix_nil|].
    destruct (decide (k = k')) as [<-|Hk].
    + destruct q as [|k2 q].
      * exfalso. apply Hfree. left. apply path_prefix_cons.
        split; [reflexivity | apply path_prefix_nil].
      * destruct p as [|k3 p].
        { exfalso. apply Hfree. right. apply path_prefix_cons.
          split; [reflexivity | apply path_prefix_nil]. }
        rewrite set_nested_cons, !(value_at_cons _ k), od_get_set_eq.
        rewrite IH.
        -- destruct (od_get k acc) as [child|]; [|reflexivity].
           destruct child; reflexivity.
        -- intros [H | H]; apply Hfree; [left | right];
             apply path_prefix_cons; (split; [reflexivity | exact H]).
    + assert (Hget : forall x, od_get k' (od_set k x acc) = od_get k' acc)
        by (intros x; apply od_get_set_ne; exact Hk).
      destruct q as [|k2 q].
      * simpl. rewrite Hget. reflexivity.
      * rewrite set_nested_cons, !(value_at_cons _ k'), Hget. reflexivity.
Qed.

(** The paths of the entries are the keys of a dict: each occurs once. *)
Lemma store_if_newer_nodup (e : list (Path * Entry)) (p : Path) (v : PyVal)
    (t : Q) (o : string) :
  List.NoDup (map fst e) -> List.NoDup (map fst (store_if_newer e p v t o)).
Proof.
  intros Hnd. unfold store_if_newer.
  destruct (od_get p e) as [[[v0 t0] o0]|].
  - destruct (_is_newer t o t0 o0); [apply od_set_keys_nodup|]; exact Hnd.
  - apply od_set_keys_nodup. exact Hnd.
Qed.

Lemma init_from_value_nodup (node : string) (v : PyVal) :
  forall (e : list (Path * Entry)) (p : Path),
    List.NoDup (map fst e) -> List.NoDup (map fst (_init_from_value e node v p)).
Proof.
  induction v as [v Hv | items Hitems] using PyVal_dict_ind; intros e p Hnd.
  - destruct v; try discriminate Hv; exact Hnd.
  - simpl. revert e Hnd.
    induction Hitems as [|[key val] items Hval _ IHitems]; intros e Hnd.
    + exact Hnd.
    + apply IHitems. simpl in Hval.
      destruct val; try (apply od_set_keys_nodup; exact Hnd).
      apply Hval. exact Hnd.
Qed.

Lemma reachable_entries_nodup (s : LWWMap) :
  map_reachable s -> List.NoDup (map fst (_entries s)).
Proof.
  induction 1 as [node initial | m op m' b _ IH Happly].
  - unfold LWWMap_init. simpl. destruct (truthy_dict initial) as [d|].
    + apply init_from_value_nodup. constructor.
    + constructor.
  - unfold LWWMap_apply in Happly.
    destruct (_has_seen (map_base m) op); [injection Happly as <- _; exact IH|].
    destruct (String.eqb (op_type op) "set").
    + simpl in Happly. injection Happly as <- _. simpl.
      apply (apply_set_keeps (fun e => List.NoDup (map fst e))); [|exact IH].
      intros e p v t o. apply store_if_newer_nodup.
    + destruct (String.eqb (op_type op) "delete"); simpl in Happly; [|discriminate].
      injection Happly as <- _. exact IH.
Qed.

(** The loop of [value()], read under one path that conflicts with no
    other stored path. *)
Lemma value_loop_at (tombstones : list (Path * Tombstone)) (path : Path) :
  path <> [] ->
  forall (entries : list (Path * Entry)) (acc : list (string * PyVal)),
    List.NoDup (map fst entries) ->
    (forall q, In q (map fst entries) -> paths_conflict q path -> q = path) ->
    value_at
      (VDict (fold_left
                (fun result (item : Path * Entry) =>
                   let '(path, (value, ts, _)) := item in
                   if tombstoned tombstones path ts then result
                   else set_nested result path value)
                entries acc)) path
    = match od_get path entries with
      | Some (v, ts, _) =>
          if tombstoned tombstones path ts then value_at (VDict acc) path else Some v
      | None => value_at (VDict acc) path
      end.
Proof.
  intros Hne. induction entries as [|[q [[w t] o]] entries IH]; intros acc Hnd Hfree.
  - reflexivity.
  - inversion Hnd as [|? ? Hnotin Hnd']; subst.
    cbn [fold_left od_get]. rewrite IH; [|exact Hnd'|].
    2: { intros q' Hq'. apply Hfree. right. exact Hq'. }
    destruct (decide (path = q)) as [<-|Hq].
    + rewrite (od_get_None_not_key path entries Hnotin).
      destruct (tombstoned tombstones path t); [reflexivity|].
      apply set_nested_own. exact Hne.
    + assert (Hsame : value_at (VDict (if tombstoned tombstones q t then acc
                                       else set_nested acc q w)) path
                      = value_at (VDict acc) path).
      { destruct (tombstoned tombstones q t); [reflexivity|].
        apply set_nested_other. intros Hc. apply Hq. symmetry.
        apply Hfree; [left; reflexivity | exact Hc]. }
      destruct (od_get path entries) as [[[v ts] o']|].
      * destruct (tombstoned tombstones path ts); [exact Hsame | reflexivity].
      * exact Hsame.
Qed.

(** What [value()] holds under the path of an entry that conflicts with no
    other stored path. *)
Lemma value_at_entry (s : LWWMap) (path : Path) (v : PyVal) (ts : Q) (origin : string) :
  List.NoDup (map fst (_entries s)) ->
  od_get path (_entries s) = Some (v, ts, origin) ->
  path <> [] ->
  (forall q, In q (map fst (_entries s)) -> paths_conflict q path -> q = path) ->
  value_at (LWWMap_value s) path
  = if tombstoned (_tombstones s) path ts then None else Some v.
Proof.
  intros Hnd Hentry Hleaf Hfree. unfold LWWMap_value.
  rewrite (value_loop_at (_tombstones s) path Hleaf (_entries s) [] Hnd Hfree).
  rewrite Hentry. destruct (tombstoned (_tombstones s) path ts); [|reflexivity].
  destruct path as [|k rest]; [contradiction | reflexivity].
Qed.

(** The tombstone test at a path after [_apply_delete] at that path: the
    tombstone kept is never older than the deletion. *)
Lemma tombstoned_after_delete (tombstones : list (Path * Tombstone)) (path : Path)
    (t : Q) (o : string) (ts : Q) :
  ((ts < t)%Q -> tombstoned (_apply_delete tombstones path t o) path ts = true) /\
  ((t <= ts)%Q -> tombstoned tombstones path ts = false ->
   tombstoned (_apply_delete tombstones path t o) path ts = false).
Proof.
  unfold _apply_delete, tombstoned.
  destruct (od_get path tombstones) as [[ets en]|] eqn:E.
  - destruct (_is_newer t o ets en) eqn:En.
    + rewrite od_get_set_eq. split.
      * intros H. apply float_gt_iff. exact H.
      * intros H _. apply float_gt_false_iff. exact H.
    + rewrite E. split; [|intros _ H; exact H].
      intros H. apply float_gt_iff.
      destruct (Qlt_le_dec ets t) as [Hlt | Hle]; [|lra].
      exfalso. assert (Hg : _is_newer t o ets en = true)
        by (apply is_newer_iff; left; exact Hlt).
      congruence.
  - rewrite od_get_set_eq. split.
    + intros H. apply float_gt_iff. exact H.
    + intros H _. apply float_gt_false_iff. exact H.
Qed.

(** C1 (amended). On every state of a map reached by applying operations,
    and for every entry stored under a path that is not the root, conflicts
    with no other stored path and has no tombstone at a proper prefix:
    [value()] hides the entry iff a tombstone at the entry's own path has a
    timestamp strictly greater than the entry's. Hidden, nothing is read
    under the path in the result; otherwise the value of the entry is. A
    tombstone with an equal timestamp does not hide, and the origins are not
    compared. A delete operation at the path records such a tombstone: after
    a deletion stamped later than the entry the entry is hidden, and after
    one stamped no later than the entry it is shown as before. *)
Theorem value_hides_iff_newer_tombstone_at_path
    (s : LWWMap) (path : Path) (v : PyVal) (ts : Q) (origin : string)
    (Hreach : map_reachable s)
    (Hentry : od_get path (_entries s) = Some (v, ts, origin))
    (Hleaf : path <> [])
    (Hfree : forall q, In q (map fst (_entries s)) -> paths_conflict q path -> q = path)
    (Hno_prefix_tombstone :
       forall q, In q (map fst (_tombstones s)) -> path_prefix q path -> q = path) :
  (value_at (LWWMap_value s) path = Some v
   <-> ~ newer_tombstone_at (_tombstones s) path ts) /\
  (newer_tombstone_at (_tombstones s) path ts ->
   value_at (LWWMap_value s) path = None) /\
  (forall op,
      op_type op = "delete" -> op_path op = path ->
      _has_seen (map_base s) op = false ->
      exists s',
        LWWMap_apply s op = Ok (s', true) /\
        ((ts < op_timestamp op)%Q -> value_at (LWWMap_value s') path = None) /\
        ((op_timestamp op <= ts)%Q ->
         ~ newer_tombstone_at (_tombstones s) path ts ->
         value_at (LWWMap_value s') path = Some v)).
Proof.
  pose proof (reachable_entries_nodup s Hreach) as Hnd.
  pose proof (value_at_entry s path v ts origin Hnd Hentry Hleaf Hfree) as Hvalue.
  split; [|split].
  - unfold newer_tombstone_at. rewrite <- tombstoned_iff. rewrite Hvalue.
    destruct (tombstoned (_tombstones s) path ts).
    + split; [discriminate | intros H; exfalso; apply H; reflexivity].
    + split; [discriminate | reflexivity].
  - unfold newer_tombstone_at. rewrite <- tombstoned_iff. rewrite Hvalue.
    intros ->. reflexivity.
  - intros op Hty Hpath Hseen. unfold LWWMap_apply. rewrite Hseen, Hty. simpl.
    eexists. split; [reflexivity|]. rewrite Hpath.
    match goal with
    | |- context [LWWMap_value ?m] =>
        pose proof (value_at_entry m path v ts origin Hnd Hentry Hleaf Hfree) as Hafter;
        cbn [_tombstones] in Hafter
    end.
    destruct (tombstoned_after_delete (_tombstones s) path (op_timestamp op)
                (op_node_id op) ts) as [Hlater Hearlier].
    split.
    + intros Hlt. rewrite Hafter, (Hlater Hlt). reflexivity.
    + intros Hle Hnot. rewrite Hafter, Hearlier; [reflexivity | exact Hle |].
      destruct (tombstoned (_tombstones s) path ts) eqn:Et; [|reflexivity].
      exfalso. apply Hnot. apply tombstoned_iff. exact Et.
Qed.

Lemma deleted_leaf_map_reachable : map_reachable deleted_leaf_map.
Proof.
  apply (apply_all_reachable sample_map ops_set_then_delete);
    [apply map_reach_init | reflexivity].
Qed.

Lemma value_hides_iff_newer_tombstone_at_path_witness :
  value_at (LWWMap_value deleted_leaf_map) ["c"] = None /\
  value_at (LWWMap_value deleted_leaf_map) ["a"; "b"] = Some (VInt 1).
Proof.
  split.
  - apply (value_hides_iff_newer_tombstone_at_path deleted_leaf_map ["c"]
             (VInt 3) 1 "n" deleted_leaf_map_reachable).
    + reflexivity.
    + discriminate.
    + intros q [<- | [<- | []]] [[rest H] | [rest H]];
        try reflexivity; discriminate H.
    + intros q [<- | []] _. reflexivity.
    + exists 2%Q, "n". split; reflexivity.
  - reflexivity.
Defined.
